(** * Planner task importer: the assignee and bucket resolution engine

    A shallow embedding of the matching code of [deno-app/file-parser.ts]
    (class [FileParser]: [normalizeKey], [generateMemberKeys],
    [generateAssigneeKeys], [buildMemberIndex], [findMemberMatches],
    [lookupAssignees], [lookupBuckets]) and of the record types of
    [deno-app/auth.ts], followed by the properties of the resolution
    engine.

    JavaScript strings are sequences of UTF-16 code units; they are
    modelled as lists of [N].  What depends on the runtime is a field of
    the class [JsRuntime]: the two built-ins whose behaviour is given by
    the Unicode tables, [String.prototype.normalize] and
    [String.prototype.toLowerCase], with the part of their behaviour
    that the proofs rely on, and the presence of the [__proto__]
    accessor.  The properties are proved for every runtime.

    The reading half of the class ([parseCSV], [parseCSVLine],
    [normalizeDate], [mapStatusToPercentage], [processData],
    [validateTasks], [getAvailableColumns] and the two statistics
    functions) and what [deno-app/server.ts] takes from a processed task
    when it creates the tasks are embedded after the engine.  What they
    take from libraries is a field of the class [JsLibraries]. *)

From Stdlib Require Import String Ascii QArith.
From stdpp Require Import base option list gmap.

(** ** Strings *)

Definition str : Type := list N.

(** An ASCII literal as a sequence of code units. *)
Definition u16 (s : string) : str :=
  List.map N_of_ascii (list_ascii_of_string s).
Arguments u16 s%_string.

Definition SPACE : N := 32%N.
Definition COMMA : N := 44%N.

(** [String.prototype.length > 0], which is also the truth value of a
    string. *)
Definition nonempty (s : str) : bool :=
  match s with [] => false | _ :: _ => true end.

Definition str_eqb (s t : str) : bool := bool_decide (s = t).

(** Line terminators: the characters that [.] does not match. *)
Definition is_line_terminator (c : N) : bool :=
  ((c =? 10) || (c =? 13) || (c =? 0x2028) || (c =? 0x2029))%N.

(** The class [\s] of regular expressions, which is also what [trim]
    removes: WhiteSpace and LineTerminator of ECMA-262. *)
Definition is_js_space (c : N) : bool :=
  (((9 <=? c) && (c <=? 13)) || (c =? 32) || (c =? 0xA0) || (c =? 0x1680)
   || ((0x2000 <=? c) && (c <=? 0x200A)) || (c =? 0x2028) || (c =? 0x2029)
   || (c =? 0x202F) || (c =? 0x205F) || (c =? 0x3000) || (c =? 0xFEFF))%N.

(** The class [[a-z0-9]]. *)
Definition is_lower_alnum (c : N) : bool :=
  (((97 <=? c) && (c <=? 122)) || ((48 <=? c) && (c <=? 57)))%N.

(** The class of U+0300 to U+036F: combining diacritical marks. *)
Definition is_combining_mark (c : N) : bool :=
  ((0x300 <=? c) && (c <=? 0x36F))%N.

Definition is_ascii (c : N) : bool := (c <? 128)%N.
Definition is_latin1 (c : N) : bool := (c <? 256)%N.

(** [toLowerCase] on one Basic Latin code unit. *)
Definition ascii_lower (c : N) : N :=
  if ((65 <=? c) && (c <=? 90))%N then (c + 32)%N else c.

(** [String.prototype.trim]. *)
Fixpoint trimStart (s : str) : str :=
  match s with
  | [] => []
  | c :: r => if is_js_space c then trimStart r else s
  end.

Fixpoint trimEnd (s : str) : str :=
  match s with
  | [] => []
  | c :: r =>
      match trimEnd r with
      | [] => if is_js_space c then [] else [c]
      | r' => c :: r'
      end
  end.

Definition trim (s : str) : str := trimEnd (trimStart s).

(** [s.replace(/[C]+/g, " ")] for a character class [C] given as a
    predicate: every maximal run of characters of the class becomes one
    space.  [in_run] tells that the previous character was in the class. *)
Fixpoint replace_runs (p : N -> bool) (in_run : bool) (s : str) : str :=
  match s with
  | [] => []
  | c :: r =>
      if p c
      then (if in_run then replace_runs p true r
            else SPACE :: replace_runs p true r)
      else c :: replace_runs p false r
  end.

(** After an opening parenthesis: the number of characters before the
    first closing parenthesis, provided no line terminator comes before
    it (the lazy [.*?] of [/\(.*?\)/]). *)
Fixpoint close_paren_offset (s : str) : option nat :=
  match s with
  | [] => None
  | c :: r =>
      if (c =? 41)%N then Some 0
      else if is_line_terminator c then None
      else S <$> close_paren_offset r
  end.

(** [s.replace(/\(.*?\)/g, "")].  [skip] counts the characters of the
    current match that remain to be dropped. *)
Fixpoint strip_parens_from (skip : nat) (s : str) : str :=
  match s with
  | [] => []
  | c :: r =>
      match skip with
      | S k => strip_parens_from k r
      | O =>
          if (c =? 40)%N
          then match close_paren_offset r with
               | Some k => strip_parens_from (S k) r
               | None => c :: strip_parens_from 0 r
               end
          else c :: strip_parens_from 0 r
      end
  end.

Definition strip_parens (s : str) : str := strip_parens_from 0 s.

(** [s.replace(/,/g, " ")]. *)
Definition commas_to_spaces (s : str) : str :=
  List.map (fun c => if (c =? COMMA)%N then SPACE else c) s.

(** [s.split(sep)] for a one-character separator; the result always has
    at least one part. *)
Fixpoint split_on (sep : N) (s : str) : list str :=
  match s with
  | [] => [[]]
  | c :: r =>
      if (c =? sep)%N then [] :: split_on sep r
      else match split_on sep r with
           | p :: ps => (c :: p) :: ps
           | [] => [[c]]
           end
  end.

Fixpoint starts_with (s t : str) : bool :=
  match t, s with
  | [], _ => true
  | _ :: _, [] => false
  | b :: t', a :: s' => (a =? b)%N && starts_with s' t'
  end.

(** [s.includes(t)]. *)
Fixpoint includes (s t : str) : bool :=
  starts_with s t ||
  match s with
  | [] => false
  | _ :: r => includes r t
  end.

(** A [Set<string>] keeps its elements in insertion order. *)
Definition set_add (keys : list str) (k : str) : list str :=
  if bool_decide (k ∈ keys) then keys else keys ++ [k].

(** A template literal [`${a} ${b}`]. *)
Definition spaced (a b : str) : str := a ++ SPACE :: b.

(** ** Data model ([auth.ts], [file-parser.ts]) *)

Module PlannerMember.
Record t := {
  id : str;
  displayName : str;
  mail : option str;
  userPrincipalName : option str;
  givenName : option str;
  surname : option str;
  companyName : option str;
}.
End PlannerMember.

Module Bucket.
Record t := {
  id : str;
  name : str;
  planId : str;
}.
End Bucket.

(** The truth value of an optional string property: absent and empty are
    both false. *)
Definition truthy (o : option str) : bool :=
  match o with
  | Some s => nonempty s
  | None => false
  end.

(** [o || ""], which is also what a template literal prints for a
    property known to be truthy. *)
Definition or_empty (o : option str) : str := default [] o.

(** A member copied into a result:
    [{ ...member, originalName, source }]. *)
Record MatchedUser := {
  member : PlannerMember.t;
  originalName : str;
  source : str;
}.

Record ParsedTask := {
  title : str;
  description : option str;
  startDate : option str;
  dueDate : option str;
  assignee : option str;
  assignees : option (list str);
  bucketName : option str;
  status : option str;
}.

(** The values that the bucket code handles dynamically.  Buckets and
    matches are ordinary objects (own properties in creation order, with
    [Object.prototype] as prototype); a computed property read on a plain
    object may also return what [Object.prototype] holds. *)
#[local] Unset Elimination Schemes.
Inductive JsValue :=
| JsUndefined
| JsNull
| JsBool (b : bool)
| JsString (s : str)
| JsFunction (fname : str)
| JsObjectPrototype
| JsObject (props : list (str * JsValue)).
#[local] Set Elimination Schemes.

Definition Props : Type := list (str * JsValue).

(** The [bucketInfo] property; its [id], [name] and [exactMatch] are read
    from the matched object at run time. *)
Module BucketInfo.
Record t := {
  id : JsValue;
  name : JsValue;
  originalName : str;
  exactMatch : JsValue;
}.
End BucketInfo.

Record ProcessedTask := {
  task : ParsedTask;
  assigneeUsers : option (list MatchedUser);
  assigneeLookupFailed : option bool;
  assigneeLookupFailedList : option (list str);
  assigneeCandidates : option (list MatchedUser);
  assigneeNeedsReview : option bool;
  bucketInfo : option BucketInfo.t;
  bucketLookupFailed : option bool;
}.

(** ** Plain objects used as dictionaries

    [bucketLookup] and [bucketMapping] are object literals [{}] read and
    written with computed keys.  Such an object has its own properties, in
    creation order, and a prototype, [Object.prototype] at first.  A read
    goes through the prototype chain.  Where [Object.prototype] has the
    [__proto__] accessor, a write with that key replaces the prototype
    when the value is an object or [null]. *)

Inductive Prototype :=
| ProtoObjectPrototype
| ProtoNull
| ProtoObject (props : Props).

Record PlainObject := {
  own : Props;
  proto : Prototype;
}.

Definition empty_object : PlainObject :=
  {| own := []; proto := ProtoObjectPrototype |}.

Definition PROTO : str := u16 "__proto__".

Fixpoint get_own (props : Props) (k : str) : option JsValue :=
  match props with
  | [] => None
  | (k', v) :: rest => if str_eqb k' k then Some v else get_own rest k
  end.

(** Defines or replaces an own property; a replaced property keeps its
    place. *)
Fixpoint set_own (props : Props) (k : str) (v : JsValue) : Props :=
  match props with
  | [] => [(k, v)]
  | (k', v') :: rest =>
      if str_eqb k' k then (k', v) :: rest else (k', v') :: set_own rest k v
  end.

(** The function-valued properties of [Object.prototype]. *)
Definition object_prototype_methods : list str :=
  [u16 "__defineGetter__"; u16 "__defineSetter__"; u16 "hasOwnProperty";
   u16 "__lookupGetter__"; u16 "__lookupSetter__"; u16 "isPrototypeOf";
   u16 "propertyIsEnumerable"; u16 "toString"; u16 "valueOf";
   u16 "toLocaleString"].

Definition proto_value (p : Prototype) : JsValue :=
  match p with
  | ProtoObjectPrototype => JsObjectPrototype
  | ProtoNull => JsNull
  | ProtoObject props => JsObject props
  end.

Definition js_truthy (v : JsValue) : bool :=
  match v with
  | JsUndefined | JsNull => false
  | JsBool b => b
  | JsString s => nonempty s
  | JsFunction _ | JsObjectPrototype | JsObject _ => true
  end.

(** Decimal digits of a number, most significant first. *)
Fixpoint decimal_digits (fuel : nat) (n : N) (acc : str) : str :=
  match fuel with
  | O => acc
  | S fuel' =>
      let acc' := (48 + n mod 10)%N :: acc in
      if (n <? 10)%N then acc' else decimal_digits fuel' (n / 10)%N acc'
  end.

Definition decimal (n : N) : str := decimal_digits (S (N.to_nat (N.log2 n))) n [].

Definition is_digit (c : N) : bool := ((48 <=? c) && (c <=? 57))%N.

(** The array index that a property key denotes, if any: a canonical
    decimal numeral below 2^32 - 1. *)
Definition array_index (k : str) : option N :=
  match k with
  | [] => None
  | c :: r =>
      if forallb is_digit k && ((is_digit c && negb (c =? 48)%N) || negb (nonempty r))
      then
        let n := fold_left (fun acc d => (10 * acc + (d - 48))%N) k 0%N in
        if (n <? 4294967295)%N then Some n else None
      else None
  end.

Fixpoint insert_by_index (e : N * (str * JsValue)) (l : list (N * (str * JsValue)))
    : list (N * (str * JsValue)) :=
  match l with
  | [] => [e]
  | e' :: rest =>
      if (fst e <=? fst e')%N then e :: l else e' :: insert_by_index e rest
  end.

(** [Object.entries(o)]: the own properties, those whose key is an array
    index first, in ascending numeric order, then the others in creation
    order. *)
Definition object_entries (o : PlainObject) : Props :=
  let indexed :=
    omap (fun kv => (fun n => (n, kv)) <$> array_index (fst kv)) (own o) in
  let named :=
    List.filter (fun kv => negb (bool_decide (is_Some (array_index (fst kv))))) (own o) in
  List.map snd (fold_right insert_by_index [] indexed) ++ named.

(** The own enumerable properties that an object spread [{...v}] copies:
    those of an ordinary object, the characters of a string, nothing
    otherwise. *)
Definition spread_props (v : JsValue) : Props :=
  match v with
  | JsObject props => props
  | JsString s => imap (fun i c => (decimal (N.of_nat i), JsString [c])) s
  | _ => []
  end.

(** The properties read with a fixed name. *)
Inductive Field := FId | FName | FExactMatch.

Definition field_name (f : Field) : str :=
  match f with
  | FId => u16 "id"
  | FName => u16 "name"
  | FExactMatch => u16 "exactMatch"
  end.

(** [v.id], [v.name], [v.exactMatch] for a value [v] other than
    [undefined] and [null]: none of the built-in prototypes has such a
    property, except that a function has a [name]. *)
Definition js_field (v : JsValue) (f : Field) : JsValue :=
  match v with
  | JsObject props => default JsUndefined (get_own props (field_name f))
  | JsFunction fname =>
      match f with FName => JsString fname | _ => JsUndefined end
  | _ => JsUndefined
  end.

(** ** Objects in a store

    Tasks, members and buckets are objects that the caller holds
    references to.  A store is the list of the objects allocated so far, a
    reference is a position in it, and the operations run in a state
    monad that fails on a dangling or ill-typed reference.  The copies
    [{ ...task }] are allocations; the property writes of the loops
    update the copy. *)

Inductive StoreObject :=
| ParsedObject (t : ParsedTask)
| ProcessedObject (p : ProcessedTask)
| MemberObject (m : PlannerMember.t)
| BucketObject (b : Bucket.t).

Abbreviation Store := (list StoreObject) (only parsing).
Abbreviation Ref := nat (only parsing).

Definition M (A : Type) : Type := Store -> option (A * Store).

Definition ret {A} (x : A) : M A := fun st => Some (x, st).

Definition bind {A B} (m : M A) (f : A -> M B) : M B :=
  fun st => match m st with
           | Some (x, st') => f x st'
           | None => None
           end.

Notation "'do' x <- m ; k" := (bind m (fun x => k))
  (at level 10, x name, m at level 100, k at level 200).

Definition alloc (o : StoreObject) : M Ref :=
  fun st => Some (length st, st ++ [o]).

Definition read_parsed (r : Ref) : M ParsedTask :=
  fun st => match st !! r with Some (ParsedObject t) => Some (t, st) | _ => None end.

Definition read_processed (r : Ref) : M ProcessedTask :=
  fun st => match st !! r with Some (ProcessedObject p) => Some (p, st) | _ => None end.

Definition read_member (r : Ref) : M PlannerMember.t :=
  fun st => match st !! r with Some (MemberObject m) => Some (m, st) | _ => None end.

Definition read_bucket (r : Ref) : M Bucket.t :=
  fun st => match st !! r with Some (BucketObject b) => Some (b, st) | _ => None end.

(** Property writes on a processed task in the store. *)
Definition update_processed (r : Ref) (f : ProcessedTask -> ProcessedTask) : M unit :=
  fun st => match st !! r with
           | Some (ProcessedObject p) => Some (tt, <[r := ProcessedObject (f p)]> st)
           | _ => None
           end.

Fixpoint for_each {A B} (f : A -> M B) (l : list A) : M (list B) :=
  match l with
  | [] => ret []
  | x :: rest => do y <- f x ; do ys <- for_each f rest ; ret (y :: ys)
  end.

(** ** The string built-ins of the runtime *)

(** Compatibility decomposition of the Basic Latin and Latin-1
    Supplement blocks (UnicodeData, decomposition mapping field). *)
Definition latin1_decomposition (c : N) : str :=
  let with_mark (base mark : N) := [base; mark] in
  let marks6 (base : N) (i : N) :=
    with_mark base (nth (N.to_nat i) [0x300; 0x301; 0x302; 0x303; 0x308; 0x30A] 0)%N in
  let marks4 (base : N) (i : N) :=
    with_mark base (nth (N.to_nat i) [0x300; 0x301; 0x302; 0x308] 0)%N in
  (if c =? 0xA0 then [32]
   else if c =? 0xA8 then [32; 0x308]
   else if c =? 0xAA then [97]
   else if c =? 0xAF then [32; 0x304]
   else if c =? 0xB2 then [50]
   else if c =? 0xB3 then [51]
   else if c =? 0xB4 then [32; 0x301]
   else if c =? 0xB5 then [0x3BC]
   else if c =? 0xB8 then [32; 0x327]
   else if c =? 0xB9 then [49]
   else if c =? 0xBA then [111]
   else if c =? 0xBC then [49; 0x2044; 52]
   else if c =? 0xBD then [49; 0x2044; 50]
   else if c =? 0xBE then [51; 0x2044; 52]
   else if (0xC0 <=? c) && (c <=? 0xC5) then marks6 65 (c - 0xC0)
   else if c =? 0xC7 then [67; 0x327]
   else if (0xC8 <=? c) && (c <=? 0xCB) then marks4 69 (c - 0xC8)
   else if (0xCC <=? c) && (c <=? 0xCF) then marks4 73 (c - 0xCC)
   else if c =? 0xD1 then [78; 0x303]
   else if (0xD2 <=? c) && (c <=? 0xD6) then marks6 79 (c - 0xD2)
   else if (0xD9 <=? c) && (c <=? 0xDC) then marks4 85 (c - 0xD9)
   else if c =? 0xDD then [89; 0x301]
   else if (0xE0 <=? c) && (c <=? 0xE5) then marks6 97 (c - 0xE0)
   else if c =? 0xE7 then [99; 0x327]
   else if (0xE8 <=? c) && (c <=? 0xEB) then marks4 101 (c - 0xE8)
   else if (0xEC <=? c) && (c <=? 0xEF) then marks4 105 (c - 0xEC)
   else if c =? 0xF1 then [110; 0x303]
   else if (0xF2 <=? c) && (c <=? 0xF6) then marks6 111 (c - 0xF2)
   else if (0xF9 <=? c) && (c <=? 0xFC) then marks4 117 (c - 0xF9)
   else if c =? 0xFD then [121; 0x301]
   else if c =? 0xFF then [121; 0x308]
   else [c])%N.

(** What the engine needs of the runtime.  Of [normalize("NFKD")] and
    [toLowerCase]: on Latin-1 text the decomposition works character by
    character (each decomposition has a starter before its mark, so no
    reordering takes place), and on Basic Latin text lower-casing does.
    Of [Object.prototype]: whether it has the accessor [__proto__], as in
    browsers and Node.js, or not, as in Deno, which deletes it unless
    started with [--unstable-unsafe-proto]. *)
Class JsRuntime := {
  nfkd : str -> str;
  toLowerCase : str -> str;
  legacy_proto : bool;
  nfkd_latin1 :
    forall s, forallb is_latin1 s = true ->
      nfkd s = List.concat (List.map latin1_decomposition s);
  toLowerCase_ascii :
    forall s, forallb is_ascii s = true ->
      toLowerCase s = List.map ascii_lower s;
}.

(** ** The normalizer *)

Section Engine.
Context `{JS : JsRuntime}.

Definition normalizeKey (value : str) : str :=
  if nonempty value then
    let decomposed := nfkd value in
    let unmarked := List.filter (fun c => negb (is_combining_mark c)) decomposed in
    let lowered := toLowerCase unmarked in
    let spaced := replace_runs (fun c => negb (is_lower_alnum c)) false lowered in
    replace_runs is_js_space false (trim spaced)
  else [].


(** ** Alias keys *)

Definition generateMemberKeys (m : PlannerMember.t) : list str :=
  let given := or_empty (PlannerMember.givenName m) in
  let sur := or_empty (PlannerMember.surname m) in
  let company := or_empty (PlannerMember.companyName m) in
  let keys := [] in
  let keys :=
    if nonempty (PlannerMember.displayName m)
    then set_add keys (normalizeKey (PlannerMember.displayName m))
    else keys in
  let keys :=
    if truthy (PlannerMember.givenName m) && truthy (PlannerMember.surname m)
    then set_add (set_add keys (normalizeKey (spaced given sur)))
                 (normalizeKey (spaced sur given))
    else keys in
  let keys :=
    if truthy (PlannerMember.companyName m) && truthy (PlannerMember.givenName m)
       && truthy (PlannerMember.surname m)
    then set_add (set_add keys (normalizeKey (spaced given (spaced sur company))))
                 (normalizeKey (spaced sur (spaced given company)))
    else keys in
  let keys :=
    match PlannerMember.mail m with
    | Some mail => if nonempty mail then set_add keys (toLowerCase mail) else keys
    | None => keys
    end in
  let keys :=
    match PlannerMember.userPrincipalName m with
    | Some upn => if nonempty upn then set_add keys (toLowerCase upn) else keys
    | None => keys
    end in
  List.filter nonempty keys.

Record AssigneeKeys := {
  keys : list str;
  tokens : list str;
}.

(** The [first]/[last] bigram keys added for two or more tokens. *)
Definition add_bigram_keys (ks : list str) (toks : list str) : list str :=
  if (2 <=? length toks)%nat then
    let first := hd [] toks in
    let last := List.last toks [] in
    set_add (set_add ks (normalizeKey (spaced first last)))
            (normalizeKey (spaced last first))
  else ks.

Definition generateAssigneeKeys (name : str) : AssigneeKeys :=
  let lower := trim name in
  if negb (nonempty lower) then {| keys := []; tokens := [] |}
  else
    let ks := set_add [] (normalizeKey lower) in
    let noParen := trim (strip_parens lower) in
    let ks :=
      if str_eqb noParen lower then ks
      else set_add ks (normalizeKey noParen) in
    let ks :=
      if includes lower (u16 "@") then set_add ks (toLowerCase lower)
      else ks in
    let ks :=
      if includes lower [COMMA] then
        match List.map (fun part => trim (strip_parens part))
                       (split_on COMMA lower) with
        | [last; first] =>
            set_add (set_add ks (normalizeKey (spaced first last)))
                    (normalizeKey (spaced last first))
        | _ => ks
        end
      else ks in
    let sanitized := commas_to_spaces noParen in
    let toks := List.filter nonempty (split_on SPACE (normalizeKey sanitized)) in
    let ks := add_bigram_keys ks toks in
    {| keys := List.filter nonempty ks; tokens := toks |}.

(** ** The roster index *)

Record IndexEntry := {
  entry_member : PlannerMember.t;
  searchText : str;
}.

Record MemberIndex := {
  keyMap : gmap str (list PlannerMember.t);
  entries : list IndexEntry;
}.

(** One round of the inner loop: [keyMap.get(key) || []], [push], [set]. *)
Definition index_key (m : PlannerMember.t)
    (km : gmap str (list PlannerMember.t)) (key : str)
    : gmap str (list PlannerMember.t) :=
  let existing := default [] (km !! key) in
  <[key := existing ++ [m]]> km.

Definition memberSearchText (m : PlannerMember.t) : str :=
  normalizeKey
    (spaced (PlannerMember.displayName m)
      (spaced (or_empty (PlannerMember.mail m))
        (spaced (or_empty (PlannerMember.userPrincipalName m))
          (spaced (or_empty (PlannerMember.givenName m))
            (spaced (or_empty (PlannerMember.surname m))
                    (or_empty (PlannerMember.companyName m))))))).

Definition index_member (idx : MemberIndex) (m : PlannerMember.t) : MemberIndex :=
  {| keyMap := fold_left (index_key m) (generateMemberKeys m) (keyMap idx);
     entries := entries idx ++ [{| entry_member := m; searchText := memberSearchText m |}] |}.

Definition buildMemberIndex (members : list PlannerMember.t) : MemberIndex :=
  fold_left index_member members {| keyMap := ∅; entries := [] |}.

(** ** The assignee matcher *)

(** [if (!matches.find(e => e.id === member.id)) matches.push(member)]. *)
Definition push_unique (matches : list PlannerMember.t) (m : PlannerMember.t)
    : list PlannerMember.t :=
  if existsb (fun e => str_eqb (PlannerMember.id e) (PlannerMember.id m)) matches
  then matches
  else matches ++ [m].

Definition match_key (idx : MemberIndex) (matches : list PlannerMember.t)
    (key : str) : list PlannerMember.t :=
  match keyMap idx !! key with
  | Some membersForKey => fold_left push_unique membersForKey matches
  | None => matches
  end.

Definition entry_qualifies (toks : list str) (e : IndexEntry) : bool :=
  forallb (fun token => includes (searchText e) token) toks.

Definition match_entry (toks : list str) (matches : list PlannerMember.t)
    (e : IndexEntry) : list PlannerMember.t :=
  if entry_qualifies toks e then push_unique matches (entry_member e)
  else matches.

Definition findMemberMatches (name : str) (idx : MemberIndex)
    : list PlannerMember.t :=
  let ak := generateAssigneeKeys name in
  let matches := fold_left (match_key idx) (keys ak) [] in
  if (0 <? length matches)%nat then matches
  else if (length (tokens ak) =? 0)%nat then matches
  else fold_left (match_entry (tokens ak)) (entries idx) matches.

Record AssigneeResult := {
  users : list MatchedUser;
  candidates : list MatchedUser;
  needsReview : bool;
}.

Definition as_user (assigneeName : str) (m : PlannerMember.t) : MatchedUser :=
  {| member := m; originalName := assigneeName; source := u16 "planner-member" |}.

Definition evaluateAssignee (idx : MemberIndex) (assigneeName : str)
    : AssigneeResult :=
  let matches := findMemberMatches assigneeName idx in
  match matches with
  | [m] =>
      {| users := [as_user assigneeName m]; candidates := []; needsReview := false |}
  | _ :: _ :: _ =>
      {| users := [];
         candidates := List.map (as_user assigneeName) matches;
         needsReview := true |}
  | [] =>
      {| users := []; candidates := []; needsReview := true |}
  end.

(** The accumulators of the loop over [task.assignees]. *)
Record Merged := {
  matchedUsers : list MatchedUser;
  failed : list str;
  mergedCandidates : list MatchedUser;
  mergedNeedsReview : bool;
}.

Definition no_merge : Merged :=
  {| matchedUsers := []; failed := []; mergedCandidates := [];
     mergedNeedsReview := false |}.

Definition merge_assignee (idx : MemberIndex) (acc : Merged) (assigneeName : str)
    : Merged :=
  let result := evaluateAssignee idx assigneeName in
  {| matchedUsers :=
       if (0 <? length (users result))%nat
       then matchedUsers acc ++ users result else matchedUsers acc;
     failed :=
       if (0 <? length (users result))%nat
       then failed acc else failed acc ++ [assigneeName];
     mergedCandidates :=
       if (0 <? length (candidates result))%nat
       then mergedCandidates acc ++ candidates result else mergedCandidates acc;
     mergedNeedsReview :=
       if needsReview result then true else mergedNeedsReview acc |}.

Definition mergeAssignees (idx : MemberIndex) (names : list str) : Merged :=
  fold_left (merge_assignee idx) names no_merge.

(** [{ ...task }] for a parsed task. *)
Definition spread_task (t : ParsedTask) : ProcessedTask :=
  {| task := t; assigneeUsers := None; assigneeLookupFailed := None;
     assigneeLookupFailedList := None; assigneeCandidates := None;
     assigneeNeedsReview := None; bucketInfo := None;
     bucketLookupFailed := None |}.

(** Property writes on a processed task. *)
Definition set_assigneeUsers (v : list MatchedUser) (p : ProcessedTask) :=
  {| task := task p; assigneeUsers := Some v;
     assigneeLookupFailed := assigneeLookupFailed p;
     assigneeLookupFailedList := assigneeLookupFailedList p;
     assigneeCandidates := assigneeCandidates p;
     assigneeNeedsReview := assigneeNeedsReview p;
     bucketInfo := bucketInfo p; bucketLookupFailed := bucketLookupFailed p |}.

Definition set_assigneeLookupFailed (v : bool) (p : ProcessedTask) :=
  {| task := task p; assigneeUsers := assigneeUsers p;
     assigneeLookupFailed := Some v;
     assigneeLookupFailedList := assigneeLookupFailedList p;
     assigneeCandidates := assigneeCandidates p;
     assigneeNeedsReview := assigneeNeedsReview p;
     bucketInfo := bucketInfo p; bucketLookupFailed := bucketLookupFailed p |}.

Definition set_assigneeLookupFailedList (v : list str) (p : ProcessedTask) :=
  {| task := task p; assigneeUsers := assigneeUsers p;
     assigneeLookupFailed := assigneeLookupFailed p;
     assigneeLookupFailedList := Some v;
     assigneeCandidates := assigneeCandidates p;
     assigneeNeedsReview := assigneeNeedsReview p;
     bucketInfo := bucketInfo p; bucketLookupFailed := bucketLookupFailed p |}.

Definition set_assigneeCandidates (v : list MatchedUser) (p : ProcessedTask) :=
  {| task := task p; assigneeUsers := assigneeUsers p;
     assigneeLookupFailed := assigneeLookupFailed p;
     assigneeLookupFailedList := assigneeLookupFailedList p;
     assigneeCandidates := Some v;
     assigneeNeedsReview := assigneeNeedsReview p;
     bucketInfo := bucketInfo p; bucketLookupFailed := bucketLookupFailed p |}.

Definition set_assigneeNeedsReview (v : bool) (p : ProcessedTask) :=
  {| task := task p; assigneeUsers := assigneeUsers p;
     assigneeLookupFailed := assigneeLookupFailed p;
     assigneeLookupFailedList := assigneeLookupFailedList p;
     assigneeCandidates := assigneeCandidates p;
     assigneeNeedsReview := Some v;
     bucketInfo := bucketInfo p; bucketLookupFailed := bucketLookupFailed p |}.

Definition set_bucketInfo (v : BucketInfo.t) (p : ProcessedTask) :=
  {| task := task p; assigneeUsers := assigneeUsers p;
     assigneeLookupFailed := assigneeLookupFailed p;
     assigneeLookupFailedList := assigneeLookupFailedList p;
     assigneeCandidates := assigneeCandidates p;
     assigneeNeedsReview := assigneeNeedsReview p;
     bucketInfo := Some v; bucketLookupFailed := bucketLookupFailed p |}.

Definition set_bucketLookupFailed (v : bool) (p : ProcessedTask) :=
  {| task := task p; assigneeUsers := assigneeUsers p;
     assigneeLookupFailed := assigneeLookupFailed p;
     assigneeLookupFailedList := assigneeLookupFailedList p;
     assigneeCandidates := assigneeCandidates p;
     assigneeNeedsReview := assigneeNeedsReview p;
     bucketInfo := bucketInfo p; bucketLookupFailed := Some v |}.

(** [if (l.length > 0) p.field = l]. *)
Definition write_if_any {A} (set : list A -> ProcessedTask -> ProcessedTask)
    (l : list A) (p : ProcessedTask) : ProcessedTask :=
  if (0 <? length l)%nat then set l p else p.

(** The writes that the body of the loop of [lookupAssignees] performs
    on [processedTask], the copy of [t]. *)
Definition enrichAssignees (idx : MemberIndex) (t : ParsedTask)
    (processedTask : ProcessedTask) : ProcessedTask :=
  match assignees t with
  | Some ((_ :: _) as names) =>
      let m := mergeAssignees idx names in
      let p := write_if_any set_assigneeUsers (matchedUsers m) processedTask in
      let p := write_if_any set_assigneeLookupFailedList (failed m) p in
      let p := write_if_any set_assigneeCandidates (mergedCandidates m) p in
      if mergedNeedsReview m then set_assigneeNeedsReview true p else p
  | _ =>
      if truthy (assignee t) then
        let result := evaluateAssignee idx (or_empty (assignee t)) in
        if (0 <? length (users result))%nat
        then set_assigneeUsers (users result) processedTask
        else
          let p := set_assigneeLookupFailed true processedTask in
          let p := write_if_any set_assigneeCandidates (candidates result) p in
          set_assigneeNeedsReview true p
      else processedTask
  end.

Definition processAssignees (idx : MemberIndex) (t : ParsedTask) : ProcessedTask :=
  enrichAssignees idx t (spread_task t).

(** [lookupAssignees(tasks, auth, accessToken, plannerMembers)]; the
    body uses neither [auth] nor [accessToken]. *)
Definition lookupAssignees (tasks : list ParsedTask)
    (plannerMembers : list PlannerMember.t) : list ProcessedTask :=
  let memberIndex := buildMemberIndex plannerMembers in
  List.map (processAssignees memberIndex) tasks.

(** ** Reads and writes with computed keys *)

(** A read that has reached [Object.prototype]; [receiver_proto] is the
    prototype of the object the read started from, which the [__proto__]
    getter returns where there is one. *)
Definition object_prototype_get (receiver_proto : Prototype) (k : str) : JsValue :=
  if legacy_proto && str_eqb k PROTO then proto_value receiver_proto
  else if str_eqb k (u16 "constructor") then JsFunction (u16 "Object")
  else if bool_decide (k ∈ object_prototype_methods) then JsFunction k
  else JsUndefined.

(** [o[k]]. *)
Definition js_get (o : PlainObject) (k : str) : JsValue :=
  match get_own (own o) k with
  | Some v => v
  | None =>
      match proto o with
      | ProtoNull => JsUndefined
      | ProtoObjectPrototype => object_prototype_get (proto o) k
      | ProtoObject props =>
          match get_own props k with
          | Some v => v
          | None => object_prototype_get (proto o) k
          end
      end
  end.

(** Does a write with key [k] find the [__proto__] accessor? *)
Definition reaches_proto_setter (o : PlainObject) (k : str) : bool :=
  legacy_proto
  && str_eqb k PROTO
  && negb (bool_decide (is_Some (get_own (own o) k)))
  && match proto o with
     | ProtoNull => false
     | ProtoObjectPrototype => true
     | ProtoObject props => negb (bool_decide (is_Some (get_own props k)))
     end.

(** [o[k] = v] for [v] an ordinary object ([Some props]) or [null]
    ([None]), the two kinds of value that the code stores. *)
Definition js_set (o : PlainObject) (k : str) (v : option Props) : PlainObject :=
  if reaches_proto_setter o k then
    {| own := own o;
       proto := match v with Some props => ProtoObject props | None => ProtoNull end |}
  else
    {| own := set_own (own o) k (from_option JsObject JsNull v);
       proto := proto o |}.

(** ** The bucket matcher *)

(** A bucket of the snapshot as the object that the Graph response
    holds. *)
Definition bucket_object (b : Bucket.t) : Props :=
  [(u16 "id", JsString (Bucket.id b)); (u16 "name", JsString (Bucket.name b));
   (u16 "planId", JsString (Bucket.planId b))].

(** [bucketLookup], the case-insensitive lookup. *)
Definition buildBucketLookup (buckets : list Bucket.t) : PlainObject :=
  fold_left
    (fun o b => js_set o (toLowerCase (Bucket.name b)) (Some (bucket_object b)))
    buckets empty_object.

Definition uniqueBucketNames (tasks : list ProcessedTask) : list str :=
  fold_left
    (fun names t =>
       if truthy (bucketName (task t))
       then set_add names (or_empty (bucketName (task t))) else names)
    tasks [].

(** [{ ...v, exactMatch: e }]. *)
Definition with_exactMatch (v : JsValue) (e : bool) : Props :=
  set_own (spread_props v) (u16 "exactMatch") (JsBool e).

Definition contained (lowerName availableName : str) : bool :=
  includes lowerName availableName || includes availableName lowerName.

(** [Math.min(a, b) / Math.max(a, b)] for two lengths.  The quotient of
    two lengths is kept as an exact fraction: for strings of fewer than
    2^26 code units, rounding to a double keeps both its order with the
    other such quotients and its order with 0.5.  For two empty strings
    the quotient is [NaN], which is greater than nothing; so is the 0
    that stands for it here, as no best score is negative. *)
Definition length_ratio (a b : nat) : Q :=
  Qmake (Z.of_nat (Nat.min a b)) (Pos.of_nat (Nat.max a b)).

Definition Qgtb (x y : Q) : bool := negb (Qle_bool x y).

Definition fuzzy_score (bucketName availableName : str) : Q :=
  length_ratio (length bucketName) (length availableName).

(** One round of the fuzzy loop on [(bestMatch, bestScore)]. *)
Definition fuzzy_step (bucketName lowerName : str) (best : option Props * Q)
    (entry : str * JsValue) : option Props * Q :=
  let '(availableName, bucket) := entry in
  if contained lowerName availableName then
    let score := fuzzy_score bucketName availableName in
    if Qgtb score (snd best) && Qgtb score (1 # 2)
    then (Some (with_exactMatch bucket false), score)
    else best
  else best.

Definition fuzzyMatch (bucketLookup : PlainObject) (bucketName : str)
    : option Props * Q :=
  fold_left (fuzzy_step bucketName (toLowerCase bucketName))
            (object_entries bucketLookup) (None, 0%Q).

(** The value stored under [bucketName] in [bucketMapping]: an object,
    or [None] for [null]. *)
Definition resolveBucket (bucketLookup : PlainObject) (bucketName : str)
    : option Props :=
  let lowerName := toLowerCase bucketName in
  let found := js_get bucketLookup lowerName in
  if js_truthy found then Some (with_exactMatch found true)
  else fst (fuzzyMatch bucketLookup bucketName).

Definition buildBucketMapping (bucketLookup : PlainObject) (names : list str)
    : PlainObject :=
  fold_left
    (fun mapping bucketName =>
       js_set mapping bucketName (resolveBucket bucketLookup bucketName))
    names empty_object.

(** The writes of the last loop of [lookupBuckets] on [enrichedTask],
    the copy of [t]. *)
Definition enrichBucket (bucketMapping : PlainObject) (t enrichedTask : ProcessedTask)
    : ProcessedTask :=
  if truthy (bucketName (task t)) then
    let label := or_empty (bucketName (task t)) in
    let matchedBucket := js_get bucketMapping label in
    if js_truthy matchedBucket then
      set_bucketInfo
        {| BucketInfo.id := js_field matchedBucket FId;
           BucketInfo.name := js_field matchedBucket FName;
           BucketInfo.originalName := label;
           BucketInfo.exactMatch := js_field matchedBucket FExactMatch |}
        enrichedTask
    else set_bucketLookupFailed true enrichedTask
  else enrichedTask.

(** [lookupBuckets(tasks, auth, accessToken, planId)], with the snapshot
    that [auth.getPlannerBuckets(accessToken, planId)] returns as
    [buckets]. *)
Definition lookupBuckets (tasks : list ProcessedTask) (buckets : list Bucket.t)
    : list ProcessedTask :=
  let bucketLookup := buildBucketLookup buckets in
  let bucketMapping := buildBucketMapping bucketLookup (uniqueBucketNames tasks) in
  List.map (fun t => enrichBucket bucketMapping t t) tasks.

(** ** The two operations on objects in a store *)

Definition lookupAssignees_in_store (tasks : list Ref) (plannerMembers : list Ref)
    : M (list Ref) :=
  do members <- for_each read_member plannerMembers ;
  let memberIndex := buildMemberIndex members in
  for_each
    (fun taskRef =>
       do t <- read_parsed taskRef ;
       do processedTask <- alloc (ProcessedObject (spread_task t)) ;
       do _u <- update_processed processedTask (enrichAssignees memberIndex t) ;
       ret processedTask)
    tasks.

Definition lookupBuckets_in_store (tasks : list Ref) (buckets : list Ref)
    : M (list Ref) :=
  do snapshot <- for_each read_bucket buckets ;
  let bucketLookup := buildBucketLookup snapshot in
  do read <- for_each read_processed tasks ;
  let bucketMapping := buildBucketMapping bucketLookup (uniqueBucketNames read) in
  for_each
    (fun taskRef =>
       do t <- read_processed taskRef ;
       do enrichedTask <- alloc (ProcessedObject t) ;
       do _u <- update_processed enrichedTask (enrichBucket bucketMapping t) ;
       ret enrichedTask)
    tasks.

End Engine.


(** Runtimes that decompose Latin-1 text as the table says, lower-case
    the letters of Basic Latin and leave every other code unit as it is,
    with or without the [__proto__] accessor. *)
Definition latin1_runtime (legacy : bool) : JsRuntime :=
  {| nfkd := fun s => List.concat (List.map latin1_decomposition s);
     toLowerCase := List.map ascii_lower;
     legacy_proto := legacy;
     nfkd_latin1 := fun s _ => eq_refl;
     toLowerCase_ascii := fun s _ => eq_refl |}.

(** The one without the accessor, as the application runs on Deno. *)
Definition deno_runtime : JsRuntime := latin1_runtime false.

(** ** Reading a file ([file-parser.ts], first half)

    The functions that turn the text of an uploaded file into tasks, and
    the counts shown before the lookups run. *)

Definition QUOTE : N := 34%N.
Definition SEMICOLON : N := 59%N.
Definition UNDERSCORE : N := 95%N.
Definition LINE_FEED : N := 10%N.

(** [parseCSVLine]: the loop over the characters of the line, with the
    fields read so far, the text of the current field and the quote
    state.  An escaped quote takes two characters. *)
Fixpoint parseCSVLine_from (line : str) (result : list str) (current : str)
    (inQuotes : bool) : list str :=
  match line with
  | [] => result ++ [trim current]
  | char :: rest =>
      if (char =? QUOTE)%N then
        match rest with
        | nextChar :: rest' =>
            if inQuotes && (nextChar =? QUOTE)%N
            then parseCSVLine_from rest' result (current ++ [QUOTE]) inQuotes
            else parseCSVLine_from rest result current (negb inQuotes)
        | [] => parseCSVLine_from rest result current (negb inQuotes)
        end
      else if (char =? COMMA)%N && negb inQuotes
      then parseCSVLine_from rest (result ++ [trim current]) [] inQuotes
      else parseCSVLine_from rest result (current ++ [char]) inQuotes
  end.

Definition parseCSVLine (line : str) : list str :=
  parseCSVLine_from line [] [] false.

(** [s.split(/[C]/)] for a character class [C] given as a predicate. *)
Fixpoint split_where (p : N -> bool) (s : str) : list str :=
  match s with
  | [] => [[]]
  | c :: r =>
      if p c then [] :: split_where p r
      else match split_where p r with
           | q :: qs => (c :: q) :: qs
           | [] => [[c]]
           end
  end.

(** The class [[;,]]. *)
Definition is_name_separator (c : N) : bool :=
  ((c =? SEMICOLON) || (c =? COMMA))%N.

(** [s.replace(/[C]+/g, t)] for a one-character replacement [t]. *)
Fixpoint replace_runs_by (p : N -> bool) (t : N) (in_run : bool) (s : str) : str :=
  match s with
  | [] => []
  | c :: r =>
      if p c
      then (if in_run then replace_runs_by p t true r
            else t :: replace_runs_by p t true r)
      else c :: replace_runs_by p t false r
  end.

(** What the file parser takes from outside the language core: whether
    [parse] of [@std/csv] returns on a text or throws, the value of
    [new Date(s).toISOString()] for a text that [Date] understands, and
    the text that a built-in function converts to. *)
Class JsLibraries := {
  std_csv_parses : str -> bool;
  date_iso : str -> option str;
  function_source : str -> str;
}.

Module ColumnMapping.
Record t := {
  title : str;
  description : option str;
  startDate : option str;
  dueDate : option str;
  assignee : option str;
  bucketName : option str;
  status : option str;
}.
End ColumnMapping.

Record Validation := {
  valid : bool;
  errors : list str;
}.

(** The values of a statistics object: counts, and the strings that [+]
    makes of anything else. *)
Inductive StatValue :=
| StatCount (n : N)
| StatText (s : str).

(** The result of [mapStatusToPercentage]: a percentage, or what the
    table inherits under the key. *)
Inductive StatusValue :=
| Percent (n : N)
| Inherited (v : JsValue).

Section Importer.
Context `{JS : JsRuntime} `{LIB : JsLibraries}.

(** [record[k] = s] for a string [s]: the [__proto__] accessor ignores a
    value that is neither an object nor [null]. *)
Definition js_set_string (o : PlainObject) (k s : str) : PlainObject :=
  if reaches_proto_setter o k then o
  else {| own := set_own (own o) k (JsString s); proto := proto o |}.

(** The record of one line: the loop over
    [j < Math.min(headers.length, values.length)]. *)
Definition make_record (headers values : list str) : PlainObject :=
  fold_left (fun record hv => js_set_string record (fst hv) (snd hv))
    (combine headers values) empty_object.

(** The loop over [lines[1]], [lines[2]], ... *)
Definition parse_rows (headers : list str) (lines : list str) : list PlainObject :=
  omap (fun l =>
          let line := trim l in
          if nonempty line then Some (make_record headers (parseCSVLine line))
          else None)
       lines.

(** [parseCSV]: [None] where [parse] throws; its result is not used. *)
Definition parseCSV (content : str) : option (list PlainObject) :=
  if std_csv_parses content then
    let lines := split_on LINE_FEED content in
    let headers := parseCSVLine (hd [] lines) in
    Some (parse_rows headers (tl lines))
  else None.

Definition parseExcel (content : str) : option (list PlainObject) :=
  parseCSV content.

(** [Object.keys] lists the keys in the order of [Object.entries]. *)
Definition getAvailableColumns (data : list PlainObject) : list str :=
  match data with
  | [] => []
  | first :: _ => List.map fst (object_entries first)
  end.

Definition normalizeDate (dateStr : str) : option str :=
  if negb (nonempty dateStr) || negb (nonempty (trim dateStr)) then None
  else date_iso (trim dateStr).

(** The object literal of [mapStatusToPercentage]. *)
Definition statusMapping : list (str * N) :=
  [(u16 "not_started", 0%N); (u16 "not started", 0%N);
   (u16 "in_progress", 50%N); (u16 "in progress", 50%N);
   (u16 "completed", 100%N); (u16 "complete", 100%N); (u16 "done", 100%N)].

Fixpoint table_get (table : list (str * N)) (k : str) : option N :=
  match table with
  | [] => None
  | (k', n) :: rest => if str_eqb k' k then Some n else table_get rest k
  end.

Definition status_key (status : str) : str :=
  replace_runs_by is_js_space UNDERSCORE false (toLowerCase status).

(** [statusMapping[statusLower] ?? 0]: the read goes on to
    [Object.prototype] for a key that the literal does not have, and [??]
    replaces [undefined] and [null] only. *)
Definition mapStatusToPercentage (status : str) : StatusValue :=
  if negb (nonempty status) then Percent 0
  else
    let statusLower := status_key status in
    match table_get statusMapping statusLower with
    | Some n => Percent n
    | None =>
        match object_prototype_get ProtoObjectPrototype statusLower with
        | JsUndefined | JsNull => Percent 0
        | v => Inherited v
        end
    end.

(** [row[column]?.trim()]: the trimmed text of a cell, [Some None] for a
    cell that is [undefined] or [null].  [None] is the [TypeError] of
    calling [trim] on a value that has none. *)
Definition title_cell (row : PlainObject) (column : str) : option (option str) :=
  match js_get row column with
  | JsString s => Some (Some (trim s))
  | JsUndefined | JsNull => Some None
  | _ => None
  end.

(** The cell of an optional column where [column && row[column]] holds,
    [Some None] where it does not.  Each use then calls [trim] on the
    cell: [None] is the [TypeError] for a truthy cell that is no
    string. *)
Definition mapped_cell (row : PlainObject) (column : option str)
    : option (option str) :=
  if truthy column then
    let cell := js_get row (or_empty column) in
    if js_truthy cell then
      match cell with
      | JsString s => Some (Some s)
      | _ => None
      end
    else Some None
  else Some None.

(** [assigneeText.split(/[;,]/).map(a => a.trim()).filter(a => a)]. *)
Definition split_assignees (assigneeText : str) : list str :=
  List.filter nonempty (List.map trim (split_where is_name_separator assigneeText)).

(** The task of a row that has a title. *)
Definition task_of_row (row : PlainObject) (columnMapping : ColumnMapping.t)
    (title_text : str) : option ParsedTask :=
  d ← mapped_cell row (ColumnMapping.description columnMapping);
  sd ← mapped_cell row (ColumnMapping.startDate columnMapping);
  dd ← mapped_cell row (ColumnMapping.dueDate columnMapping);
  a ← mapped_cell row (ColumnMapping.assignee columnMapping);
  b ← mapped_cell row (ColumnMapping.bucketName columnMapping);
  s ← mapped_cell row (ColumnMapping.status columnMapping);
  let assigneeText := trim <$> a in
  Some {| title := title_text;
          description := trim <$> d;
          startDate := sd ≫= normalizeDate;
          dueDate := dd ≫= normalizeDate;
          assignee := if truthy assigneeText then assigneeText else None;
          assignees :=
            if truthy assigneeText then split_assignees <$> assigneeText
            else None;
          bucketName := trim <$> b;
          status := trim <$> s |}.

(** The body of the loop of [processData]: the task of a row,
    [Some None] for a row that is skipped. *)
Definition process_row (row : PlainObject) (columnMapping : ColumnMapping.t)
    : option (option ParsedTask) :=
  t ← title_cell row (ColumnMapping.title columnMapping);
  match t with
  | Some title_text =>
      if nonempty title_text then Some <$> task_of_row row columnMapping title_text
      else Some None
  | None => Some None
  end.

(** [processData]; [None] where a row throws. *)
Fixpoint processData (data : list PlainObject) (columnMapping : ColumnMapping.t)
    : option (list ParsedTask) :=
  match data with
  | [] => Some []
  | row :: rest =>
      t ← process_row row columnMapping;
      tasks ← processData rest columnMapping;
      Some (option_list t ++ tasks)
  end.

(** The loop of [validateTasks] from position [i]. *)
Fixpoint validation_errors (i : nat) (tasks : list ParsedTask) : list str :=
  match tasks with
  | [] => []
  | t :: rest =>
      (if nonempty (trim (title t)) then []
       else [u16 "Row " ++ decimal (N.of_nat (i + 1)) ++ u16 ": Missing title"])
      ++ validation_errors (S i) rest
  end.

Definition validateTasks (tasks : list ParsedTask) : Validation :=
  let errors := validation_errors 0 tasks in
  {| valid := Nat.eqb (length errors) 0; errors := errors |}.

(** A statistics object: own properties in creation order, under
    [Object.prototype]. *)
Fixpoint stat_own (stats : list (str * StatValue)) (k : str) : option StatValue :=
  match stats with
  | [] => None
  | (k', v) :: rest => if str_eqb k' k then Some v else stat_own rest k
  end.

Fixpoint stat_set_own (stats : list (str * StatValue)) (k : str) (v : StatValue)
    : list (str * StatValue) :=
  match stats with
  | [] => [(k, v)]
  | (k', v') :: rest =>
      if str_eqb k' k then (k', v) :: rest else (k', v') :: stat_set_own rest k v
  end.

(** [stats[k] = v] for a number or a string [v]. *)
Definition stat_set (stats : list (str * StatValue)) (k : str) (v : StatValue)
    : list (str * StatValue) :=
  if legacy_proto && str_eqb k PROTO && negb (bool_decide (is_Some (stat_own stats k)))
  then stats
  else stat_set_own stats k v.

(** [(stats[k] || 0) + 1]: one more than a count; for a string, a
    function or an object, [+] concatenates its text and ["1"]. *)
Definition stat_next (stats : list (str * StatValue)) (k : str) : StatValue :=
  match stat_own stats k with
  | Some (StatCount n) => StatCount (n + 1)
  | Some (StatText s) => if nonempty s then StatText (s ++ u16 "1") else StatCount 1
  | None =>
      match object_prototype_get ProtoObjectPrototype k with
      | JsFunction f => StatText (function_source f ++ u16 "1")
      | JsObjectPrototype => StatText (u16 "[object Object]1")
      | _ => StatCount 1
      end
  end.

(** One round of the loop of a statistics function, over the property
    [property] of the tasks. *)
Definition count_step (property : ParsedTask -> option str)
    (stats : list (str * StatValue)) (t : ParsedTask) : list (str * StatValue) :=
  if truthy (property t)
  then stat_set stats (or_empty (property t)) (stat_next stats (or_empty (property t)))
  else stats.

(** The two statistics functions are the same loop over another
    property, with another label for the tasks that lack it. *)
Definition count_by (property : ParsedTask -> option str) (label : str)
    (tasks : list ParsedTask) : list (str * StatValue) :=
  let stats := fold_left (count_step property) tasks [] in
  let missing := length (List.filter (fun t => negb (truthy (property t))) tasks) in
  if Nat.ltb 0 missing then stat_set stats label (StatCount (N.of_nat missing))
  else stats.

Definition getAssigneeStatistics (tasks : list ParsedTask) : list (str * StatValue) :=
  count_by assignee (u16 "[Unassigned]") tasks.

Definition getBucketStatistics (tasks : list ParsedTask) : list (str * StatValue) :=
  count_by bucketName (u16 "[No Bucket]") tasks.

(** ** Creating the tasks ([server.ts])

    What the creation loop takes from a processed task. *)

(** [task.bucketInfo ? task.bucketInfo.id : bucketId]. *)
Definition taskBucketId (p : ProcessedTask) (bucketId : JsValue) : JsValue :=
  match bucketInfo p with
  | Some info => BucketInfo.id info
  | None => bucketId
  end.

End Importer.

(** Libraries that accept every text as CSV, understand no date, and
    print a built-in function as V8 does. *)
Definition sample_libraries : JsLibraries :=
  {| std_csv_parses := fun _ => true;
     date_iso := fun _ => None;
     function_source := fun f => u16 "function " ++ f ++ u16 "() { [native code] }" |}.

(** ** Sample rosters, tasks and buckets *)

Definition member_named (i n : str) : PlannerMember.t :=
  {| PlannerMember.id := i; PlannerMember.displayName := n;
     PlannerMember.mail := None; PlannerMember.userPrincipalName := None;
     PlannerMember.givenName := None; PlannerMember.surname := None;
     PlannerMember.companyName := None |}.

Definition ann : PlannerMember.t := member_named (u16 "1") (u16 "Ann Lee").
Definition ann_too : PlannerMember.t := member_named (u16 "2") (u16 "Ann Lee").
Definition lee_ann : PlannerMember.t := member_named (u16 "3") (u16 "Lee Ann").

Definition task_with (a : option str) (l : option (list str)) (b : option str)
    : ParsedTask :=
  {| title := u16 "Review design"; description := None; startDate := None;
     dueDate := None; assignee := a; assignees := l; bucketName := b;
     status := None |}.

Definition bucket_named (i n : str) : Bucket.t :=
  {| Bucket.id := i; Bucket.name := n; Bucket.planId := u16 "plan" |}.

(** ** The tagged outcomes of the specification *)

(** What a result of [evaluateAssignee] stands for: [Resolved] when it
    carries users, [Ambiguous] when it carries candidates only,
    [Unresolved] otherwise. *)
Inductive MatchOutcome :=
| Resolved (members : list MatchedUser)
| Ambiguous (among : list MatchedUser)
| Unresolved.

Definition outcome (r : AssigneeResult) : MatchOutcome :=
  match users r, candidates r with
  | _ :: _, _ => Resolved (users r)
  | [], _ :: _ => Ambiguous (candidates r)
  | [], [] => Unresolved
  end.

Definition is_resolved (o : MatchOutcome) : bool :=
  match o with Resolved _ => true | _ => false end.

Definition is_unresolved (o : MatchOutcome) : bool :=
  match o with Unresolved => true | _ => false end.

Definition unresolved_result : AssigneeResult :=
  {| users := []; candidates := []; needsReview := true |}.

Definition entry_of `{JS : JsRuntime} (m : PlannerMember.t) : IndexEntry :=
  {| entry_member := m; searchText := memberSearchText m |}.

(** Does the member carry the alias key? *)
Definition has_key `{JS : JsRuntime} (k : str) (m : PlannerMember.t) : bool :=
  bool_decide (k ∈ generateMemberKeys m).

(** First occurrence of each member id, in order. *)
Definition dedup_by_id (ms : list PlannerMember.t) : list PlannerMember.t :=
  fold_left push_unique ms [].

Definition member_ids (ms : list PlannerMember.t) : list str :=
  List.map PlannerMember.id ms.

(** [l] when it has elements: what a property holds after
    [if (l.length > 0) p.field = l] on a fresh copy. *)
Definition some_if_any {A} (l : list A) : option (list A) :=
  if (0 <? length l)%nat then Some l else None.

(** The members of the entries whose search text contains every token. *)
Definition qualifiers (idx : MemberIndex) (toks : list str) : list PlannerMember.t :=
  List.map entry_member (List.filter (entry_qualifies toks) (entries idx)).

(** Is [k] the key of the [__proto__] accessor? *)
Definition proto_key `{JS : JsRuntime} (k : str) : bool :=
  legacy_proto && str_eqb k PROTO.

(** The last bucket of the snapshot whose lower-cased name is [k]. *)
Definition last_named `{JS : JsRuntime} (k : str) (buckets : list Bucket.t)
    : option Bucket.t :=
  List.find (fun b => str_eqb (toLowerCase (Bucket.name b)) k) (rev buckets).

(** The tagged outcome that the value stored for a label stands for. *)
Inductive BucketOutcome :=
| ExactMatch (bucket : Props)
| FuzzyMatch (bucket : Props) (score : Q)
| NoMatch.

Definition bucketOutcome `{JS : JsRuntime} (bucketLookup : PlainObject) (bucketName : str)
    : BucketOutcome :=
  let found := js_get bucketLookup (toLowerCase bucketName) in
  if js_truthy found then ExactMatch (with_exactMatch found true)
  else match fuzzyMatch bucketLookup bucketName with
       | (Some m, score) => FuzzyMatch m score
       | (None, _) => NoMatch
       end.

(** The properties of a processed task that [lookupBuckets] does not
    write. *)
Definition same_but_bucket_fields (p t : ProcessedTask) : Prop :=
  task p = task t
  /\ assigneeUsers p = assigneeUsers t
  /\ assigneeLookupFailed p = assigneeLookupFailed t
  /\ assigneeLookupFailedList p = assigneeLookupFailedList t
  /\ assigneeCandidates p = assigneeCandidates t
  /\ assigneeNeedsReview p = assigneeNeedsReview t.

(** References to objects of one kind, with the objects they denote. *)
Definition denotes {A} (inj : A -> StoreObject) (st : Store)
    (refs : list Ref) (objects : list A) : Prop :=
  Forall2 (fun r x => st !! r = Some (inj x)) refs objects.

(** ** Writing a line of CSV

    The quoting that [parseCSVLine] reads back: a field between double
    quotes, each double quote of the field doubled. *)

Definition csv_escape (field : str) : str :=
  flat_map (fun c => if (c =? QUOTE)%N then [QUOTE; QUOTE] else [c]) field.

Definition csv_quote (field : str) : str :=
  QUOTE :: csv_escape field ++ [QUOTE].

Fixpoint csv_line (fields : list str) : str :=
  match fields with
  | [] => []
  | [field] => csv_quote field
  | field :: rest => csv_quote field ++ COMMA :: csv_line rest
  end.

(** A string that [trim] leaves as it is. *)
Definition trimmed (s : str) : Prop := trim s = s.

(** The cell of the last column headed [h] among the cells written into
    a record. *)
Fixpoint last_cell (cells : list (str * str)) (h : str) : option str :=
  match cells with
  | [] => None
  | (k, v) :: rest =>
      match last_cell rest h with
      | Some v' => Some v'
      | None => if str_eqb k h then Some v else None
      end
  end.

(** What the loop of [parseCSV] keeps true of a record: its prototype is
    [Object.prototype], and where this has the [__proto__] accessor the
    record has no own property of that name. *)
Definition record_inv `{JS : JsRuntime} (o : PlainObject) : Prop :=
  proto o = ProtoObjectPrototype
  /\ (legacy_proto = true -> get_own (own o) PROTO = None).

(** What [processData] makes of the assignee cell. *)
Definition assignee_fields_ok (t : ParsedTask) : Prop :=
  match assignee t with
  | Some text =>
      nonempty text = true /\ trimmed text
      /\ assignees t = Some (split_assignees text)
  | None => assignees t = None
  end.

(** The number of tasks whose property [property] is the text [a]. *)
Definition tasks_with (property : ParsedTask -> option str) (a : str)
    (tasks : list ParsedTask) : nat :=
  length (List.filter (fun t => bool_decide (property t = Some a)) tasks).

(** The number of tasks whose property [property] is absent or empty. *)
Definition tasks_without (property : ParsedTask -> option str)
    (tasks : list ParsedTask) : nat :=
  length (List.filter (fun t => negb (truthy (property t))) tasks).

(** A count as a statistics object holds it: no property for zero. *)
Definition count_value (n : nat) : option StatValue :=
  match n with
  | O => None
  | S _ => Some (StatCount (N.of_nat n))
  end.

(** What a statistics object holds after [n] tasks under the name of a
    function of [Object.prototype] whose text is [source]. *)
Definition text_value (source : str) (n : nat) : option StatValue :=
  match n with
  | O => None
  | S _ => Some (StatText (source ++ repeat 49%N n))
  end.

(** ** A sample file *)

(** Two lines: the headers [Title], [Owner] and [Status], and one task
    whose owner is written between double quotes, family name first. *)
Definition sample_csv : str :=
  u16 "Title,Owner,Status" ++ [LINE_FEED]
  ++ u16 "Plan," ++ [QUOTE] ++ u16 "Lee, Ann" ++ [QUOTE] ++ u16 ",In  Progress".

Definition sample_mapping : ColumnMapping.t :=
  {| ColumnMapping.title := u16 "Title";
     ColumnMapping.description := None;
     ColumnMapping.startDate := None;
     ColumnMapping.dueDate := None;
     ColumnMapping.assignee := Some (u16 "Owner");
     ColumnMapping.bucketName := None;
     ColumnMapping.status := Some (u16 "Status") |}.

Definition sample_rows : list PlainObject :=
  [{| own := [(u16 "Title", JsString (u16 "Plan"));
              (u16 "Owner", JsString (u16 "Lee, Ann"));
              (u16 "Status", JsString (u16 "In  Progress"))];
      proto := ProtoObjectPrototype |}].

Definition sample_tasks : list ParsedTask :=
  [{| title := u16 "Plan"; description := None; startDate := None;
      dueDate := None; assignee := Some (u16 "Lee, Ann");
      assignees := Some [u16 "Lee"; u16 "Ann"]; bucketName := None;
      status := Some (u16 "In  Progress") |}].

(** A member with a mail address. *)
Definition ann_with_mail : PlannerMember.t :=
  {| PlannerMember.id := u16 "7"; PlannerMember.displayName := u16 "Ann Lee";
     PlannerMember.mail := Some (u16 "Ann.Lee@Example.com");
     PlannerMember.userPrincipalName := None; PlannerMember.givenName := None;
     PlannerMember.surname := None; PlannerMember.companyName := None |}.

(** ** Line ends *)

Definition CARRIAGE_RETURN : N := 13%N.

(** The text with every line feed preceded by a carriage return, as a
    file written on Windows has it. *)
Definition crlf (content : str) : str :=
  flat_map (fun c => if (c =? LINE_FEED)%N then [CARRIAGE_RETURN; LINE_FEED] else [c])
           content.

(** The lines of such a text, from the lines of the text without the
    carriage returns: each line but the last ends with one. *)
Fixpoint with_cr (lines : list str) : list str :=
  match lines with
  | [] => []
  | [line] => [line]
  | line :: rest => (line ++ [CARRIAGE_RETURN]) :: with_cr rest
  end.

(** ** A letter whose lower case is longer

    [toLowerCase] follows the case mappings of Unicode, and these map
    U+0130, the capital I with a dot above of Turkish, to the two code
    units U+0069 U+0307.  This runtime does so, and is [latin1_runtime]
    otherwise; on a text of Basic Latin both branches of its
    [toLowerCase] agree. *)
Definition special_lower (c : N) : str :=
  if (c =? 0x130)%N then [0x69%N; 0x307%N] else [ascii_lower c].

Definition special_casing_runtime : JsRuntime :=
  {| nfkd := fun s => List.concat (List.map latin1_decomposition s);
     toLowerCase := fun s =>
       if forallb is_ascii s then List.map ascii_lower s
       else flat_map special_lower s;
     legacy_proto := false;
     nfkd_latin1 := fun s _ => eq_refl;
     toLowerCase_ascii := fun s H =>
       @eq_ind_r bool true
         (fun b : bool =>
            (if b then List.map ascii_lower s else flat_map special_lower s)
            = List.map ascii_lower s)
         eq_refl (forallb is_ascii s) H |}.

(** The bucket name [IK] and the label [IK 24], both written with
    U+0130. *)
Definition dotted_name : str := [0x130%N] ++ u16 "K".
Definition dotted_label : str := [0x130%N] ++ u16 "K 24".

(** ** Normal forms of the normalizer *)

(** Lower-case letters, digits and single spaces; [prev_space] tells that
    a space may not come next. *)
Fixpoint loose_from (prev_space : bool) (s : str) : bool :=
  match s with
  | [] => true
  | c :: r =>
      if (c =? SPACE)%N then negb prev_space && loose_from true r
      else is_lower_alnum c && loose_from false r
  end.

(** The same, and the text does not end with a space. *)
Fixpoint canonical_from (prev_space : bool) (s : str) : bool :=
  match s with
  | [] => negb prev_space
  | c :: r =>
      if (c =? SPACE)%N then negb prev_space && canonical_from true r
      else is_lower_alnum c && canonical_from false r
  end.

(** A normalized key: empty, or words of [[a-z0-9]] separated by single
    spaces. *)
Definition canonical (s : str) : Prop :=
  s = [] \/ canonical_from true s = true.

Definition ascii_text (s : str) : Prop := forallb is_ascii s = true.

(** The state of the fuzzy loop after the entries [seen]. *)
Definition fuzzy_inv (bucketName lowerName : str) (seen : Props)
    (best : option Props * Q) : Prop :=
  match fst best with
  | None =>
      snd best = 0%Q
      /\ forall a v, In (a, v) seen -> contained lowerName a = true ->
           (fuzzy_score bucketName a <= 1 # 2)%Q
  | Some p =>
      (1 # 2 < snd best)%Q
      /\ (exists a v, In (a, v) seen /\ contained lowerName a = true
                      /\ p = with_exactMatch v false
                      /\ snd best = fuzzy_score bucketName a)
      /\ forall a v, In (a, v) seen -> contained lowerName a = true ->
           (fuzzy_score bucketName a <= snd best)%Q
  end.

(** The accented sample of the specification: [Jos], U+00E9, three
    spaces, [P], U+00E9, [rez]. *)
Definition jose_perez : str :=
  u16 "Jos" ++ [233%N] ++ u16 "   P" ++ [233%N] ++ u16 "rez".

Definition ann_index : MemberIndex := buildMemberIndex (JS := deno_runtime) [ann].

(** A task that carries the [bucketInfo] of an earlier run. *)
Definition stale_task : ProcessedTask :=
  set_bucketInfo
    {| BucketInfo.id := JsString (u16 "old");
       BucketInfo.name := JsString (u16 "Planning");
       BucketInfo.originalName := u16 "Planning";
       BucketInfo.exactMatch := JsBool true |}
    (spread_task (task_with None None (Some (u16 "Planning")))).

(** ** Properties of the string functions *)

Lemma alnum_not_space c : is_lower_alnum c = true -> (c =? SPACE)%N = false.
Proof.
  unfold is_lower_alnum, SPACE. intros H.
  destruct (N.eqb_spec c 32) as [->|]; [discriminate H | reflexivity].
Qed.

Lemma alnum_not_js_space c : is_lower_alnum c = true -> is_js_space c = false.
Proof.
  unfold is_lower_alnum, is_js_space. intros H.
  apply orb_true_iff in H as [H|H]; apply andb_true_iff in H as [H1 H2];
    apply N.leb_le in H1, H2;
    repeat match goal with
    | |- context [(?a =? ?b)%N] => destruct (N.eqb_spec a b); [lia|]
    | |- context [(?a <=? ?b)%N] => destruct (N.leb_spec a b); try lia
    end; reflexivity.
Qed.

Lemma alnum_ascii c : is_lower_alnum c = true -> is_ascii c = true.
Proof.
  unfold is_lower_alnum, is_ascii. intros H. apply N.ltb_lt.
  apply orb_true_iff in H as [H|H]; apply andb_true_iff in H as [H1 H2];
    apply N.leb_le in H1, H2; lia.
Qed.

Lemma alnum_lower_fixed c : is_lower_alnum c = true -> ascii_lower c = c.
Proof.
  unfold is_lower_alnum, ascii_lower. intros H.
  destruct (N.leb_spec 65 c) as [Hlo|Hlo], (N.leb_spec c 90) as [Hhi|Hhi];
    simpl; try reflexivity.
  apply orb_true_iff in H as [H|H]; apply andb_true_iff in H as [Ha Hb];
    apply N.leb_le in Ha, Hb; lia.
Qed.

Lemma replace_runs_loose p s :
  (forall c, p c = false -> is_lower_alnum c = true) ->
  forall b, loose_from b (replace_runs p b s) = true.
Proof.
  intros Hp. induction s as [|c r IH]; intros b; simpl; [reflexivity|].
  destruct (p c) eqn:Hc.
  - destruct b; simpl; [apply IH | rewrite IH; reflexivity].
  - simpl. rewrite (alnum_not_space c (Hp c Hc)), (Hp c Hc), IH. reflexivity.
Qed.

Lemma loose_true_trimStart s : loose_from true s = true -> trimStart s = s.
Proof.
  destruct s as [|c r]; simpl; [reflexivity|].
  destruct (c =? SPACE)%N; simpl; [discriminate|].
  intros H. apply andb_true_iff in H as [H _].
  rewrite (alnum_not_js_space c H). reflexivity.
Qed.

Lemma loose_trimStart b s :
  loose_from b s = true -> loose_from true (trimStart s) = true.
Proof.
  destruct s as [|c r]; simpl; [reflexivity|].
  destruct (N.eqb_spec c SPACE) as [->|Hne].
  - intros H. apply andb_true_iff in H as [_ H]. simpl.
    rewrite (loose_true_trimStart r H). exact H.
  - intros H. pose proof H as H'. apply andb_true_iff in H' as [Hc _].
    rewrite (alnum_not_js_space c Hc). simpl.
    apply N.eqb_neq in Hne. rewrite Hne. exact H.
Qed.

Lemma canonical_from_nonempty s : canonical_from true s = true -> s <> [].
Proof. destruct s; [discriminate | discriminate]. Qed.

Lemma trimEnd_canonical s :
  forall b, loose_from b s = true ->
    trimEnd s = [] \/ canonical_from b (trimEnd s) = true.
Proof.
  induction s as [|c r IH]; intros b; simpl; [left; reflexivity|].
  destruct (N.eqb_spec c SPACE) as [->|Hne].
  - intros H. apply andb_true_iff in H as [Hb H].
    destruct (IH true H) as [E|E].
    + rewrite E. left. reflexivity.
    + right. destruct (trimEnd r) eqn:Er; [discriminate E|].
      simpl. rewrite Hb. exact E.
  - intros H. apply andb_true_iff in H as [Hc H]. right.
    apply N.eqb_neq in Hne.
    destruct (IH false H) as [E|E].
    + rewrite E, (alnum_not_js_space c Hc). simpl. rewrite Hne, Hc. reflexivity.
    + destruct (trimEnd r) eqn:Er.
      * rewrite (alnum_not_js_space c Hc). simpl. rewrite Hne, Hc. reflexivity.
      * simpl. rewrite Hne, Hc. exact E.
Qed.

Lemma canonical_from_loose s : forall b, canonical_from b s = true -> loose_from b s = true.
Proof.
  induction s as [|c r IH]; intros b; simpl; [reflexivity|].
  destruct (c =? SPACE)%N; intros H; apply andb_true_iff in H as [H1 H2];
    rewrite H1, (IH _ H2); reflexivity.
Qed.

Lemma canonical_trimEnd s : forall b, canonical_from b s = true -> trimEnd s = s.
Proof.
  induction s as [|c r IH]; intros b; simpl; [reflexivity|].
  destruct (N.eqb_spec c SPACE) as [->|Hne].
  - intros H. apply andb_true_iff in H as [_ H].
    rewrite (IH _ H). destruct r; [discriminate H | reflexivity].
  - intros H. apply andb_true_iff in H as [Hc H].
    rewrite (IH _ H). destruct r; [|reflexivity].
    rewrite (alnum_not_js_space c Hc). reflexivity.
Qed.

Lemma canonical_replace_runs p s :
  p SPACE = true -> (forall c, is_lower_alnum c = true -> p c = false) ->
  forall b, canonical_from b s = true -> replace_runs p b s = s.
Proof.
  intros Hsp Hal. induction s as [|c r IH]; intros b; simpl; [reflexivity|].
  destruct (N.eqb_spec c SPACE) as [->|Hne].
  - intros H. apply andb_true_iff in H as [Hb H].
    rewrite Hsp. destruct b; [discriminate Hb|]. rewrite (IH _ H). reflexivity.
  - intros H. apply andb_true_iff in H as [Hc H].
    rewrite (Hal c Hc), (IH _ H). reflexivity.
Qed.

Lemma canonical_replace_runs_start p s :
  p SPACE = true -> (forall c, is_lower_alnum c = true -> p c = false) ->
  canonical_from true s = true -> replace_runs p false s = s.
Proof.
  intros H1 H2 Hc. destruct s as [|c r]; [reflexivity|].
  pose proof (canonical_replace_runs p (c :: r) H1 H2 true Hc) as E.
  simpl in Hc. destruct (N.eqb_spec c SPACE) as [->|Hne]; [discriminate Hc|].
  apply andb_true_iff in Hc as [Hal _]. simpl in *. rewrite (H2 c Hal) in *. exact E.
Qed.

Lemma canonical_from_chars s :
  forall b, canonical_from b s = true ->
    forall c, In c s -> c = SPACE \/ is_lower_alnum c = true.
Proof.
  induction s as [|a r IH]; intros b H c Hin; [destruct Hin|].
  simpl in H. destruct (N.eqb_spec a SPACE) as [->|Hne];
    apply andb_true_iff in H as [H1 H2]; destruct Hin as [<-|Hin]; eauto.
Qed.

Lemma canonical_chars s :
  canonical s -> forall c, In c s -> c = SPACE \/ is_lower_alnum c = true.
Proof.
  intros [->|H] c Hin; [destruct Hin | exact (canonical_from_chars s true H c Hin)].
Qed.

Lemma canonical_ascii s : canonical s -> ascii_text s.
Proof.
  intros H. apply forallb_forall. intros c Hin.
  destruct (canonical_chars s H c Hin) as [->|Hc]; [reflexivity | exact (alnum_ascii c Hc)].
Qed.

Lemma ascii_decomposition c : is_ascii c = true -> latin1_decomposition c = [c].
Proof.
  unfold is_ascii, latin1_decomposition. intros H. apply N.ltb_lt in H.
  repeat match goal with
  | |- context [(c =? ?b)%N] => destruct (N.eqb_spec c b); [lia|]
  | |- context [(?a <=? c)%N] => destruct (N.leb_spec a c); [lia|]
  end; reflexivity.
Qed.

Lemma ascii_nfkd_fixed s :
  ascii_text s -> List.concat (List.map latin1_decomposition s) = s.
Proof.
  unfold ascii_text. induction s as [|c r IH]; simpl; [reflexivity|].
  intros H. apply andb_true_iff in H as [Hc Hr].
  rewrite (ascii_decomposition c Hc), (IH Hr). reflexivity.
Qed.

Lemma ascii_latin1 s : ascii_text s -> forallb is_latin1 s = true.
Proof.
  unfold ascii_text. intros H. apply forallb_forall. intros c Hin.
  pose proof (proj1 (forallb_forall _ _) H c Hin) as Hc.
  unfold is_ascii in Hc. unfold is_latin1. apply N.ltb_lt in Hc. apply N.ltb_lt. lia.
Qed.

Lemma ascii_unmarked s :
  ascii_text s -> List.filter (fun c => negb (is_combining_mark c)) s = s.
Proof.
  unfold ascii_text. induction s as [|c r IH]; simpl; [reflexivity|].
  intros H. apply andb_true_iff in H as [Hc Hr].
  replace (is_combining_mark c) with false.
  - simpl. rewrite (IH Hr). reflexivity.
  - unfold is_ascii in Hc. apply N.ltb_lt in Hc. unfold is_combining_mark.
    destruct (N.leb_spec 0x300 c); [lia | reflexivity].
Qed.

Lemma canonical_lower_fixed s : canonical s -> List.map ascii_lower s = s.
Proof.
  intros H. pose proof (canonical_chars s H) as Hc. clear H.
  induction s as [|c r IH]; simpl; [reflexivity|].
  rewrite IH by (intros x Hx; apply Hc; right; exact Hx).
  destruct (Hc c (or_introl eq_refl)) as [->|Hal];
    [reflexivity | rewrite (alnum_lower_fixed c Hal); reflexivity].
Qed.

Lemma ascii_trimStart s : ascii_text s -> ascii_text (trimStart s).
Proof.
  unfold ascii_text. induction s as [|c r IH]; simpl; [reflexivity|].
  intros H. destruct (is_js_space c); [|exact H].
  apply andb_true_iff in H as [_ H]. exact (IH H).
Qed.

Lemma ascii_trimEnd s : ascii_text s -> ascii_text (trimEnd s).
Proof.
  unfold ascii_text. induction s as [|c r IH]; simpl; [reflexivity|].
  intros H. apply andb_true_iff in H as [Hc Hr]. specialize (IH Hr).
  destruct (trimEnd r).
  - destruct (is_js_space c); simpl; [reflexivity | rewrite Hc; reflexivity].
  - simpl in *. rewrite Hc. exact IH.
Qed.

Lemma ascii_trim s : ascii_text s -> ascii_text (trim s).
Proof. intros H. apply ascii_trimEnd, ascii_trimStart, H. Qed.

Lemma ascii_strip_parens_from s :
  forall k, ascii_text s -> ascii_text (strip_parens_from k s).
Proof.
  unfold ascii_text. induction s as [|c r IH]; intros k; simpl; [reflexivity|].
  intros H. apply andb_true_iff in H as [Hc Hr].
  destruct k; [|exact (IH _ Hr)].
  destruct (c =? 40)%N; [destruct (close_paren_offset r)|];
    simpl; rewrite ?Hc; simpl; auto.
Qed.

Lemma ascii_strip_parens s : ascii_text s -> ascii_text (strip_parens s).
Proof. apply ascii_strip_parens_from. Qed.

Lemma ascii_split_on sep s :
  ascii_text s -> forall part, In part (split_on sep s) -> ascii_text part.
Proof.
  unfold ascii_text. induction s as [|c r IH]; simpl.
  - intros _ part [<-|[]]. reflexivity.
  - intros H part Hin. apply andb_true_iff in H as [Hc Hr]. specialize (IH Hr).
    destruct (c =? sep)%N.
    + destruct Hin as [<-|Hin]; [reflexivity | exact (IH _ Hin)].
    + destruct (split_on sep r) as [|q qs].
      * destruct Hin as [<-|[]]. simpl. rewrite Hc. reflexivity.
      * destruct Hin as [<-|Hin].
        -- simpl. rewrite Hc. apply IH. left. reflexivity.
        -- apply IH. right. exact Hin.
Qed.

Lemma ascii_commas_to_spaces s : ascii_text s -> ascii_text (commas_to_spaces s).
Proof.
  unfold ascii_text, commas_to_spaces. induction s as [|c r IH]; simpl; [reflexivity|].
  intros H. apply andb_true_iff in H as [Hc Hr]. rewrite (IH Hr).
  destruct (c =? COMMA)%N; [reflexivity | rewrite Hc; reflexivity].
Qed.

Lemma ascii_spaced a b : ascii_text a -> ascii_text b -> ascii_text (spaced a b).
Proof.
  unfold ascii_text, spaced. intros Ha Hb. rewrite forallb_app. simpl.
  rewrite Ha, Hb. reflexivity.
Qed.

Lemma normalizeKey_canonical `{JS : JsRuntime} s : canonical (normalizeKey s).
Proof.
  unfold normalizeKey. destruct (nonempty s); [|left; reflexivity].
  set (spaced_text := replace_runs (fun c => negb (is_lower_alnum c)) false _).
  assert (Hl : loose_from false spaced_text = true).
  { apply replace_runs_loose. intros c Hc. apply negb_false_iff in Hc. exact Hc. }
  apply loose_trimStart in Hl.
  destruct (trimEnd_canonical _ _ Hl) as [E|E]; unfold trim.
  - rewrite E. left. reflexivity.
  - right.
    rewrite (canonical_replace_runs_start is_js_space _ eq_refl alnum_not_js_space E).
    exact E.
Qed.

Lemma normalizeKey_fixed `{JS : JsRuntime} s : canonical s -> normalizeKey s = s.
Proof.
  intros Hc. pose proof (canonical_ascii s Hc) as Ha.
  unfold normalizeKey. destruct (nonempty s) eqn:Hn; [|destruct s; [reflexivity|discriminate]].
  rewrite (nfkd_latin1 s (ascii_latin1 s Ha)), (ascii_nfkd_fixed s Ha), (ascii_unmarked s Ha).
  rewrite (toLowerCase_ascii s Ha), (canonical_lower_fixed s Hc).
  destruct Hc as [->|Hc]; [discriminate Hn|].
  rewrite (canonical_replace_runs_start (fun c => negb (is_lower_alnum c)) s eq_refl).
  - unfold trim. rewrite (loose_true_trimStart s (canonical_from_loose s true Hc)).
    rewrite (canonical_trimEnd s true Hc).
    exact (canonical_replace_runs_start is_js_space s eq_refl alnum_not_js_space Hc).
  - intros c H. rewrite H. reflexivity.
  - exact Hc.
Qed.

(** On Basic Latin text every runtime computes what [deno_runtime]
    does. *)
Lemma normalizeKey_ascii `{JS : JsRuntime} s :
  ascii_text s -> normalizeKey s = @normalizeKey deno_runtime s.
Proof.
  intros Ha. unfold normalizeKey. destruct (nonempty s); [|reflexivity].
  rewrite (nfkd_latin1 s (ascii_latin1 s Ha)). simpl.
  rewrite (ascii_nfkd_fixed s Ha), (ascii_unmarked s Ha).
  rewrite (toLowerCase_ascii s Ha). reflexivity.
Qed.

Lemma ascii_tokens `{JS : JsRuntime} s :
  forall t, In t (List.filter nonempty (split_on SPACE (normalizeKey s))) -> ascii_text t.
Proof.
  intros t Hin. apply filter_In in Hin as [Hin _].
  exact (ascii_split_on SPACE _ (canonical_ascii _ (normalizeKey_canonical s)) t Hin).
Qed.

Lemma add_bigram_keys_ascii `{JS : JsRuntime} ks toks :
  (forall t, In t toks -> ascii_text t) ->
  add_bigram_keys ks toks = @add_bigram_keys deno_runtime ks toks.
Proof.
  intros Ht. unfold add_bigram_keys. destruct (2 <=? length toks)%nat eqn:Hlen; [|reflexivity].
  assert (Hf : ascii_text (hd [] toks)).
  { destruct toks; [discriminate Hlen|]. apply Ht. left. reflexivity. }
  assert (Hl : ascii_text (List.last toks [])).
  { destruct toks as [|t toks]; [discriminate Hlen|].
    destruct (exists_last (l := t :: toks)) as (front & x & E); [discriminate|].
    rewrite E, last_last. apply Ht. rewrite E. apply in_or_app. right. left. reflexivity. }
  rewrite (normalizeKey_ascii (JS := JS) (spaced (hd [] toks) (List.last toks [])))
    by (apply ascii_spaced; assumption).
  rewrite (normalizeKey_ascii (JS := JS) (spaced (List.last toks []) (hd [] toks)))
    by (apply ascii_spaced; assumption).
  reflexivity.
Qed.

Lemma generateAssigneeKeys_ascii `{JS : JsRuntime} name :
  ascii_text name ->
  generateAssigneeKeys name = @generateAssigneeKeys deno_runtime name.
Proof.
  intros Ha. unfold generateAssigneeKeys.
  pose proof (ascii_trim name Ha) as Hl.
  destruct (negb (nonempty (trim name))); [reflexivity|].
  pose proof (ascii_trim _ (ascii_strip_parens _ Hl)) as Hp.
  rewrite (normalizeKey_ascii _ Hl), (normalizeKey_ascii _ Hp).
  rewrite (toLowerCase_ascii _ Hl).
  rewrite (normalizeKey_ascii _ (ascii_commas_to_spaces _ Hp)).
  rewrite add_bigram_keys_ascii by apply (ascii_tokens (JS := deno_runtime)).
  assert (Hparts : forall part,
            In part (List.map (fun part => trim (strip_parens part))
                       (split_on COMMA (trim name))) -> ascii_text part).
  { intros part Hin. apply in_map_iff in Hin as (q & <- & Hq).
    apply ascii_trim, ascii_strip_parens. exact (ascii_split_on COMMA _ Hl q Hq). }
  destruct (List.map _ (split_on COMMA (trim name))) as [|last [|first [|]]];
    try reflexivity.
  rewrite (normalizeKey_ascii (JS := JS) (spaced first last))
    by (apply ascii_spaced; apply Hparts; simpl; auto).
  rewrite (normalizeKey_ascii (JS := JS) (spaced last first))
    by (apply ascii_spaced; apply Hparts; simpl; auto).
  reflexivity.
Qed.

(** C7: the normalizer is idempotent on every string, and folding of
    diacritics and case makes the accented mixed-case sample and the
    unaccented upper-case one normalize to the same key. *)
Theorem normalizeKey_idempotent `{JS : JsRuntime} :
  (forall s, normalizeKey (normalizeKey s) = normalizeKey s)
  /\ normalizeKey jose_perez = normalizeKey (u16 "JOSE  PEREZ").
Proof.
  split.
  - intros s. apply normalizeKey_fixed, normalizeKey_canonical.
  - unfold normalizeKey. simpl nonempty. cbv iota.
    rewrite !nfkd_latin1 by reflexivity.
    rewrite !toLowerCase_ascii by reflexivity.
    vm_compute. reflexivity.
Qed.


(** ** The roster index and the matcher *)

Section MatcherProperties.
Context `{JS : JsRuntime}.

Lemma set_add_NoDup ks k : NoDup ks -> NoDup (set_add ks k).
Proof.
  intros H. unfold set_add. case_bool_decide as Hin; [exact H|].
  apply NoDup_app. split; [exact H|]. split.
  - intros x Hx Hx'. apply list_elem_of_singleton in Hx'. subst. contradiction.
  - apply NoDup_singleton.
Qed.

Lemma generateMemberKeys_NoDup m : NoDup (generateMemberKeys m).
Proof.
  unfold generateMemberKeys. apply NoDup_ListNoDup, List.NoDup_filter, NoDup_ListNoDup.
  repeat match goal with
  | |- NoDup (set_add _ _) => apply set_add_NoDup
  | |- NoDup (if ?c then _ else _) => destruct c
  | |- NoDup (match ?o with Some _ => _ | None => _ end) => destruct o
  | |- NoDup [] => apply NoDup_nil_2
  end.
Qed.

Lemma generateMemberKeys_nonempty m k : k ∈ generateMemberKeys m -> k <> [].
Proof.
  unfold generateMemberKeys. intros H. apply list_elem_of_In, filter_In in H as [_ H].
  destruct k; [discriminate H | discriminate].
Qed.

Lemma index_key_fold m ks :
  NoDup ks ->
  forall km k,
    fold_left (index_key m) ks km !! k
    = if bool_decide (k ∈ ks) then Some (default [] (km !! k) ++ [m]) else km !! k.
Proof.
  induction 1 as [|a ks Ha Hks IH]; intros km k; cbn [fold_left].
  - rewrite bool_decide_eq_false_2 by apply not_elem_of_nil. reflexivity.
  - rewrite IH. unfold index_key.
    destruct (decide (k = a)) as [->|Hne].
    + rewrite bool_decide_eq_false_2 by exact Ha.
      rewrite bool_decide_eq_true_2 by (left).
      rewrite lookup_insert_eq. reflexivity.
    + rewrite lookup_insert_ne by congruence.
      case_bool_decide as Hin.
      * rewrite bool_decide_eq_true_2 by (right; exact Hin). reflexivity.
      * rewrite bool_decide_eq_false_2; [reflexivity|].
        intros Hin'. apply elem_of_cons in Hin' as [?|?]; contradiction.
Qed.

Lemma index_member_lookup idx m k :
  keyMap (index_member idx m) !! k
  = if has_key k m then Some (default [] (keyMap idx !! k) ++ [m]) else keyMap idx !! k.
Proof. unfold index_member. simpl. apply index_key_fold, generateMemberKeys_NoDup. Qed.

Lemma keyMap_fold roster :
  forall idx k,
    keyMap (fold_left index_member roster idx) !! k
    = match List.filter (has_key k) roster with
      | [] => keyMap idx !! k
      | ms => Some (default [] (keyMap idx !! k) ++ ms)
      end.
Proof.
  induction roster as [|m roster IH]; intros idx k; simpl; [reflexivity|].
  rewrite IH, index_member_lookup.
  destruct (has_key k m); [|reflexivity].
  destruct (List.filter (has_key k) roster); simpl; [reflexivity|].
  rewrite <- app_assoc. reflexivity.
Qed.

(** The key map sends a key to the roster members that carry it, in
    roster order. *)
Lemma keyMap_lookup roster k :
  keyMap (buildMemberIndex roster) !! k
  = match List.filter (has_key k) roster with
    | [] => None
    | ms => Some ms
    end.
Proof.
  unfold buildMemberIndex. rewrite keyMap_fold. simpl.
  rewrite lookup_empty. reflexivity.
Qed.

Lemma entries_fold roster :
  forall idx,
    entries (fold_left index_member roster idx)
    = entries idx ++ List.map entry_of roster.
Proof.
  induction roster as [|m roster IH]; intros idx; simpl.
  - rewrite app_nil_r. reflexivity.
  - rewrite IH. simpl. rewrite <- app_assoc. reflexivity.
Qed.

Lemma entries_build roster :
  entries (buildMemberIndex roster) = List.map entry_of roster.
Proof. unfold buildMemberIndex. rewrite entries_fold. reflexivity. Qed.

Lemma trimStart_blank s : forallb is_js_space s = true -> trimStart s = [].
Proof.
  induction s as [|c r IH]; simpl; [reflexivity|].
  intros H. apply andb_true_iff in H as [Hc Hr]. rewrite Hc. exact (IH Hr).
Qed.

Lemma evaluateAssignee_no_match idx name :
  findMemberMatches name idx = [] -> evaluateAssignee idx name = unresolved_result.
Proof. unfold evaluateAssignee. intros ->. reflexivity. Qed.

(** C8: an empty or whitespace-only name yields no key and no token and
    is unresolved against every index; and the key map of every roster
    has no entry under the empty string. *)
Theorem blank_names_never_match :
  (forall name,
     forallb is_js_space name = true ->
     generateAssigneeKeys name = {| keys := []; tokens := [] |}
     /\ forall idx, evaluateAssignee idx name = unresolved_result
                    /\ outcome (evaluateAssignee idx name) = Unresolved)
  /\ (forall roster, keyMap (buildMemberIndex roster) !! [] = None).
Proof.
  split.
  - intros name Hblank.
    assert (E : generateAssigneeKeys name = {| keys := []; tokens := [] |}).
    { unfold generateAssigneeKeys, trim. rewrite (trimStart_blank name Hblank). reflexivity. }
    split; [exact E|]. intros idx.
    assert (R : evaluateAssignee idx name = unresolved_result).
    { apply evaluateAssignee_no_match. unfold findMemberMatches. rewrite E. reflexivity. }
    rewrite R. split; reflexivity.
  - intros roster. rewrite keyMap_lookup.
    replace (List.filter (has_key []) roster) with (@nil PlannerMember.t); [reflexivity|].
    induction roster as [|m roster IH]; simpl; [reflexivity|].
    unfold has_key at 1. rewrite bool_decide_eq_false_2; [exact IH|].
    intros Hin. exact (generateMemberKeys_nonempty m [] Hin eq_refl).
Qed.

Lemma fold_match_entry toks es :
  forall acc,
    fold_left (match_entry toks) es acc
    = fold_left push_unique
        (List.map entry_member (List.filter (entry_qualifies toks) es)) acc.
Proof.
  induction es as [|e es IH]; intros acc; simpl; [reflexivity|].
  rewrite IH. unfold match_entry at 1.
  destruct (entry_qualifies toks e); reflexivity.
Qed.

Lemma fold_match_key_miss idx ks :
  (forall k, k ∈ ks -> keyMap idx !! k = None) ->
  forall acc, fold_left (match_key idx) ks acc = acc.
Proof.
  induction ks as [|k ks IH]; intros Hmiss acc; simpl; [reflexivity|].
  unfold match_key at 2. rewrite (Hmiss k) by left.
  apply IH. intros k' Hk'. apply Hmiss. right. exact Hk'.
Qed.

Lemma push_unique_ids acc m :
  member_ids (push_unique acc m)
  = if bool_decide (PlannerMember.id m ∈ member_ids acc)
    then member_ids acc else member_ids acc ++ [PlannerMember.id m].
Proof.
  unfold push_unique, member_ids.
  destruct (existsb _ acc) eqn:E.
  - rewrite bool_decide_eq_true_2; [reflexivity|].
    apply existsb_exists in E as (e & He & Hid).
    unfold str_eqb in Hid. apply bool_decide_eq_true_1 in Hid. rewrite <- Hid.
    apply list_elem_of_In, in_map, He.
  - rewrite bool_decide_eq_false_2; [apply map_app|].
    intros Hin. apply list_elem_of_In, in_map_iff in Hin as (e & Hid & He).
    assert (existsb (fun e => str_eqb (PlannerMember.id e) (PlannerMember.id m)) acc = true);
      [|congruence].
    apply existsb_exists. exists e. split; [exact He|].
    unfold str_eqb. apply bool_decide_eq_true_2. exact Hid.
Qed.

Lemma push_unique_NoDup acc m :
  NoDup (member_ids acc) -> NoDup (member_ids (push_unique acc m)).
Proof.
  intros H. rewrite push_unique_ids. case_bool_decide as Hin; [exact H|].
  apply NoDup_app. split; [exact H|]. split; [|apply NoDup_singleton].
  intros x Hx Hx'. apply list_elem_of_singleton in Hx'. subst. contradiction.
Qed.

Lemma push_unique_keeps acc m i :
  i ∈ member_ids acc -> i ∈ member_ids (push_unique acc m).
Proof.
  intros H. rewrite push_unique_ids. case_bool_decide; [exact H|].
  apply elem_of_app. left. exact H.
Qed.

Lemma push_unique_adds acc m :
  PlannerMember.id m ∈ member_ids (push_unique acc m).
Proof.
  rewrite push_unique_ids. case_bool_decide as Hin; [exact Hin|].
  apply elem_of_app. right. left.
Qed.

Lemma push_unique_from acc m x :
  x ∈ push_unique acc m -> x ∈ acc \/ x = m.
Proof.
  unfold push_unique. destruct (existsb _ acc); [left; assumption|].
  intros H. apply elem_of_app in H as [H|H]; [left; exact H|].
  right. apply list_elem_of_singleton in H. exact H.
Qed.

Lemma fold_push_unique_NoDup ms :
  forall acc, NoDup (member_ids acc) ->
    NoDup (member_ids (fold_left push_unique ms acc)).
Proof.
  induction ms as [|m ms IH]; intros acc H; simpl; [exact H|].
  apply IH, push_unique_NoDup, H.
Qed.

Lemma fold_push_unique_keeps ms i :
  forall acc, i ∈ member_ids acc ->
    i ∈ member_ids (fold_left push_unique ms acc).
Proof.
  induction ms as [|m ms IH]; intros acc H; simpl; [exact H|].
  apply IH, push_unique_keeps, H.
Qed.

Lemma fold_push_unique_adds ms m :
  m ∈ ms ->
  forall acc, PlannerMember.id m ∈ member_ids (fold_left push_unique ms acc).
Proof.
  induction ms as [|m' ms IH]; intros Hin acc; [inversion Hin|]. simpl.
  apply elem_of_cons in Hin as [->|Hin].
  - apply fold_push_unique_keeps, push_unique_adds.
  - apply IH, Hin.
Qed.

Lemma fold_push_unique_from ms x :
  forall acc, x ∈ fold_left push_unique ms acc -> x ∈ acc \/ x ∈ ms.
Proof.
  induction ms as [|m ms IH]; intros acc H; simpl in H; [left; exact H|].
  destruct (IH _ H) as [H'|H'].
  - destruct (push_unique_from _ _ _ H') as [?| ->]; [left; assumption | right; left].
  - right. right. exact H'.
Qed.

Lemma match_key_NoDup idx acc k :
  NoDup (member_ids acc) -> NoDup (member_ids (match_key idx acc k)).
Proof.
  intros H. unfold match_key. destruct (keyMap idx !! k); [|exact H].
  apply fold_push_unique_NoDup, H.
Qed.

Lemma match_key_keeps idx acc k i :
  i ∈ member_ids acc -> i ∈ member_ids (match_key idx acc k).
Proof.
  intros H. unfold match_key. destruct (keyMap idx !! k); [|exact H].
  apply fold_push_unique_keeps, H.
Qed.

Lemma fold_match_key_NoDup idx ks :
  forall acc, NoDup (member_ids acc) ->
    NoDup (member_ids (fold_left (match_key idx) ks acc)).
Proof.
  induction ks as [|k ks IH]; intros acc H; simpl; [exact H|].
  apply IH, match_key_NoDup, H.
Qed.

Lemma fold_match_key_keeps idx ks i :
  forall acc, i ∈ member_ids acc ->
    i ∈ member_ids (fold_left (match_key idx) ks acc).
Proof.
  induction ks as [|k ks IH]; intros acc H; simpl; [exact H|].
  apply IH, match_key_keeps, H.
Qed.

Lemma fold_match_key_adds idx ks k ms m :
  k ∈ ks -> keyMap idx !! k = Some ms -> m ∈ ms ->
  forall acc, PlannerMember.id m ∈ member_ids (fold_left (match_key idx) ks acc).
Proof.
  intros Hk Hms Hm. induction ks as [|k' ks IH]; intros acc; [inversion Hk|]. simpl.
  apply elem_of_cons in Hk as [->|Hk].
  - apply fold_match_key_keeps. unfold match_key. rewrite Hms.
    apply fold_push_unique_adds, Hm.
  - apply IH, Hk.
Qed.

Lemma findMemberMatches_NoDup name idx :
  NoDup (member_ids (findMemberMatches name idx)).
Proof.
  unfold findMemberMatches.
  assert (H : NoDup (member_ids (fold_left (match_key idx)
                 (keys (generateAssigneeKeys name)) []))).
  { apply fold_match_key_NoDup. apply NoDup_nil_2. }
  destruct (0 <? _)%nat; [exact H|].
  destruct (_ =? 0)%nat; [exact H|].
  rewrite fold_match_entry. apply fold_push_unique_NoDup, H.
Qed.

(** The users and candidates of a result are the matches, each marked
    with the name looked up. *)
Lemma evaluateAssignee_members idx name :
  users (evaluateAssignee idx name) ++ candidates (evaluateAssignee idx name)
  = List.map (as_user name) (findMemberMatches name idx).
Proof.
  unfold evaluateAssignee.
  destruct (findMemberMatches name idx) as [|m [|m' ms]]; reflexivity.
Qed.

Lemma evaluateAssignee_many idx name :
  (2 <= length (findMemberMatches name idx))%nat ->
  evaluateAssignee idx name
  = {| users := [];
       candidates := List.map (as_user name) (findMemberMatches name idx);
       needsReview := true |}.
Proof.
  unfold evaluateAssignee.
  destruct (findMemberMatches name idx) as [|m [|m' ms]]; simpl; try lia. reflexivity.
Qed.

Lemma set_add_keeps ks k x : x ∈ ks -> x ∈ set_add ks k.
Proof.
  intros H. unfold set_add. case_bool_decide; [exact H|].
  apply elem_of_app. left. exact H.
Qed.

Lemma set_add_adds ks k : k ∈ set_add ks k.
Proof.
  unfold set_add. case_bool_decide as H; [exact H|].
  apply elem_of_app. right. left.
Qed.

(** A non-empty normalized display name is an alias key of the member. *)
Lemma displayName_key m :
  normalizeKey (PlannerMember.displayName m) <> [] ->
  has_key (normalizeKey (PlannerMember.displayName m)) m = true.
Proof.
  intros Hne. unfold has_key. apply bool_decide_eq_true_2.
  unfold generateMemberKeys. apply list_elem_of_In, filter_In. split.
  - apply list_elem_of_In.
    destruct (nonempty (PlannerMember.displayName m)) eqn:Hd.
    + repeat match goal with
      | |- _ ∈ (if ?c then _ else _) => destruct c
      | |- _ ∈ (match ?o with Some _ => _ | None => _ end) => destruct o
      | |- ?k ∈ set_add [] ?k => apply set_add_adds
      | |- _ ∈ set_add _ _ => apply set_add_keeps
      end.
    + destruct (PlannerMember.displayName m); [|discriminate Hd].
      contradiction Hne. reflexivity.
  - destruct (normalizeKey (PlannerMember.displayName m)); [contradiction|reflexivity].
Qed.

Lemma generateAssigneeKeys_nonempty name k :
  k ∈ keys (generateAssigneeKeys name) -> k <> [].
Proof.
  unfold generateAssigneeKeys. destruct (negb (nonempty (trim name))); simpl.
  - intros H. inversion H.
  - intros H. apply list_elem_of_In, filter_In in H as [_ H].
    destruct k; [discriminate H | discriminate].
Qed.

Lemma two_ids_two_members (ms : list PlannerMember.t) i j :
  i <> j -> i ∈ member_ids ms -> j ∈ member_ids ms -> (2 <= length ms)%nat.
Proof.
  intros Hne Hi Hj. destruct ms as [|a [|b ms]]; simpl; try lia.
  - inversion Hi.
  - apply list_elem_of_singleton in Hi, Hj. congruence.
Qed.

Lemma match_key_from roster acc k x :
  x ∈ match_key (buildMemberIndex roster) acc k -> x ∈ acc \/ x ∈ roster.
Proof.
  unfold match_key. rewrite keyMap_lookup.
  destruct (List.filter (has_key k) roster) as [|m ms] eqn:E; [left; assumption|].
  intros H. apply fold_push_unique_from in H as [H|H]; [left; exact H|].
  right. rewrite <- E in H. apply list_elem_of_In, filter_In in H as [H _].
  apply list_elem_of_In, H.
Qed.

Lemma fold_match_key_from roster ks x :
  forall acc,
    x ∈ fold_left (match_key (buildMemberIndex roster)) ks acc ->
    x ∈ acc \/ x ∈ roster.
Proof.
  induction ks as [|k ks IH]; intros acc H; simpl in H; [left; exact H|].
  destruct (IH _ H) as [H'|H']; [|right; exact H'].
  exact (match_key_from roster acc k x H').
Qed.

(** Every match is a member of the roster. *)
Lemma findMemberMatches_from_roster roster name x :
  x ∈ findMemberMatches name (buildMemberIndex roster) -> x ∈ roster.
Proof.
  unfold findMemberMatches.
  assert (Hkeys : forall y,
            y ∈ fold_left (match_key (buildMemberIndex roster))
                  (keys (generateAssigneeKeys name)) [] -> y ∈ roster).
  { intros y Hy. destruct (fold_match_key_from roster _ y [] Hy) as [H|H];
      [inversion H | exact H]. }
  destruct (0 <? _)%nat; [apply Hkeys|].
  destruct (_ =? 0)%nat; [apply Hkeys|].
  rewrite fold_match_entry. intros H.
  apply fold_push_unique_from in H as [H|H]; [exact (Hkeys x H)|].
  rewrite entries_build in H.
  apply list_elem_of_In, in_map_iff in H as (e & <- & He).
  apply filter_In in He as [He _]. apply in_map_iff in He as (m & <- & Hm).
  apply list_elem_of_In, Hm.
Qed.

Lemma unique_by_id (roster : list PlannerMember.t) x y :
  NoDup (member_ids roster) -> x ∈ roster -> y ∈ roster ->
  PlannerMember.id x = PlannerMember.id y -> x = y.
Proof.
  induction roster as [|m roster IH]; intros Hnd Hx Hy Hid; [inversion Hx|].
  simpl in Hnd. apply NoDup_cons in Hnd as [Hm Hnd].
  assert (Hids : forall z, z ∈ roster -> PlannerMember.id z ∈ member_ids roster).
  { intros z Hz. apply list_elem_of_In, in_map, list_elem_of_In, Hz. }
  apply elem_of_cons in Hx as [->|Hx]; apply elem_of_cons in Hy as [->|Hy].
  - reflexivity.
  - contradiction Hm. rewrite Hid. apply Hids, Hy.
  - contradiction Hm. rewrite <- Hid. apply Hids, Hx.
  - exact (IH Hnd Hx Hy Hid).
Qed.

(** C5: two roster members with different ids whose display names
    normalize to one key make every name that generates the key
    ambiguous, with both among the candidates; and no member id occurs
    twice among the users and candidates of a result. *)
Theorem shared_key_is_ambiguous :
  (forall roster m1 m2 name k,
     m1 ∈ roster -> m2 ∈ roster ->
     PlannerMember.id m1 <> PlannerMember.id m2 ->
     normalizeKey (PlannerMember.displayName m1) = k ->
     normalizeKey (PlannerMember.displayName m2) = k ->
     k ∈ keys (generateAssigneeKeys name) ->
     exists cs,
       evaluateAssignee (buildMemberIndex roster) name
       = {| users := []; candidates := cs; needsReview := true |}
       /\ outcome (evaluateAssignee (buildMemberIndex roster) name) = Ambiguous cs
       /\ PlannerMember.id m1 ∈ List.map (fun u => PlannerMember.id (member u)) cs
       /\ PlannerMember.id m2 ∈ List.map (fun u => PlannerMember.id (member u)) cs
       /\ (NoDup (member_ids roster) ->
            as_user name m1 ∈ cs /\ as_user name m2 ∈ cs))
  /\ (forall idx name,
        NoDup (List.map (fun u => PlannerMember.id (member u))
                 (users (evaluateAssignee idx name)
                  ++ candidates (evaluateAssignee idx name)))).
Proof.
  split.
  - intros roster m1 m2 name k H1 H2 Hid E1 E2 Hk.
    set (idx := buildMemberIndex roster).
    pose proof (generateAssigneeKeys_nonempty name k Hk) as Hne.
    assert (Hin : forall m, m ∈ roster ->
              normalizeKey (PlannerMember.displayName m) = k ->
              PlannerMember.id m ∈ member_ids (findMemberMatches name idx)).
    { intros m Hm Em.
      assert (Hhas : has_key k m = true).
      { rewrite <- Em. apply displayName_key. rewrite Em. exact Hne. }
      assert (Hfil : m ∈ List.filter (has_key k) roster).
      { apply list_elem_of_In, filter_In. split; [apply list_elem_of_In, Hm | exact Hhas]. }
      assert (Hms : keyMap idx !! k = Some (List.filter (has_key k) roster)).
      { unfold idx. rewrite keyMap_lookup.
        destruct (List.filter (has_key k) roster); [inversion Hfil | reflexivity]. }
      pose proof (fold_match_key_adds idx _ k _ m Hk Hms Hfil []) as Hfound.
      unfold findMemberMatches.
      destruct (0 <? _)%nat eqn:Hlen; [exact Hfound|].
      apply Nat.ltb_ge in Hlen.
      destruct (fold_left (match_key idx) _ []); [inversion Hfound | simpl in Hlen; lia]. }
    pose proof (Hin m1 H1 E1) as I1. pose proof (Hin m2 H2 E2) as I2.
    pose proof (two_ids_two_members _ _ _ Hid I1 I2) as Hlen.
    exists (List.map (as_user name) (findMemberMatches name idx)).
    rewrite (evaluateAssignee_many idx name Hlen).
    rewrite List.map_map. simpl. fold (member_ids (findMemberMatches name idx)).
    assert (Hmem : forall m, m ∈ roster -> NoDup (member_ids roster) ->
              PlannerMember.id m ∈ member_ids (findMemberMatches name idx) ->
              as_user name m ∈ List.map (as_user name) (findMemberMatches name idx)).
    { intros m Hm Hnd Hi. apply list_elem_of_In, in_map_iff in Hi as (x & Hx & Hxin).
      apply list_elem_of_In in Hxin.
      pose proof (findMemberMatches_from_roster roster name x Hxin) as Hxr.
      rewrite <- (unique_by_id roster x m Hnd Hxr Hm Hx).
      apply list_elem_of_In, in_map, list_elem_of_In, Hxin. }
    split; [reflexivity|]. split.
    { unfold outcome. simpl.
      destruct (findMemberMatches name idx); [simpl in Hlen; lia | reflexivity]. }
    split; [exact I1|]. split; [exact I2|].
    intros Hnd. split; [exact (Hmem m1 H1 Hnd I1) | exact (Hmem m2 H2 Hnd I2)].
  - intros idx name. rewrite evaluateAssignee_members, List.map_map. simpl.
    apply findMemberMatches_NoDup.
Qed.

(** C1, amended: when no generated key is in the key map and there are
    tokens, the matches are the members of the entries whose search text
    contains every token, one per id; one such member is a resolved
    match (not an ambiguous one), several are candidates, none leaves
    the name unresolved. *)
Theorem token_fallback idx name :
  (forall k, k ∈ keys (generateAssigneeKeys name) -> keyMap idx !! k = None) ->
  tokens (generateAssigneeKeys name) <> [] ->
  findMemberMatches name idx
  = dedup_by_id (qualifiers idx (tokens (generateAssigneeKeys name)))
  /\ (forall e,
        List.filter (entry_qualifies (tokens (generateAssigneeKeys name))) (entries idx)
        = [e] ->
        evaluateAssignee idx name
        = {| users := [as_user name (entry_member e)]; candidates := [];
             needsReview := false |}
        /\ outcome (evaluateAssignee idx name)
           = Resolved [as_user name (entry_member e)])
  /\ ((2 <= length (dedup_by_id (qualifiers idx (tokens (generateAssigneeKeys name)))))%nat ->
        outcome (evaluateAssignee idx name)
        = Ambiguous (List.map (as_user name)
            (dedup_by_id (qualifiers idx (tokens (generateAssigneeKeys name))))))
  /\ (List.filter (entry_qualifies (tokens (generateAssigneeKeys name))) (entries idx)
      = [] ->
        evaluateAssignee idx name = unresolved_result
        /\ outcome (evaluateAssignee idx name) = Unresolved).
Proof.
  intros Hmiss Htok.
  assert (E : findMemberMatches name idx
              = dedup_by_id (qualifiers idx (tokens (generateAssigneeKeys name)))).
  { unfold findMemberMatches. rewrite (fold_match_key_miss idx _ Hmiss). simpl.
    destruct (tokens (generateAssigneeKeys name)) eqn:Et; [contradiction|]. simpl.
    rewrite fold_match_entry. reflexivity. }
  split; [exact E|]. unfold qualifiers in *. repeat split.
  - unfold evaluateAssignee. rewrite E, H. reflexivity.
  - unfold evaluateAssignee. rewrite E, H. reflexivity.
  - intros Hlen. rewrite <- E in *.
    rewrite (evaluateAssignee_many idx name Hlen). unfold outcome. simpl.
    destruct (findMemberMatches name idx); [simpl in Hlen; lia | reflexivity].
  - unfold evaluateAssignee. rewrite E, H. reflexivity.
  - unfold evaluateAssignee. rewrite E, H. reflexivity.
Qed.

Lemma evaluateAssignee_shape idx name :
  (0 <? length (users (evaluateAssignee idx name)))%nat
  = is_resolved (outcome (evaluateAssignee idx name))
  /\ needsReview (evaluateAssignee idx name)
     = negb (is_resolved (outcome (evaluateAssignee idx name))).
Proof.
  unfold evaluateAssignee.
  destruct (findMemberMatches name idx) as [|m [|m' ms]]; split; reflexivity.
Qed.

Lemma merge_fold idx names :
  forall acc,
    fold_left (merge_assignee idx) names acc
    = {| matchedUsers :=
           matchedUsers acc
           ++ List.concat (List.map (fun n => users (evaluateAssignee idx n)) names);
         failed :=
           failed acc
           ++ List.filter
                (fun n => negb (is_resolved (outcome (evaluateAssignee idx n)))) names;
         mergedCandidates :=
           mergedCandidates acc
           ++ List.concat (List.map (fun n => candidates (evaluateAssignee idx n)) names);
         mergedNeedsReview :=
           mergedNeedsReview acc
           || existsb
                (fun n => negb (is_resolved (outcome (evaluateAssignee idx n)))) names |}.
Proof.
  induction names as [|n names IH]; intros acc; simpl.
  - rewrite !app_nil_r, orb_false_r. destruct acc; reflexivity.
  - rewrite IH. unfold merge_assignee. simpl.
    destruct (evaluateAssignee_shape idx n) as [Hu Hr]. rewrite Hr, <- Hu.
    destruct (users (evaluateAssignee idx n)) as [|u us] eqn:Eu; simpl;
      destruct (candidates (evaluateAssignee idx n)) as [|c cs] eqn:Ec; simpl;
      rewrite <- ?app_assoc, ?orb_true_r; simpl; try reflexivity;
      destruct (mergedNeedsReview acc); reflexivity.
Qed.

(** C2, amended: over the names of a task, the matched users are those
    of the resolved names, the failed names are the names that did not
    resolve (ambiguous ones included), the candidates are those of the
    ambiguous names, all in order, and review is needed when some name
    did not resolve; the task receives each non-empty part. *)
Theorem merged_assignees idx names :
  matchedUsers (mergeAssignees idx names)
  = List.concat (List.map (fun n => users (evaluateAssignee idx n)) names)
  /\ failed (mergeAssignees idx names)
     = List.filter (fun n => negb (is_resolved (outcome (evaluateAssignee idx n)))) names
  /\ mergedCandidates (mergeAssignees idx names)
     = List.concat (List.map (fun n => candidates (evaluateAssignee idx n)) names)
  /\ mergedNeedsReview (mergeAssignees idx names)
     = existsb (fun n => negb (is_resolved (outcome (evaluateAssignee idx n)))) names
  /\ (forall n,
        users (evaluateAssignee idx n)
        = match outcome (evaluateAssignee idx n) with Resolved us => us | _ => [] end
        /\ candidates (evaluateAssignee idx n)
           = match outcome (evaluateAssignee idx n) with Ambiguous cs => cs | _ => [] end)
  /\ (forall t,
        assignees t = Some names -> names <> [] ->
        processAssignees idx t
        = {| task := t;
             assigneeUsers := some_if_any (matchedUsers (mergeAssignees idx names));
             assigneeLookupFailed := None;
             assigneeLookupFailedList := some_if_any (failed (mergeAssignees idx names));
             assigneeCandidates := some_if_any (mergedCandidates (mergeAssignees idx names));
             assigneeNeedsReview :=
               if mergedNeedsReview (mergeAssignees idx names) then Some true else None;
             bucketInfo := None; bucketLookupFailed := None |}).
Proof.
  unfold mergeAssignees. rewrite merge_fold. simpl.
  repeat split.
  - unfold evaluateAssignee, outcome.
    destruct (findMemberMatches n idx) as [|m [|m' ms]]; reflexivity.
  - unfold evaluateAssignee, outcome.
    destruct (findMemberMatches n idx) as [|m [|m' ms]]; reflexivity.
  - intros t Ht Hne. unfold processAssignees, enrichAssignees. rewrite Ht.
    destruct names as [|n names]; [contradiction|].
    unfold mergeAssignees. rewrite merge_fold.
    cbn [matchedUsers failed mergedCandidates mergedNeedsReview no_merge app orb].
    unfold write_if_any, some_if_any.
    repeat match goal with
    | |- context [(0 <? length ?l)%nat] => destruct (0 <? length l)%nat
    | |- context [if existsb ?f ?l then _ else _] => destruct (existsb f l)
    end; reflexivity.
Qed.

Lemma keys_of_ann_lee :
  generateAssigneeKeys (u16 "Ann Lee")
  = {| keys := [u16 "ann lee"; u16 "lee ann"]; tokens := [u16 "ann"; u16 "lee"] |}.
Proof. rewrite generateAssigneeKeys_ascii by reflexivity. vm_compute. reflexivity. Qed.

Lemma keys_of_lee_ann :
  generateAssigneeKeys (u16 "Lee, Ann")
  = {| keys := [u16 "lee ann"; u16 "ann lee"]; tokens := [u16 "lee"; u16 "ann"] |}.
Proof. rewrite generateAssigneeKeys_ascii by reflexivity. vm_compute. reflexivity. Qed.

Lemma fold_push_unique_same m ms :
  (forall x, In x ms -> x = m) ->
  forall acc, acc = [] \/ acc = [m] ->
    fold_left push_unique ms acc
    = match acc, ms with [], [] => [] | _, _ => [m] end.
Proof.
  induction ms as [|x ms IH]; intros Hall acc Hacc; simpl.
  - destruct Hacc as [->| ->]; reflexivity.
  - rewrite (Hall x) by (left; reflexivity).
    assert (Hpush : push_unique acc m = [m]).
    { destruct Hacc as [->| ->]; unfold push_unique; simpl; [reflexivity|].
      unfold str_eqb. rewrite bool_decide_eq_true_2 by reflexivity. reflexivity. }
    rewrite Hpush, IH by (auto; intros; apply Hall; right; assumption).
    destruct acc; reflexivity.
Qed.

Lemma match_key_same roster m k :
  (forall m', In m' roster -> has_key k m' = true -> m' = m) ->
  forall acc, acc = [] \/ acc = [m] ->
    match_key (buildMemberIndex roster) acc k
    = match acc, List.filter (has_key k) roster with [], [] => [] | _, _ => [m] end.
Proof.
  intros Hall acc Hacc. unfold match_key. rewrite keyMap_lookup.
  assert (Hms : forall x, In x (List.filter (has_key k) roster) -> x = m).
  { intros x Hx. apply filter_In in Hx as [Hx Hk]. exact (Hall x Hx Hk). }
  destruct (List.filter (has_key k) roster) as [|x ms] eqn:E.
  - destruct Hacc as [->| ->]; reflexivity.
  - rewrite (fold_push_unique_same m (x :: ms) Hms acc Hacc).
    destruct acc; reflexivity.
Qed.

(** C4, amended: when a roster member's display name normalizes to
    [ann lee] and no other roster member carries the key [ann lee] or
    the key [lee ann], both [Ann Lee] and [Lee, Ann] resolve to exactly
    that member; the first through the key of the normalized name, the
    second through the key of the swapped parts. *)
Theorem unique_alias_resolves roster m :
  m ∈ roster ->
  normalizeKey (PlannerMember.displayName m) = u16 "ann lee" ->
  (forall m', m' ∈ roster ->
     has_key (u16 "ann lee") m' = true \/ has_key (u16 "lee ann") m' = true ->
     m' = m) ->
  (forall name, name = u16 "Ann Lee" \/ name = u16 "Lee, Ann" ->
     evaluateAssignee (buildMemberIndex roster) name
     = {| users := [as_user name m]; candidates := []; needsReview := false |}
     /\ outcome (evaluateAssignee (buildMemberIndex roster) name)
        = Resolved [as_user name m])
  /\ normalizeKey (u16 "Ann Lee") = u16 "ann lee"
  /\ normalizeKey (spaced (u16 "Ann") (u16 "Lee")) = u16 "ann lee"
  /\ u16 "ann lee" ∈ keys (generateAssigneeKeys (u16 "Ann Lee"))
  /\ u16 "ann lee" ∈ keys (generateAssigneeKeys (u16 "Lee, Ann")).
Proof.
  intros Hm Hdn Hother.
  assert (Hhas : has_key (u16 "ann lee") m = true).
  { rewrite <- Hdn. apply displayName_key. rewrite Hdn. discriminate. }
  assert (H1 : forall m', In m' roster -> has_key (u16 "ann lee") m' = true -> m' = m).
  { intros m' Hin Hk. apply Hother; [apply list_elem_of_In, Hin | left; exact Hk]. }
  assert (H2 : forall m', In m' roster -> has_key (u16 "lee ann") m' = true -> m' = m).
  { intros m' Hin Hk. apply Hother; [apply list_elem_of_In, Hin | right; exact Hk]. }
  assert (Hfil : List.filter (has_key (u16 "ann lee")) roster <> []).
  { intros E. assert (Hin : In m (List.filter (has_key (u16 "ann lee")) roster)).
    { apply filter_In. split; [apply list_elem_of_In, Hm | exact Hhas]. }
    rewrite E in Hin. destruct Hin. }
  assert (Hfound : forall name,
            name = u16 "Ann Lee" \/ name = u16 "Lee, Ann" ->
            findMemberMatches name (buildMemberIndex roster) = [m]).
  { intros name [-> | ->]; unfold findMemberMatches;
      rewrite ?keys_of_ann_lee, ?keys_of_lee_ann; cbn [keys tokens fold_left].
    - rewrite (match_key_same roster m _ H1 []) by (left; reflexivity).
      destruct (List.filter (has_key (u16 "ann lee")) roster); [contradiction|].
      rewrite (match_key_same roster m _ H2 [m]) by (right; reflexivity).
      reflexivity.
    - rewrite (match_key_same roster m _ H2 []) by (left; reflexivity).
      destruct (List.filter (has_key (u16 "lee ann")) roster).
      + rewrite (match_key_same roster m _ H1 []) by (left; reflexivity).
        destruct (List.filter (has_key (u16 "ann lee")) roster); [contradiction|].
        reflexivity.
      + rewrite (match_key_same roster m _ H1 [m]) by (right; reflexivity).
        reflexivity. }
  split; [|repeat split].
  - intros name Hname. unfold evaluateAssignee. rewrite (Hfound name Hname).
    split; reflexivity.
  - rewrite normalizeKey_ascii by reflexivity. vm_compute. reflexivity.
  - rewrite normalizeKey_ascii by reflexivity. vm_compute. reflexivity.
  - rewrite keys_of_ann_lee. left.
  - rewrite keys_of_lee_ann. right. left.
Qed.

End MatcherProperties.

(** ** Plain objects *)

Lemma str_eqb_eq a b : str_eqb a b = true <-> a = b.
Proof. unfold str_eqb. apply bool_decide_eq_true. Qed.

Lemma str_eqb_refl a : str_eqb a a = true.
Proof. apply str_eqb_eq. reflexivity. Qed.

Lemma str_eqb_neq a b : a <> b -> str_eqb a b = false.
Proof. intros H. unfold str_eqb. apply bool_decide_eq_false_2, H. Qed.

Lemma get_set_own_eq props k v : get_own (set_own props k v) k = Some v.
Proof.
  induction props as [|[k' v'] rest IH]; simpl.
  - rewrite str_eqb_refl. reflexivity.
  - destruct (str_eqb k' k) eqn:E; simpl; rewrite E; [reflexivity | exact IH].
Qed.

Lemma get_set_own_ne props k v k' :
  k <> k' -> get_own (set_own props k v) k' = get_own props k'.
Proof.
  intros Hne. induction props as [|[k0 v0] rest IH]; simpl.
  - rewrite (str_eqb_neq k k' Hne). reflexivity.
  - destruct (str_eqb k0 k) eqn:E; simpl.
    + apply str_eqb_eq in E. subst k0. rewrite (str_eqb_neq k k' Hne). reflexivity.
    + rewrite IH. reflexivity.
Qed.

Lemma set_own_from props k v x :
  In x (set_own props k v) -> In x props \/ x = (k, v).
Proof.
  induction props as [|[k0 v0] rest IH]; simpl.
  - intros [<-|[]]. right. reflexivity.
  - destruct (str_eqb k0 k) eqn:E; simpl.
    + apply str_eqb_eq in E. subst k0. intros [<-|H]; [right; reflexivity | left; right; exact H].
    + intros [<-|H]; [left; left; reflexivity|].
      destruct (IH H) as [?|?]; [left; right; assumption | right; assumption].
Qed.

Lemma get_own_In props k v : get_own props k = Some v -> In (k, v) props.
Proof.
  induction props as [|[k0 v0] rest IH]; simpl; [discriminate|].
  destruct (str_eqb k0 k) eqn:E.
  - apply str_eqb_eq in E. subst k0. intros [= <-]. left. reflexivity.
  - intros H. right. exact (IH H).
Qed.

Section PlainObjectProperties.
Context `{JS : JsRuntime}.

Lemma proto_key_other k : k <> PROTO -> proto_key k = false.
Proof.
  intros H. unfold proto_key. rewrite (str_eqb_neq k PROTO H). apply andb_false_r.
Qed.

Lemma proto_key_true k : proto_key k = true -> legacy_proto = true /\ k = PROTO.
Proof.
  unfold proto_key. intros H. apply andb_true_iff in H as [H1 H2].
  split; [exact H1 | apply str_eqb_eq, H2].
Qed.

Lemma proto_key_false k : proto_key k = false -> legacy_proto = true -> k <> PROTO.
Proof.
  unfold proto_key. intros H Hl ->. rewrite Hl, str_eqb_refl in H. discriminate H.
Qed.

Lemma reaches_proto_setter_key o k :
  proto_key k = false -> reaches_proto_setter o k = false.
Proof.
  intros H. unfold reaches_proto_setter. unfold proto_key in H. rewrite H. reflexivity.
Qed.

Lemma js_set_own_other o k v n :
  n <> k -> get_own (own (js_set o k v)) n = get_own (own o) n.
Proof.
  intros Hne. unfold js_set. destruct (reaches_proto_setter o k); simpl; [reflexivity|].
  apply get_set_own_ne. congruence.
Qed.

Lemma js_set_proto_other o k v : proto_key k = false -> proto (js_set o k v) = proto o.
Proof.
  intros H. unfold js_set. rewrite (reaches_proto_setter_key o k H). reflexivity.
Qed.

Lemma js_set_own_hit o k v :
  proto_key k = false ->
  get_own (own (js_set o k v)) k = Some (from_option JsObject JsNull v).
Proof.
  intros H. unfold js_set. rewrite (reaches_proto_setter_key o k H). simpl.
  apply get_set_own_eq.
Qed.

Lemma js_set_proto_hit o v :
  legacy_proto = true ->
  get_own (own o) PROTO = None -> proto o = ProtoObjectPrototype ->
  js_set o PROTO v
  = {| own := own o;
       proto := match v with Some props => ProtoObject props | None => ProtoNull end |}.
Proof.
  intros Hl Hown Hproto. unfold js_set, reaches_proto_setter.
  rewrite Hl, str_eqb_refl, Hown, Hproto. reflexivity.
Qed.

Lemma js_set_own_from o k v x :
  In x (own (js_set o k v)) ->
  In x (own o) \/ x = (k, from_option JsObject JsNull v).
Proof.
  unfold js_set. destruct (reaches_proto_setter o k); simpl; [left; assumption|].
  apply set_own_from.
Qed.

(** The two runtimes of a kind agree on reads and writes. *)
Lemma js_get_flag legacy o k :
  legacy_proto = legacy -> js_get o k = js_get (JS := latin1_runtime legacy) o k.
Proof. intros <-. reflexivity. Qed.

Lemma js_set_flag legacy o k v :
  legacy_proto = legacy -> js_set o k v = js_set (JS := latin1_runtime legacy) o k v.
Proof. intros <-. reflexivity. Qed.

End PlainObjectProperties.

Lemma insert_by_index_In e l x :
  In x (insert_by_index e l) <-> x = e \/ In x l.
Proof.
  induction l as [|e' l IH]; simpl.
  - split; [intros [<-|[]]; left; reflexivity | intros [->|[]]; left; reflexivity].
  - destruct (fst e <=? fst e')%N; simpl.
    + split; [intros [<-|H]; [left; reflexivity | right; exact H]
             | intros [->|H]; [left; reflexivity | right; exact H]].
    + rewrite IH. split.
      * intros [<-|[->|H]]; [right; left | left | right; right]; auto.
      * intros [->|[<-|H]]; [right; left | left | right; right]; auto.
Qed.

Lemma sorted_In l x : In x (fold_right insert_by_index [] l) <-> In x l.
Proof.
  induction l as [|e l IH]; simpl; [reflexivity|].
  rewrite insert_by_index_In, IH. split; intros [H|H]; auto.
Qed.

(** [Object.entries] lists exactly the own properties. *)
Lemma object_entries_In o kv : In kv (object_entries o) <-> In kv (own o).
Proof.
  unfold object_entries. rewrite in_app_iff, in_map_iff, filter_In. split.
  - intros [((n & kv') & E & H)|[H _]]; [|exact H].
    simpl in E. subst kv'. apply sorted_In, list_elem_of_In, list_elem_of_omap in H
      as (kv' & Hin & Hidx).
    destruct (array_index (fst kv')); [|discriminate Hidx].
    simpl in Hidx. injection Hidx as _ ->. apply list_elem_of_In, Hin.
  - intros H. destruct (array_index (fst kv)) as [n|] eqn:E.
    + left. exists (n, kv). split; [reflexivity|].
      apply sorted_In, list_elem_of_In, list_elem_of_omap. exists kv.
      split; [apply list_elem_of_In, H | rewrite E; reflexivity].
    + right. split; [exact H|]. rewrite bool_decide_eq_false_2; [reflexivity|].
      intros [? ?]. discriminate.
Qed.

(** ** The bucket matcher *)

Section BucketProperties.
Context `{JS : JsRuntime}.

Lemma last_named_snoc k buckets b :
  last_named k (buckets ++ [b])
  = if str_eqb (toLowerCase (Bucket.name b)) k then Some b else last_named k buckets.
Proof. unfold last_named. rewrite rev_unit. reflexivity. Qed.

Lemma last_named_In k buckets b :
  last_named k buckets = Some b -> In b buckets /\ toLowerCase (Bucket.name b) = k.
Proof.
  unfold last_named. intros H. apply find_some in H as [Hin Hk].
  split; [apply in_rev, Hin | apply str_eqb_eq, Hk].
Qed.

Lemma last_named_some k buckets b :
  In b buckets -> toLowerCase (Bucket.name b) = k ->
  exists b', last_named k buckets = Some b'.
Proof.
  intros Hin Hk. unfold last_named.
  destruct (List.find _ (rev buckets)) as [b'|] eqn:E; [exists b'; reflexivity|].
  pose proof (find_none _ _ E b (proj1 (in_rev _ _) Hin)) as Hno.
  simpl in Hno. rewrite Hk, str_eqb_refl in Hno. discriminate Hno.
Qed.

Lemma buildBucketLookup_snoc buckets b :
  buildBucketLookup (buckets ++ [b])
  = js_set (buildBucketLookup buckets) (toLowerCase (Bucket.name b))
           (Some (bucket_object b)).
Proof. unfold buildBucketLookup. rewrite fold_left_app. reflexivity. Qed.

Lemma bucket_object_no_proto b : get_own (bucket_object b) PROTO = None.
Proof. reflexivity. Qed.

(** The lookup object after the first loop: its own properties are the
    last bucket of each lower-cased name; where there is the accessor, a
    bucket whose lower-cased name is [__proto__] became its prototype
    instead. *)
Lemma buildBucketLookup_shape buckets :
  let o := buildBucketLookup buckets in
  (legacy_proto = true -> get_own (own o) PROTO = None)
  /\ (forall k, proto_key k = false ->
        get_own (own o) k
        = (fun b => JsObject (bucket_object b)) <$> last_named k buckets)
  /\ proto o = (if legacy_proto
                then match last_named PROTO buckets with
                     | Some b => ProtoObject (bucket_object b)
                     | None => ProtoObjectPrototype
                     end
                else ProtoObjectPrototype)
  /\ (forall k v, In (k, v) (own o) ->
        exists b, In b buckets /\ k = toLowerCase (Bucket.name b)
                  /\ v = JsObject (bucket_object b)).
Proof.
  induction buckets as [|b buckets IH] using rev_ind.
  - simpl. repeat split; try reflexivity.
    + destruct legacy_proto; reflexivity.
    + intros k v [].
  - destruct IH as (Ha & Hb & Hc & Hd). rewrite buildBucketLookup_snoc.
    set (o := buildBucketLookup buckets) in *.
    set (k0 := toLowerCase (Bucket.name b)). cbv zeta.
    destruct (proto_key k0) eqn:Hkey.
    + destruct (proto_key_true k0 Hkey) as [Hl E].
      assert (Hreach : reaches_proto_setter o PROTO = true).
      { unfold reaches_proto_setter. rewrite Hl, str_eqb_refl, (Ha Hl), Hc, Hl.
        destruct (last_named PROTO buckets); reflexivity. }
      unfold js_set. rewrite E, Hreach. simpl. repeat split.
      * intros _. exact (Ha Hl).
      * intros k Hk. rewrite Hb by exact Hk. rewrite last_named_snoc. fold k0.
        rewrite E, (str_eqb_neq PROTO k); [reflexivity|].
        intros <-. exact (proto_key_false PROTO Hk Hl eq_refl).
      * rewrite Hl, last_named_snoc. fold k0. rewrite E, str_eqb_refl. reflexivity.
      * intros k v Hin. destruct (Hd k v Hin) as (b' & Hin' & Hk & Hv).
        exists b'. split; [apply in_or_app; left; exact Hin' | split; assumption].
    + repeat split.
      * intros Hl. rewrite js_set_own_other; [exact (Ha Hl)|].
        intros E. exact (proto_key_false k0 Hkey Hl (eq_sym E)).
      * intros k Hk. rewrite last_named_snoc. fold k0.
        destruct (decide (k0 = k)) as [<-|Hkk].
        -- rewrite js_set_own_hit by exact Hkey. rewrite str_eqb_refl. reflexivity.
        -- rewrite js_set_own_other by congruence.
           rewrite (str_eqb_neq k0 k Hkk). apply Hb, Hk.
      * rewrite js_set_proto_other by exact Hkey. rewrite Hc.
        destruct legacy_proto eqn:Hl; [|reflexivity].
        rewrite last_named_snoc. fold k0.
        rewrite (str_eqb_neq k0 PROTO (proto_key_false k0 Hkey Hl)). reflexivity.
      * intros k v Hin. apply js_set_own_from in Hin as [Hin|[= -> ->]].
        -- destruct (Hd k v Hin) as (b' & Hin' & Hk & Hv).
           exists b'. split; [apply in_or_app; left; exact Hin' | split; assumption].
        -- exists b. split; [apply in_or_app; right; left; reflexivity | split; reflexivity].
Qed.

(** A read of the lookup object under the lower-cased name of a bucket
    finds the last bucket of that name. *)
Lemma buildBucketLookup_get buckets k b :
  last_named k buckets = Some b ->
  js_get (buildBucketLookup buckets) k = JsObject (bucket_object b).
Proof.
  intros Hlast. destruct (buildBucketLookup_shape buckets) as (Ha & Hb & Hc & _).
  unfold js_get. destruct (proto_key k) eqn:Hkey.
  - destruct (proto_key_true k Hkey) as [Hl ->].
    rewrite (Ha Hl), Hc, Hl, Hlast. simpl.
    unfold object_prototype_get. rewrite Hl, str_eqb_refl. reflexivity.
  - rewrite Hb, Hlast by exact Hkey. reflexivity.
Qed.

Lemma mapping_fold_own lookup names n :
  ~ In n names ->
  forall m,
    get_own (own (fold_left
      (fun mapping bucketName => js_set mapping bucketName (resolveBucket lookup bucketName))
      names m)) n
    = get_own (own m) n.
Proof.
  induction names as [|x names IH]; intros Hn m; simpl; [reflexivity|].
  rewrite IH by (intros H; apply Hn; right; exact H).
  apply js_set_own_other. intros ->. apply Hn. left. reflexivity.
Qed.

Lemma mapping_fold_proto lookup names :
  ~ In PROTO names ->
  forall m,
    proto (fold_left
      (fun mapping bucketName => js_set mapping bucketName (resolveBucket lookup bucketName))
      names m)
    = proto m.
Proof.
  induction names as [|x names IH]; intros Hn m; simpl; [reflexivity|].
  rewrite IH by (intros H; apply Hn; right; exact H).
  apply js_set_proto_other, proto_key_other. intros ->. apply Hn. left. reflexivity.
Qed.

(** A read of the mapping object under a label of the batch returns
    what was stored for it: the object, or a false value for [null]. *)
Lemma buildBucketMapping_get lookup names n :
  NoDup names -> n ∈ names ->
  match resolveBucket lookup n with
  | Some p =>
      get_own p PROTO = None ->
      js_get (buildBucketMapping lookup names) n = JsObject p
  | None => js_truthy (js_get (buildBucketMapping lookup names) n) = false
  end.
Proof.
  intros Hnd Hin. apply list_elem_of_In, in_split in Hin as (pre & post & ->).
  apply NoDup_ListNoDup, List.NoDup_remove_2 in Hnd.
  assert (Hpre : ~ In n pre) by (intros H; apply Hnd, in_or_app; left; exact H).
  assert (Hpost : ~ In n post) by (intros H; apply Hnd, in_or_app; right; exact H).
  unfold buildBucketMapping. rewrite fold_left_app. cbn [fold_left].
  set (step := fun mapping bucketName =>
                 js_set mapping bucketName (resolveBucket lookup bucketName)).
  set (m1 := fold_left step pre empty_object).
  set (m3 := fold_left step post (js_set m1 n (resolveBucket lookup n))).
  destruct (proto_key n) eqn:Hkey.
  - destruct (proto_key_true n Hkey) as [Hl ->].
    assert (H1 : get_own (own m1) PROTO = None).
    { unfold m1, step. rewrite mapping_fold_own by exact Hpre. reflexivity. }
    assert (H2 : proto m1 = ProtoObjectPrototype).
    { unfold m1, step. rewrite mapping_fold_proto by exact Hpre. reflexivity. }
    assert (H3 : get_own (own m3) PROTO = None).
    { unfold m3, step. rewrite mapping_fold_own by exact Hpost.
      rewrite (js_set_proto_hit m1 _ Hl H1 H2). exact H1. }
    assert (H4 : proto m3
                 = match resolveBucket lookup PROTO with
                   | Some props => ProtoObject props
                   | None => ProtoNull
                   end).
    { unfold m3, step. rewrite mapping_fold_proto by exact Hpost.
      rewrite (js_set_proto_hit m1 _ Hl H1 H2). reflexivity. }
    unfold js_get. rewrite H3, H4.
    destruct (resolveBucket lookup PROTO) as [p|]; [|reflexivity].
    intros Hp. rewrite Hp. unfold object_prototype_get.
    rewrite Hl, str_eqb_refl. reflexivity.
  - assert (H3 : get_own (own m3) n
                 = Some (from_option JsObject JsNull (resolveBucket lookup n))).
    { unfold m3, step. rewrite mapping_fold_own by exact Hpost.
      apply js_set_own_hit, Hkey. }
    unfold js_get. rewrite H3.
    destruct (resolveBucket lookup n); [intros _|]; reflexivity.
Qed.

Lemma uniqueBucketNames_fold tasks :
  forall acc,
    NoDup acc ->
    let names := fold_left
      (fun names t =>
         if truthy (bucketName (task t))
         then set_add names (or_empty (bucketName (task t))) else names)
      tasks acc in
    NoDup names
    /\ (forall x, x ∈ acc -> x ∈ names)
    /\ (forall t label, In t tasks -> bucketName (task t) = Some label ->
          label <> [] -> label ∈ names).
Proof.
  induction tasks as [|t tasks IH]; intros acc Hacc; simpl.
  - repeat split; auto. intros t label [].
  - set (acc' := if truthy (bucketName (task t))
                 then set_add acc (or_empty (bucketName (task t))) else acc).
    assert (Hnd : NoDup acc').
    { unfold acc'. destruct (truthy _); [apply set_add_NoDup|]; exact Hacc. }
    destruct (IH acc' Hnd) as (H1 & H2 & H3). repeat split; [exact H1| |].
    + intros x Hx. apply H2. unfold acc'.
      destruct (truthy _); [apply set_add_keeps|]; exact Hx.
    + intros t' label [<-|Hin] Hb Hne; [|exact (H3 t' label Hin Hb Hne)].
      apply H2. unfold acc'. rewrite Hb. simpl.
      destruct label; [contradiction|]. simpl. apply set_add_adds.
Qed.

Lemma uniqueBucketNames_NoDup tasks : NoDup (uniqueBucketNames tasks).
Proof. exact (proj1 (uniqueBucketNames_fold tasks [] NoDup_nil_2)). Qed.

Lemma uniqueBucketNames_In tasks t label :
  In t tasks -> bucketName (task t) = Some label -> label <> [] ->
  label ∈ uniqueBucketNames tasks.
Proof. exact (proj2 (proj2 (uniqueBucketNames_fold tasks [] NoDup_nil_2)) t label). Qed.

(** What the last loop does for a task with a label, from what was
    stored for the label. *)
Lemma enrichBucket_of_label lookup tasks t label :
  In t tasks -> bucketName (task t) = Some label -> label <> [] ->
  match resolveBucket lookup label with
  | Some p =>
      get_own p PROTO = None ->
      enrichBucket (buildBucketMapping lookup (uniqueBucketNames tasks)) t t
      = set_bucketInfo
          {| BucketInfo.id := js_field (JsObject p) FId;
             BucketInfo.name := js_field (JsObject p) FName;
             BucketInfo.originalName := label;
             BucketInfo.exactMatch := js_field (JsObject p) FExactMatch |} t
  | None =>
      enrichBucket (buildBucketMapping lookup (uniqueBucketNames tasks)) t t
      = set_bucketLookupFailed true t
  end.
Proof.
  intros Hin Hb Hne.
  pose proof (buildBucketMapping_get lookup _ label (uniqueBucketNames_NoDup tasks)
                (uniqueBucketNames_In tasks t label Hin Hb Hne)) as Hget.
  unfold enrichBucket. rewrite Hb. simpl.
  destruct label as [|c label]; [contradiction|]. simpl.
  destruct (resolveBucket lookup (c :: label)) as [p|].
  - intros Hp. rewrite (Hget Hp). reflexivity.
  - rewrite Hget. reflexivity.
Qed.

Lemma Qgtb_true x y : Qgtb x y = true -> (y < x)%Q.
Proof.
  unfold Qgtb. intros H. apply negb_true_iff in H. apply Qnot_le_lt.
  intros Hle. apply Qle_bool_iff in Hle. congruence.
Qed.

Lemma Qgtb_false x y : Qgtb x y = false -> (x <= y)%Q.
Proof.
  unfold Qgtb. intros H. apply negb_false_iff in H. apply Qle_bool_iff, H.
Qed.

Lemma fuzzy_step_inv bucketName lowerName seen best e :
  fuzzy_inv bucketName lowerName seen best ->
  fuzzy_inv bucketName lowerName (seen ++ [e])
            (fuzzy_step bucketName lowerName best e).
Proof.
  destruct best as [bm bs], e as [a0 v0]. unfold fuzzy_inv, fuzzy_step. simpl.
  intros Hinv.
  assert (Hsplit : forall a v, In (a, v) (seen ++ [(a0, v0)]) ->
            In (a, v) seen \/ (a = a0 /\ v = v0)).
  { intros a v H. apply in_app_or in H as [H|[[= <- <-]|[]]]; auto. }
  destruct (contained lowerName a0) eqn:Hc.
  - destruct (Qgtb (fuzzy_score bucketName a0) bs) eqn:H1;
      [destruct (Qgtb (fuzzy_score bucketName a0) (1 # 2)) eqn:H2|]; simpl.
    + apply Qgtb_true in H1, H2. split; [exact H2|]. split.
      * exists a0, v0. repeat split; auto. apply in_or_app. right. left. reflexivity.
      * intros a v Hin Hq. destruct (Hsplit a v Hin) as [Hs|[-> ->]]; [|apply Qle_refl].
        destruct bm as [p|].
        -- destruct Hinv as (_ & _ & Hmax).
           eapply Qle_trans; [exact (Hmax a v Hs Hq) | apply Qlt_le_weak, H1].
        -- destruct Hinv as (_ & Hlow).
           eapply Qle_trans; [exact (Hlow a v Hs Hq) | apply Qlt_le_weak, H2].
    + apply Qgtb_false in H2. destruct bm as [p|].
      * destruct Hinv as (Hbs & (a1 & v1 & Hin1 & Hq1 & Hp & Hs1) & Hmax).
        split; [exact Hbs|]. split.
        -- exists a1, v1. repeat split; auto. apply in_or_app. left. exact Hin1.
        -- intros a v Hin Hq. destruct (Hsplit a v Hin) as [Hs|[-> ->]]; [exact (Hmax a v Hs Hq)|].
           eapply Qle_trans; [exact H2 | apply Qlt_le_weak, Hbs].
      * destruct Hinv as (Hbs & Hlow). split; [exact Hbs|].
        intros a v Hin Hq. destruct (Hsplit a v Hin) as [Hs|[-> ->]];
          [exact (Hlow a v Hs Hq) | exact H2].
    + apply Qgtb_false in H1. destruct bm as [p|].
      * destruct Hinv as (Hbs & (a1 & v1 & Hin1 & Hq1 & Hp & Hs1) & Hmax).
        split; [exact Hbs|]. split.
        -- exists a1, v1. repeat split; auto. apply in_or_app. left. exact Hin1.
        -- intros a v Hin Hq. destruct (Hsplit a v Hin) as [Hs|[-> ->]];
             [exact (Hmax a v Hs Hq) | exact H1].
      * destruct Hinv as (Hbs & Hlow). split; [exact Hbs|].
        intros a v Hin Hq. destruct (Hsplit a v Hin) as [Hs|[-> ->]]; [exact (Hlow a v Hs Hq)|].
        rewrite Hbs in H1. eapply Qle_trans; [exact H1 | discriminate].
  - destruct bm as [p|].
    + destruct Hinv as (Hbs & (a1 & v1 & Hin1 & Hq1 & Hp & Hs1) & Hmax).
      split; [exact Hbs|]. split.
      * exists a1, v1. repeat split; auto. apply in_or_app. left. exact Hin1.
      * intros a v Hin Hq. destruct (Hsplit a v Hin) as [Hs|[-> ->]];
          [exact (Hmax a v Hs Hq) | congruence].
    + destruct Hinv as (Hbs & Hlow). split; [exact Hbs|].
      intros a v Hin Hq. destruct (Hsplit a v Hin) as [Hs|[-> ->]];
        [exact (Hlow a v Hs Hq) | congruence].
Qed.

Lemma fuzzy_fold_inv bucketName lowerName es :
  forall seen best,
    fuzzy_inv bucketName lowerName seen best ->
    fuzzy_inv bucketName lowerName (seen ++ es)
              (fold_left (fuzzy_step bucketName lowerName) es best).
Proof.
  induction es as [|e es IH]; intros seen best Hinv; simpl.
  - rewrite app_nil_r. exact Hinv.
  - replace (seen ++ e :: es) with ((seen ++ [e]) ++ es)
      by (rewrite <- app_assoc; reflexivity).
    apply IH, fuzzy_step_inv, Hinv.
Qed.

Lemma fuzzyMatch_inv lookup bucketName :
  fuzzy_inv bucketName (toLowerCase bucketName) (object_entries lookup)
            (fuzzyMatch lookup bucketName).
Proof.
  unfold fuzzyMatch.
  apply (fuzzy_fold_inv bucketName (toLowerCase bucketName) (object_entries lookup) []).
  split; [reflexivity | intros a v []].
Qed.

Lemma lookup_entry_bucket buckets a v :
  In (a, v) (object_entries (buildBucketLookup buckets)) ->
  exists b, In b buckets /\ a = toLowerCase (Bucket.name b)
            /\ v = JsObject (bucket_object b).
Proof.
  intros H. apply object_entries_In in H.
  exact (proj2 (proj2 (proj2 (buildBucketLookup_shape buckets))) a v H).
Qed.

Lemma lookup_bucket_entry buckets b :
  In b buckets -> proto_key (toLowerCase (Bucket.name b)) = false ->
  exists v, In (toLowerCase (Bucket.name b), v)
               (object_entries (buildBucketLookup buckets)).
Proof.
  intros Hin Hne. destruct (last_named_some _ buckets b Hin eq_refl) as (b' & Hb').
  exists (JsObject (bucket_object b')). apply object_entries_In, get_own_In.
  rewrite (proj1 (proj2 (buildBucketLookup_shape buckets)) _ Hne), Hb'. reflexivity.
Qed.

(** On Basic Latin names and labels every runtime computes what the
    [latin1_runtime] of its kind does. *)
Lemma buildBucketLookup_ascii legacy buckets :
  legacy_proto = legacy ->
  (forall b, In b buckets -> ascii_text (Bucket.name b)) ->
  buildBucketLookup buckets = buildBucketLookup (JS := latin1_runtime legacy) buckets.
Proof.
  intros Hl. unfold buildBucketLookup. generalize empty_object.
  induction buckets as [|b buckets IH]; intros o Ha; simpl; [reflexivity|].
  rewrite (toLowerCase_ascii _ (Ha b (or_introl eq_refl))), (js_set_flag legacy _ _ _ Hl).
  apply IH. intros b' Hb'. apply Ha. right. exact Hb'.
Qed.

Lemma fuzzyMatch_ascii legacy lookup bucketName :
  ascii_text bucketName ->
  fuzzyMatch lookup bucketName
  = fuzzyMatch (JS := latin1_runtime legacy) lookup bucketName.
Proof. intros Ha. unfold fuzzyMatch. rewrite (toLowerCase_ascii _ Ha). reflexivity. Qed.

Lemma resolveBucket_ascii legacy lookup bucketName :
  legacy_proto = legacy ->
  ascii_text bucketName ->
  resolveBucket lookup bucketName
  = resolveBucket (JS := latin1_runtime legacy) lookup bucketName.
Proof.
  intros Hl Ha. unfold resolveBucket.
  rewrite (fuzzyMatch_ascii legacy _ _ Ha), (toLowerCase_ascii _ Ha),
    (js_get_flag legacy _ _ Hl).
  reflexivity.
Qed.

Lemma bucketOutcome_ascii legacy lookup bucketName :
  legacy_proto = legacy ->
  ascii_text bucketName ->
  bucketOutcome lookup bucketName
  = bucketOutcome (JS := latin1_runtime legacy) lookup bucketName.
Proof.
  intros Hl Ha. unfold bucketOutcome.
  rewrite (fuzzyMatch_ascii legacy _ _ Ha), (toLowerCase_ascii _ Ha),
    (js_get_flag legacy _ _ Hl).
  reflexivity.
Qed.

Lemma buildBucketMapping_ascii legacy lookup names :
  legacy_proto = legacy ->
  (forall n, In n names -> ascii_text n) ->
  buildBucketMapping lookup names
  = buildBucketMapping (JS := latin1_runtime legacy) lookup names.
Proof.
  intros Hl. unfold buildBucketMapping. generalize empty_object.
  induction names as [|n names IH]; intros o Ha; simpl; [reflexivity|].
  rewrite (resolveBucket_ascii legacy _ _ Hl (Ha n (or_introl eq_refl))),
    (js_set_flag legacy _ _ _ Hl).
  apply IH. intros n' Hn'. apply Ha. right. exact Hn'.
Qed.

Lemma uniqueBucketNames_from tasks :
  forall acc n,
    In n (fold_left
      (fun names t =>
         if truthy (bucketName (task t))
         then set_add names (or_empty (bucketName (task t))) else names)
      tasks acc) ->
    In n acc \/ exists t, In t tasks /\ bucketName (task t) = Some n.
Proof.
  induction tasks as [|t tasks IH]; intros acc n H; simpl in H; [left; exact H|].
  destruct (IH _ _ H) as [Hacc|(t' & Hin & Hb)].
  - destruct (bucketName (task t)) as [l|] eqn:E; simpl in Hacc; [|left; exact Hacc].
    destruct (nonempty l); [|left; exact Hacc].
    unfold set_add in Hacc. case_bool_decide; [left; exact Hacc|].
    apply in_app_or in Hacc as [?|[<-|[]]]; [left; assumption|].
    right. exists t. split; [left; reflexivity | exact E].
  - right. exists t'. split; [right; exact Hin | exact Hb].
Qed.

Lemma enrichBucket_flag legacy mapping t p :
  legacy_proto = legacy ->
  enrichBucket mapping t p = enrichBucket (JS := latin1_runtime legacy) mapping t p.
Proof.
  intros Hl. unfold enrichBucket. rewrite (js_get_flag legacy _ _ Hl). reflexivity.
Qed.

Lemma lookupBuckets_ascii legacy tasks buckets :
  legacy_proto = legacy ->
  (forall b, In b buckets -> ascii_text (Bucket.name b)) ->
  (forall t label, In t tasks -> bucketName (task t) = Some label -> ascii_text label) ->
  lookupBuckets tasks buckets = lookupBuckets (JS := latin1_runtime legacy) tasks buckets.
Proof.
  intros Hl Hb Ht. unfold lookupBuckets.
  rewrite (buildBucketLookup_ascii legacy buckets Hl Hb).
  rewrite (buildBucketMapping_ascii legacy _ _ Hl).
  - apply map_ext. intros t. apply enrichBucket_flag, Hl.
  - intros n Hn. destruct (uniqueBucketNames_from tasks [] n Hn) as [[]|(t & Hin & E)].
    exact (Ht t n Hin E).
Qed.

(** What the fuzzy pass returns when the exact lookup finds nothing. *)
Lemma fuzzy_pass buckets bucketName :
  js_truthy (js_get (buildBucketLookup buckets) (toLowerCase bucketName)) = false ->
  resolveBucket (buildBucketLookup buckets) bucketName
  = fst (fuzzyMatch (buildBucketLookup buckets) bucketName)
  /\ match fuzzyMatch (buildBucketLookup buckets) bucketName with
     | (Some m, score) =>
         bucketOutcome (buildBucketLookup buckets) bucketName = FuzzyMatch m score
         /\ (1 # 2 < score)%Q
         /\ (exists b,
               In b buckets
               /\ contained (toLowerCase bucketName) (toLowerCase (Bucket.name b)) = true
               /\ m = with_exactMatch (JsObject (bucket_object b)) false
               /\ score = length_ratio (length bucketName)
                                       (length (toLowerCase (Bucket.name b))))
         /\ (forall b,
               In b buckets -> proto_key (toLowerCase (Bucket.name b)) = false ->
               contained (toLowerCase bucketName) (toLowerCase (Bucket.name b)) = true ->
               (length_ratio (length bucketName)
                             (length (toLowerCase (Bucket.name b))) <= score)%Q)
     | (None, _) =>
         bucketOutcome (buildBucketLookup buckets) bucketName = NoMatch
         /\ (forall b,
               In b buckets -> proto_key (toLowerCase (Bucket.name b)) = false ->
               contained (toLowerCase bucketName) (toLowerCase (Bucket.name b)) = true ->
               (length_ratio (length bucketName)
                             (length (toLowerCase (Bucket.name b))) <= 1 # 2)%Q)
     end.
Proof.
  intros Hmiss. unfold resolveBucket, bucketOutcome.
  rewrite Hmiss. split; [reflexivity|].
  pose proof (fuzzyMatch_inv (buildBucketLookup buckets) bucketName) as Hinv.
  destruct (fuzzyMatch (buildBucketLookup buckets) bucketName) as [[m|] score];
    unfold fuzzy_inv in Hinv; simpl in Hinv.
  - destruct Hinv as (Hhalf & (a & v & Hin & Hq & Hm & Hs) & Hmax).
    split; [reflexivity|]. split; [exact Hhalf|]. split.
    + destruct (lookup_entry_bucket buckets a v Hin) as (b & Hb & -> & ->).
      exists b. repeat split; assumption.
    + intros b Hb Hne Hq'. destruct (lookup_bucket_entry buckets b Hb Hne) as (v' & Hin').
      exact (Hmax _ v' Hin' Hq').
  - destruct Hinv as (_ & Hlow). split; [reflexivity|].
    intros b Hb Hne Hq'. destruct (lookup_bucket_entry buckets b Hb Hne) as (v' & Hin').
    exact (Hlow _ v' Hin' Hq').
Qed.

(** [{ ...bucket, exactMatch: e }] for a bucket of the snapshot. *)
Lemma with_exactMatch_bucket b e :
  with_exactMatch (JsObject (bucket_object b)) e
  = [(u16 "id", JsString (Bucket.id b)); (u16 "name", JsString (Bucket.name b));
     (u16 "planId", JsString (Bucket.planId b)); (u16 "exactMatch", JsBool e)].
Proof. reflexivity. Qed.

Lemma last_named_none k buckets :
  (forall b, In b buckets -> toLowerCase (Bucket.name b) <> k) ->
  last_named k buckets = None.
Proof.
  intros H. destruct (last_named k buckets) as [b|] eqn:E; [|reflexivity].
  apply last_named_In in E as [Hin Hk]. contradiction (H b Hin Hk).
Qed.

(** The exact lookup finds nothing under a key that no bucket has as
    its lower-cased name and that names no property of
    [Object.prototype]. *)
Lemma exact_lookup_miss buckets k :
  (forall b, In b buckets -> toLowerCase (Bucket.name b) <> k) ->
  (forall b, In b buckets -> proto_key (toLowerCase (Bucket.name b)) = false) ->
  proto_key k = false -> k <> u16 "constructor" -> k ∉ object_prototype_methods ->
  js_get (buildBucketLookup buckets) k = JsUndefined.
Proof.
  intros Hno Hb Hk Hc Hm.
  destruct (buildBucketLookup_shape buckets) as (_ & Hown & Hproto & _).
  assert (Hp : proto (buildBucketLookup buckets) = ProtoObjectPrototype).
  { rewrite Hproto. destruct legacy_proto eqn:Hl; [|reflexivity].
    rewrite last_named_none; [reflexivity|].
    intros b Hin Hn. specialize (Hb b Hin). unfold proto_key in Hb.
    rewrite Hl, Hn, str_eqb_refl in Hb. discriminate Hb. }
  unfold js_get. rewrite (Hown k Hk), (last_named_none k buckets Hno), Hp. simpl.
  unfold object_prototype_get. unfold proto_key in Hk.
  rewrite Hk, (str_eqb_neq _ _ Hc).
  rewrite bool_decide_eq_false_2 by exact Hm. reflexivity.
Qed.

(** C3, amended: for a label that no bucket of the snapshot equals
    without regard to case, and whose lower-cased form names no property
    of [Object.prototype], the outcome is [FuzzyMatch] or [NoMatch].  A
    fuzzy match is a bucket of the snapshot, copied with
    [exactMatch: false], whose lower-cased name is in containment
    relation with the lower-cased label; its score is the smaller over
    the larger of the length of the label and the length of the
    lower-cased name, is greater than one half, and is the largest among
    the buckets in that relation.  [NoMatch] means that no bucket in that
    relation has a score above one half.  Lower-casing keeps the length
    of a name of Basic Latin.  [Dev] against [Development] is no match,
    of score 3/11; [Design Team] against [Design] is a fuzzy match of
    score 6/11. *)
Theorem fuzzy_bucket_match :
  (forall buckets label,
     (forall b, In b buckets -> toLowerCase (Bucket.name b) <> toLowerCase label) ->
     (forall b, In b buckets -> proto_key (toLowerCase (Bucket.name b)) = false) ->
     proto_key (toLowerCase label) = false ->
     toLowerCase label <> u16 "constructor" ->
     toLowerCase label ∉ object_prototype_methods ->
     (bucketOutcome (buildBucketLookup buckets) label = NoMatch
      \/ exists m score,
           bucketOutcome (buildBucketLookup buckets) label = FuzzyMatch m score)
     /\ (forall m score,
           bucketOutcome (buildBucketLookup buckets) label = FuzzyMatch m score ->
           resolveBucket (buildBucketLookup buckets) label = Some m
           /\ (1 # 2 < score)%Q
           /\ (exists b,
                 In b buckets
                 /\ contained (toLowerCase label) (toLowerCase (Bucket.name b)) = true
                 /\ score = length_ratio (length label)
                                         (length (toLowerCase (Bucket.name b)))
                 /\ m = [(u16 "id", JsString (Bucket.id b));
                         (u16 "name", JsString (Bucket.name b));
                         (u16 "planId", JsString (Bucket.planId b));
                         (u16 "exactMatch", JsBool false)])
           /\ (forall b,
                 In b buckets ->
                 contained (toLowerCase label) (toLowerCase (Bucket.name b)) = true ->
                 (length_ratio (length label)
                               (length (toLowerCase (Bucket.name b))) <= score)%Q))
     /\ (bucketOutcome (buildBucketLookup buckets) label = NoMatch ->
         resolveBucket (buildBucketLookup buckets) label = None
         /\ forall b,
              In b buckets ->
              contained (toLowerCase label) (toLowerCase (Bucket.name b)) = true ->
              (length_ratio (length label)
                            (length (toLowerCase (Bucket.name b))) <= 1 # 2)%Q))
  /\ (forall s, ascii_text s -> length (toLowerCase s) = length s)
  /\ (bucketOutcome (buildBucketLookup [bucket_named (u16 "b1") (u16 "Development")])
                    (u16 "Dev") = NoMatch
      /\ contained (u16 "dev") (u16 "development") = true
      /\ length_ratio (length (u16 "Dev")) (length (u16 "Development")) = 3 # 11)
  /\ (bucketOutcome (buildBucketLookup [bucket_named (u16 "b2") (u16 "Design")])
                    (u16 "Design Team")
      = FuzzyMatch
          [(u16 "id", JsString (u16 "b2")); (u16 "name", JsString (u16 "Design"));
           (u16 "planId", JsString (u16 "plan")); (u16 "exactMatch", JsBool false)]
          (6 # 11)
      /\ length_ratio (length (u16 "Design Team")) (length (u16 "Design")) = 6 # 11).
Proof.
  split; [|split; [|split]].
  - intros buckets label Hno Hb Hk Hc Hm.
    pose proof (exact_lookup_miss buckets (toLowerCase label) Hno Hb Hk Hc Hm) as Hget.
    assert (Hmiss : js_truthy (js_get (buildBucketLookup buckets) (toLowerCase label))
                    = false) by (rewrite Hget; reflexivity).
    destruct (fuzzy_pass buckets label Hmiss) as [Hres Hpass].
    destruct (fuzzyMatch (buildBucketLookup buckets) label) as [[m0|] score0].
    + destruct Hpass as (Hout & Hhalf & (b & Hin & Hq & -> & ->) & Hmax).
      rewrite Hout. split; [right; eexists _, _; reflexivity|]. split.
      * intros m score [= <- <-]. split; [exact Hres|]. split; [exact Hhalf|]. split.
        -- exists b. split; [exact Hin|]. split; [exact Hq|]. split; [reflexivity|].
           apply with_exactMatch_bucket.
        -- intros b' Hin' Hq'. exact (Hmax b' Hin' (Hb b' Hin') Hq').
      * intros H. discriminate H.
    + destruct Hpass as (Hout & Hlow).
      rewrite Hout. split; [left; reflexivity|]. split.
      * intros m score H. discriminate H.
      * intros _. split; [exact Hres|].
        intros b' Hin' Hq'. exact (Hlow b' Hin' (Hb b' Hin') Hq').
  - intros s Hs. rewrite (toLowerCase_ascii s Hs). apply length_map.
  - destruct legacy_proto eqn:Hl;
      rewrite (buildBucketLookup_ascii _ _ Hl) by (intros b [<-|[]]; reflexivity);
      rewrite (bucketOutcome_ascii _ _ _ Hl) by reflexivity;
      repeat split; vm_compute; reflexivity.
  - destruct legacy_proto eqn:Hl;
      rewrite (buildBucketLookup_ascii _ _ Hl) by (intros b [<-|[]]; reflexivity);
      rewrite (bucketOutcome_ascii _ _ _ Hl) by reflexivity;
      split; vm_compute; reflexivity.
Qed.

(** C6: the lookup object maps the lower-cased name of a bucket to the
    last bucket of the snapshot with that lower-cased name, and a task
    whose label equals the name of a bucket up to case receives the id
    and the name of that last bucket, its own label, and
    [exactMatch = true]; nothing in this is partial. *)
Theorem exact_bucket_match buckets b label :
  In b buckets ->
  toLowerCase label = toLowerCase (Bucket.name b) ->
  exists winner,
    last_named (toLowerCase label) buckets = Some winner
    /\ js_get (buildBucketLookup buckets) (toLowerCase label)
       = JsObject (bucket_object winner)
    /\ bucketOutcome (buildBucketLookup buckets) label
       = ExactMatch (with_exactMatch (JsObject (bucket_object winner)) true)
    /\ forall tasks i t,
         nth_error tasks i = Some t ->
         bucketName (task t) = Some label -> label <> [] ->
         nth_error (lookupBuckets tasks buckets) i
         = Some (set_bucketInfo
                   {| BucketInfo.id := JsString (Bucket.id winner);
                      BucketInfo.name := JsString (Bucket.name winner);
                      BucketInfo.originalName := label;
                      BucketInfo.exactMatch := JsBool true |} t).
Proof.
  intros Hb Hcase.
  destruct (last_named_some _ buckets b Hb (eq_sym Hcase)) as (winner & Hw).
  pose proof (buildBucketLookup_get buckets _ winner Hw) as Hget.
  exists winner. split; [exact Hw|]. split; [exact Hget|]. split.
  - unfold bucketOutcome. rewrite Hget. reflexivity.
  - intros tasks i t Hi Hlabel Hne. unfold lookupBuckets.
    rewrite (map_nth_error _ _ _ Hi). f_equal.
    pose proof (enrichBucket_of_label (buildBucketLookup buckets) tasks t label
                  (nth_error_In _ _ Hi) Hlabel Hne) as Henrich.
    unfold resolveBucket in Henrich. rewrite Hget in Henrich. simpl in Henrich.
    exact (Henrich eq_refl).
Qed.

Lemma empty_roster_no_match name :
  findMemberMatches name (buildMemberIndex []) = [].
Proof.
  unfold findMemberMatches. rewrite fold_match_key_miss by (intros; apply lookup_empty).
  simpl. destruct (length (tokens (generateAssigneeKeys name)) =? 0)%nat; reflexivity.
Qed.

Lemma empty_object_miss k :
  proto_key k = false -> k <> u16 "constructor" -> k ∉ object_prototype_methods ->
  js_get empty_object k = JsUndefined.
Proof.
  intros Hkey Hc Hm. unfold js_get, object_prototype_get. simpl.
  unfold proto_key in Hkey. rewrite Hkey, (str_eqb_neq _ _ Hc).
  rewrite bool_decide_eq_false_2 by exact Hm. reflexivity.
Qed.

(** C9: against an empty roster every name is unresolved.  Against an
    empty bucket snapshot a label is marked as failed when its
    lower-cased form is not the name of a property of [Object.prototype];
    the label [constructor] is not marked: the read
    [bucketLookup[lowerName]] returns the inherited
    [Object.prototype.constructor], and the task receives a [bucketInfo]
    without id and without name. *)
Theorem empty_snapshots :
  (forall name,
     evaluateAssignee (buildMemberIndex []) name = unresolved_result
     /\ outcome (evaluateAssignee (buildMemberIndex []) name) = Unresolved)
  /\ (forall tasks i t label,
        nth_error tasks i = Some t ->
        bucketName (task t) = Some label -> label <> [] ->
        proto_key (toLowerCase label) = false ->
        toLowerCase label <> u16 "constructor" ->
        toLowerCase label ∉ object_prototype_methods ->
        bucketOutcome (buildBucketLookup []) label = NoMatch
        /\ nth_error (lookupBuckets tasks []) i = Some (set_bucketLookupFailed true t))
  /\ lookupBuckets [spread_task (task_with None None (Some (u16 "constructor")))] []
     = [set_bucketInfo
          {| BucketInfo.id := JsUndefined; BucketInfo.name := JsUndefined;
             BucketInfo.originalName := u16 "constructor";
             BucketInfo.exactMatch := JsBool true |}
          (spread_task (task_with None None (Some (u16 "constructor"))))].
Proof.
  split; [|split].
  - intros name. rewrite (evaluateAssignee_no_match _ _ (empty_roster_no_match name)).
    split; reflexivity.
  - intros tasks i t label Hi Hlabel Hne Hkey Hc Hm.
    pose proof (empty_object_miss _ Hkey Hc Hm) as Hmiss. split.
    + unfold bucketOutcome. cbn [buildBucketLookup fold_left]. rewrite Hmiss. reflexivity.
    + unfold lookupBuckets. rewrite (map_nth_error _ _ _ Hi). f_equal.
      pose proof (enrichBucket_of_label (buildBucketLookup []) tasks t label
                    (nth_error_In _ _ Hi) Hlabel Hne) as Henrich.
      unfold resolveBucket in Henrich. cbn [buildBucketLookup fold_left] in *.
      rewrite Hmiss in Henrich. exact Henrich.
  - destruct legacy_proto eqn:Hl; rewrite (lookupBuckets_ascii _ _ _ Hl);
      [vm_compute; reflexivity | intros b [] | intros t label [<-|[]] [= <-]; reflexivity
      |vm_compute; reflexivity | intros b [] | intros t label [<-|[]] [= <-]; reflexivity].
Qed.

(** ** What the lookup stores *)

Lemma decimal_digits_head fuel :
  forall n acc,
    exists d r, decimal_digits (S fuel) n acc = d :: r /\ (d < 58)%N.
Proof.
  induction fuel as [|fuel IH]; intros n acc.
  - simpl. exists (48 + n mod 10)%N, acc.
    split; [destruct (n <? 10)%N; reflexivity|].
    pose proof (N.mod_upper_bound n 10). lia.
  - change (decimal_digits (S (S fuel)) n acc)
      with (if (n <? 10)%N then (48 + n mod 10)%N :: acc
            else decimal_digits (S fuel) (n / 10)%N ((48 + n mod 10)%N :: acc)).
    destruct (n <? 10)%N; [|apply IH].
    exists (48 + n mod 10)%N, acc. split; [reflexivity|].
    pose proof (N.mod_upper_bound n 10). lia.
Qed.

Lemma decimal_not_proto n : decimal n <> PROTO.
Proof.
  unfold decimal.
  destruct (decimal_digits_head (N.to_nat (N.log2 n)) n []) as (d & r & -> & Hd).
  intros H. injection H as -> _. vm_compute in Hd. discriminate Hd.
Qed.

Lemma spread_string_no_proto s :
  forall g : nat -> nat,
    get_own (imap (fun i c => (decimal (N.of_nat (g i)), JsString [c])) s) PROTO = None.
Proof.
  induction s as [|c s IH]; intros g; [reflexivity|].
  simpl. rewrite (str_eqb_neq _ _ (decimal_not_proto (N.of_nat (g 0%nat)))).
  exact (IH (fun i => g (S i))).
Qed.

Lemma spread_props_no_proto v :
  (forall props, v = JsObject props -> get_own props PROTO = None) ->
  forall e, get_own (with_exactMatch v e) PROTO = None.
Proof.
  intros Hv e. unfold with_exactMatch.
  rewrite get_set_own_ne by (vm_compute; discriminate).
  destruct v as [| |b|s|f| |props]; try reflexivity.
  - exact (spread_string_no_proto s (fun i => i)).
  - exact (Hv props eq_refl).
Qed.

Lemma bucket_object_strings b k v :
  get_own (bucket_object b) k = Some v -> exists s, v = JsString s.
Proof.
  unfold bucket_object. simpl.
  repeat (destruct (str_eqb _ k); [intros [= <-]; eexists; reflexivity|]).
  discriminate.
Qed.

(** An object that the exact lookup finds is a bucket of the snapshot. *)
Lemma lookup_value_props buckets k props :
  js_get (buildBucketLookup buckets) k = JsObject props ->
  exists b, props = bucket_object b.
Proof.
  destruct (buildBucketLookup_shape buckets) as (_ & _ & Hproto & Hvals).
  assert (Hinh : forall p, object_prototype_get p k = JsObject props ->
                           p = ProtoObject props).
  { intros p. unfold object_prototype_get.
    destruct (legacy_proto && str_eqb k PROTO).
    - destruct p; simpl; try discriminate. intros [= ->]. reflexivity.
    - destruct (str_eqb k (u16 "constructor")); [discriminate|].
      destruct (bool_decide (k ∈ object_prototype_methods)); discriminate. }
  unfold js_get. destruct (get_own (own (buildBucketLookup buckets)) k) as [v|] eqn:E.
  - intros ->. apply get_own_In in E. destruct (Hvals _ _ E) as (b & _ & _ & Hv).
    injection Hv as ->. exists b. reflexivity.
  - rewrite Hproto.
    destruct legacy_proto; [destruct (last_named PROTO buckets) as [b|]|].
    + destruct (get_own (bucket_object b) k) as [v|] eqn:Eb.
      * intros ->. destruct (bucket_object_strings b k _ Eb) as [s Hs]. discriminate Hs.
      * intros H. apply Hinh in H. injection H as <-. exists b. reflexivity.
    + intros H. apply Hinh in H. discriminate H.
    + intros H. apply Hinh in H. discriminate H.
Qed.

(** No stored match has a property named [__proto__]. *)
Lemma resolveBucket_no_proto buckets label m :
  resolveBucket (buildBucketLookup buckets) label = Some m -> get_own m PROTO = None.
Proof.
  unfold resolveBucket.
  destruct (js_truthy (js_get (buildBucketLookup buckets) (toLowerCase label))).
  - intros [= <-]. apply spread_props_no_proto. intros props Hp.
    destruct (lookup_value_props buckets _ props Hp) as [b ->]. reflexivity.
  - pose proof (fuzzyMatch_inv (buildBucketLookup buckets) label) as Hinv.
    destruct (fuzzyMatch (buildBucketLookup buckets) label) as [[m'|] score];
      simpl; [|discriminate].
    intros [= <-]. unfold fuzzy_inv in Hinv. simpl in Hinv.
    destruct Hinv as (_ & (a & v & Hin & _ & -> & _) & _).
    destruct (lookup_entry_bucket buckets a v Hin) as (b & _ & _ & ->). reflexivity.
Qed.

(** The stored value, from the outcome. *)
Lemma resolveBucket_outcome lookup label :
  resolveBucket lookup label
  = match bucketOutcome lookup label with
    | ExactMatch m | FuzzyMatch m _ => Some m
    | NoMatch => None
    end.
Proof.
  unfold resolveBucket, bucketOutcome.
  destruct (js_truthy (js_get lookup (toLowerCase label))); [reflexivity|].
  destruct (fuzzyMatch lookup label) as [[m|] score]; reflexivity.
Qed.

End BucketProperties.

(** ** Frame of the two operations *)

Section FrameProperties.
Context `{JS : JsRuntime}.

Lemma enrichAssignees_frame idx t p :
  task (enrichAssignees idx t p) = task p
  /\ bucketInfo (enrichAssignees idx t p) = bucketInfo p
  /\ bucketLookupFailed (enrichAssignees idx t p) = bucketLookupFailed p.
Proof.
  unfold enrichAssignees, write_if_any.
  repeat match goal with
  | |- context [match ?x with _ => _ end] => destruct x
  end; simpl; repeat split; reflexivity.
Qed.

Lemma enrichBucket_frame mapping t :
  same_but_bucket_fields (enrichBucket mapping t t) t
  /\ (enrichBucket mapping t t = t
      \/ (exists info, enrichBucket mapping t t = set_bucketInfo info t)
      \/ enrichBucket mapping t t = set_bucketLookupFailed true t).
Proof.
  unfold enrichBucket, same_but_bucket_fields.
  destruct (truthy (bucketName (task t))); [|repeat split; left; reflexivity].
  destruct (js_truthy _); simpl; repeat split; right; [left; eexists|right]; reflexivity.
Qed.

Lemma for_each_read {A} (inj : A -> StoreObject) (read : Ref -> M A) st refs objects :
  (forall r x, st !! r = Some (inj x) -> read r st = Some (x, st)) ->
  denotes inj st refs objects ->
  for_each read refs st = Some (objects, st).
Proof.
  intros Hread. induction 1 as [|r x refs objects Hr _ IH]; simpl; [reflexivity|].
  unfold bind. rewrite (Hread r x Hr), IH. reflexivity.
Qed.

Lemma denotes_app {A} (inj : A -> StoreObject) st extra refs objects :
  denotes inj st refs objects -> denotes inj (st ++ extra) refs objects.
Proof.
  unfold denotes. intros H. eapply Forall2_impl; [exact H|].
  intros r x Hr. simpl in *. apply lookup_app_l_Some, Hr.
Qed.

Lemma copy_step {A} (read : Ref -> M A)
    (copy : A -> ProcessedTask) (writes : A -> ProcessedTask -> ProcessedTask)
    st r x :
  read r st = Some (x, st) ->
  bind (read r) (fun t =>
    bind (alloc (ProcessedObject (copy t))) (fun fresh =>
    bind (update_processed fresh (writes t)) (fun _ => ret fresh))) st
  = Some (length st, st ++ [ProcessedObject (writes x (copy x))]).
Proof.
  intros Hread. unfold bind, alloc, update_processed, ret. rewrite Hread.
  rewrite (list_lookup_middle st [] _ (length st) eq_refl).
  rewrite insert_app_r_alt, Nat.sub_diag by lia. reflexivity.
Qed.

(** A loop that copies each task and writes on the copy appends the
    written copies to the store and returns references to them. *)
Lemma copy_loop {A} (inj : A -> StoreObject) (read : Ref -> M A)
    (copy : A -> ProcessedTask) (writes : A -> ProcessedTask -> ProcessedTask)
    st refs objects :
  (forall st' r x, st' !! r = Some (inj x) -> read r st' = Some (x, st')) ->
  denotes inj st refs objects ->
  forall extra,
    for_each
      (fun taskRef =>
         bind (read taskRef) (fun t =>
         bind (alloc (ProcessedObject (copy t))) (fun fresh =>
         bind (update_processed fresh (writes t)) (fun _ => ret fresh))))
      refs (st ++ extra)
    = Some (seq (length (st ++ extra)) (length refs),
            (st ++ extra)
            ++ List.map (fun t => ProcessedObject (writes t (copy t))) objects).
Proof.
  intros Hread. induction 1 as [|r x refs objects Hr _ IH]; intros extra.
  - simpl. rewrite app_nil_r. reflexivity.
  - cbn [for_each]. unfold bind at 1.
    rewrite (copy_step read copy writes (st ++ extra) r x)
      by (apply Hread, lookup_app_l_Some, Hr).
    unfold bind at 1. rewrite <- app_assoc, IH. unfold ret.
    rewrite !length_app. cbn [length seq List.map].
    rewrite <- !app_assoc, Nat.add_assoc, Nat.add_1_r. reflexivity.
Qed.

Lemma store_extension (st extra : Store) r o :
  st !! r = Some o -> (st ++ extra) !! r = Some o.
Proof. apply lookup_app_l_Some. Qed.

(** C10, amended: both operations return one record per input task, in
    order.  [lookupAssignees] keeps every property of the parsed task
    and writes assignee properties only.  [lookupBuckets] keeps every
    property except [bucketInfo] and [bucketLookupFailed]: it returns a
    task without a bucket label as it is; for a task with a label it
    writes [bucketInfo], read from the match and the label, when the
    outcome of the lookup for the label is an exact or a fuzzy match, and
    [bucketLookupFailed] when the outcome is no match, and leaves the
    other of the two as it was.  Run on a store, each appends its results
    to the store and leaves every object that was there as it was: the
    input tasks, the roster and the bucket snapshot among them. *)
Theorem lookups_frame :
  (forall tasks members,
     length (lookupAssignees tasks members) = length tasks
     /\ forall i t, nth_error tasks i = Some t ->
          exists p, nth_error (lookupAssignees tasks members) i = Some p
                    /\ task p = t
                    /\ bucketInfo p = None /\ bucketLookupFailed p = None)
  /\ (forall tasks buckets,
        length (lookupBuckets tasks buckets) = length tasks
        /\ forall i t, nth_error tasks i = Some t ->
             exists p, nth_error (lookupBuckets tasks buckets) i = Some p
                       /\ same_but_bucket_fields p t
                       /\ match bucketName (task t) with
                          | Some label =>
                              if nonempty label then
                                match bucketOutcome (buildBucketLookup buckets) label with
                                | ExactMatch m | FuzzyMatch m _ =>
                                    p = set_bucketInfo
                                          {| BucketInfo.id := js_field (JsObject m) FId;
                                             BucketInfo.name := js_field (JsObject m) FName;
                                             BucketInfo.originalName := label;
                                             BucketInfo.exactMatch :=
                                               js_field (JsObject m) FExactMatch |} t
                                | NoMatch => p = set_bucketLookupFailed true t
                                end
                              else p = t
                          | None => p = t
                          end)
  /\ (forall st taskRefs tasks memberRefs members,
        denotes ParsedObject st taskRefs tasks ->
        denotes MemberObject st memberRefs members ->
        exists st',
          lookupAssignees_in_store taskRefs memberRefs st
          = Some (seq (length st) (length taskRefs), st')
          /\ st' = st ++ List.map ProcessedObject (lookupAssignees tasks members)
          /\ forall r o, st !! r = Some o -> st' !! r = Some o)
  /\ (forall st taskRefs tasks bucketRefs buckets,
        denotes ProcessedObject st taskRefs tasks ->
        denotes BucketObject st bucketRefs buckets ->
        exists st',
          lookupBuckets_in_store taskRefs bucketRefs st
          = Some (seq (length st) (length taskRefs), st')
          /\ st' = st ++ List.map ProcessedObject (lookupBuckets tasks buckets)
          /\ forall r o, st !! r = Some o -> st' !! r = Some o).
Proof.
  split; [|split; [|split]].
  - intros tasks members. unfold lookupAssignees. split; [apply length_map|].
    intros i t Hi. eexists. split; [exact (map_nth_error _ _ _ Hi)|].
    unfold processAssignees.
    destruct (enrichAssignees_frame (buildMemberIndex members) t (spread_task t))
      as (H1 & H2 & H3).
    rewrite H1, H2, H3. repeat split; reflexivity.
  - intros tasks buckets. unfold lookupBuckets. split; [apply length_map|].
    intros i t Hi. eexists. split; [exact (map_nth_error _ _ _ Hi)|].
    split; [apply enrichBucket_frame|].
    destruct (bucketName (task t)) as [label|] eqn:Hb.
    2: { unfold enrichBucket. rewrite Hb. reflexivity. }
    destruct (nonempty label) eqn:Hne.
    2: { unfold enrichBucket. rewrite Hb. simpl. rewrite Hne. reflexivity. }
    assert (Hlabel : label <> []) by (intros ->; discriminate Hne).
    pose proof (enrichBucket_of_label (buildBucketLookup buckets) tasks t label
                  (nth_error_In _ _ Hi) Hb Hlabel) as Hen.
    pose proof (resolveBucket_no_proto buckets label) as Hnp.
    rewrite resolveBucket_outcome in Hen, Hnp.
    destruct (bucketOutcome (buildBucketLookup buckets) label) as [m|m score|].
    + exact (Hen (Hnp m eq_refl)).
    + exact (Hen (Hnp m eq_refl)).
    + exact Hen.
  - intros st taskRefs tasks memberRefs members Ht Hm.
    exists (st ++ List.map ProcessedObject (lookupAssignees tasks members)).
    split; [|split; [reflexivity | intros r o; apply store_extension]].
    unfold lookupAssignees_in_store. unfold bind at 1.
    rewrite (for_each_read MemberObject read_member st memberRefs members);
      [|intros r x Hr; unfold read_member; rewrite Hr; reflexivity | exact Hm].
    pose proof (copy_loop ParsedObject read_parsed spread_task
                  (enrichAssignees (buildMemberIndex members)) st taskRefs tasks) as Hloop.
    assert (Hread : forall st' r x,
              st' !! r = Some (ParsedObject x) -> read_parsed r st' = Some (x, st'))
      by (intros st' r x Hr; unfold read_parsed; rewrite Hr; reflexivity).
    specialize (Hloop Hread Ht []).
    rewrite app_nil_r in Hloop. rewrite Hloop.
    unfold lookupAssignees, processAssignees. rewrite List.map_map. reflexivity.
  - intros st taskRefs tasks bucketRefs buckets Ht Hb.
    exists (st ++ List.map ProcessedObject (lookupBuckets tasks buckets)).
    split; [|split; [reflexivity | intros r o; apply store_extension]].
    unfold lookupBuckets_in_store. unfold bind at 1.
    rewrite (for_each_read BucketObject read_bucket st bucketRefs buckets);
      [|intros r x Hr; unfold read_bucket; rewrite Hr; reflexivity | exact Hb].
    unfold bind at 1.
    rewrite (for_each_read ProcessedObject read_processed st taskRefs tasks);
      [|intros r x Hr; unfold read_processed; rewrite Hr; reflexivity | exact Ht].
    pose proof (copy_loop ProcessedObject read_processed (fun t => t)
                  (enrichBucket (buildBucketMapping (buildBucketLookup buckets)
                                   (uniqueBucketNames tasks))) st taskRefs tasks) as Hloop.
    assert (Hread : forall st' r x,
              st' !! r = Some (ProcessedObject x) -> read_processed r st' = Some (x, st'))
      by (intros st' r x Hr; unfold read_processed; rewrite Hr; reflexivity).
    specialize (Hloop Hread Ht []).
    rewrite app_nil_r in Hloop. rewrite Hloop.
    unfold lookupBuckets. rewrite List.map_map. reflexivity.
Qed.

End FrameProperties.

(** ** The properties at sample inputs *)

Section Samples.
#[local] Existing Instance deno_runtime.

(** C1 as stated fails: [Ann] has the one key [ann], which no member
    carries, and the one token [ann]; the entry of the only member
    qualifies, and the outcome is [Resolved], not [Ambiguous]. *)
Lemma fallback_single_is_resolved :
  keys (generateAssigneeKeys (u16 "Ann")) = [u16 "ann"]
  /\ keyMap ann_index !! u16 "ann" = None
  /\ tokens (generateAssigneeKeys (u16 "Ann")) = [u16 "ann"]
  /\ List.filter (entry_qualifies [u16 "ann"]) (entries ann_index) = [entry_of ann]
  /\ outcome (evaluateAssignee ann_index (u16 "Ann")) = Resolved [as_user (u16 "Ann") ann]
  /\ outcome (evaluateAssignee ann_index (u16 "Ann")) <> Ambiguous [as_user (u16 "Ann") ann].
Proof.
  repeat split; try (vm_compute; reflexivity).
  intros H. vm_compute in H. discriminate H.
Qed.

Lemma token_fallback_witness :
  evaluateAssignee ann_index (u16 "Ann")
  = {| users := [as_user (u16 "Ann") ann]; candidates := []; needsReview := false |}.
Proof.
  refine (proj1 (proj1 (proj2 (token_fallback ann_index (u16 "Ann") _ _))
                   (entry_of ann) _)).
  - intros k Hk. vm_compute in Hk. apply list_elem_of_singleton in Hk. subst k.
    vm_compute. reflexivity.
  - vm_compute. discriminate.
  - vm_compute. reflexivity.
Defined.

(** C2 as stated fails: with two members named [Ann Lee] the name is
    ambiguous, not unresolved, and it is among the failed names. *)
Lemma ambiguous_name_is_failed :
  outcome (evaluateAssignee (buildMemberIndex [ann; ann_too]) (u16 "Ann Lee"))
  = Ambiguous [as_user (u16 "Ann Lee") ann; as_user (u16 "Ann Lee") ann_too]
  /\ is_unresolved
       (outcome (evaluateAssignee (buildMemberIndex [ann; ann_too]) (u16 "Ann Lee")))
     = false
  /\ failed (mergeAssignees (buildMemberIndex [ann; ann_too]) [u16 "Ann Lee"])
     = [u16 "Ann Lee"].
Proof. repeat split; vm_compute; reflexivity. Qed.

(** The partial failure of the specification: [Ann Lee, Bob Kim]. *)
Lemma merged_assignees_witness :
  processAssignees ann_index
    (task_with (Some (u16 "Ann Lee, Bob Kim")) (Some [u16 "Ann Lee"; u16 "Bob Kim"]) None)
  = {| task := task_with (Some (u16 "Ann Lee, Bob Kim"))
                 (Some [u16 "Ann Lee"; u16 "Bob Kim"]) None;
       assigneeUsers := Some [as_user (u16 "Ann Lee") ann];
       assigneeLookupFailed := None;
       assigneeLookupFailedList := Some [u16 "Bob Kim"];
       assigneeCandidates := None;
       assigneeNeedsReview := Some true;
       bucketInfo := None; bucketLookupFailed := None |}.
Proof.
  refine (eq_trans
    (proj2 (proj2 (proj2 (proj2 (proj2
       (merged_assignees ann_index [u16 "Ann Lee"; u16 "Bob Kim"])))))
       (task_with (Some (u16 "Ann Lee, Bob Kim"))
          (Some [u16 "Ann Lee"; u16 "Bob Kim"]) None) eq_refl _) _).
  - discriminate.
  - vm_compute. reflexivity.
Defined.

(** C3 as stated fails.  By design: the score is taken on the
    lower-cased name of the bucket.  Lower-casing makes [IK], written
    with U+0130, one code unit longer; against it the label [IK 24] has
    the score 3/5 and is a fuzzy match, where the lengths of the label
    and of the name give 2/5.  By the slip of C9: the label
    [constructor] equals no bucket of the snapshot [Constructors] and is
    contained in its name with the score 11/12, yet the outcome is an
    exact match, with the constructor of [Object.prototype]. *)
Lemma score_of_lowered_name :
  (@toLowerCase special_casing_runtime dotted_name
   = [0x69%N; 0x307%N] ++ u16 "k"
   /\ @toLowerCase special_casing_runtime dotted_label
      <> @toLowerCase special_casing_runtime dotted_name
   /\ contained (@toLowerCase special_casing_runtime dotted_label)
                (@toLowerCase special_casing_runtime dotted_name) = true
   /\ length_ratio (length dotted_label) (length dotted_name) = 2 # 5
   /\ Qle_bool (2 # 5) (1 # 2) = true
   /\ bucketOutcome (JS := special_casing_runtime)
        (buildBucketLookup (JS := special_casing_runtime)
           [bucket_named (u16 "b1") dotted_name])
        dotted_label
      = FuzzyMatch
          [(u16 "id", JsString (u16 "b1")); (u16 "name", JsString dotted_name);
           (u16 "planId", JsString (u16 "plan")); (u16 "exactMatch", JsBool false)]
          (3 # 5))
  /\ (toLowerCase (u16 "constructor") <> toLowerCase (u16 "Constructors")
      /\ contained (toLowerCase (u16 "constructor")) (toLowerCase (u16 "Constructors"))
         = true
      /\ length_ratio (length (u16 "constructor")) (length (u16 "Constructors"))
         = 11 # 12
      /\ bucketOutcome (buildBucketLookup [bucket_named (u16 "b1") (u16 "Constructors")])
                       (u16 "constructor")
         = ExactMatch [(u16 "exactMatch", JsBool true)]).
Proof.
  split.
  - split; [vm_compute; reflexivity|]. split; [vm_compute; discriminate|].
    repeat split; vm_compute; reflexivity.
  - split; [vm_compute; discriminate|]. repeat split; vm_compute; reflexivity.
Qed.

Lemma fuzzy_bucket_match_witness :
  resolveBucket (buildBucketLookup [bucket_named (u16 "b2") (u16 "Design")])
                (u16 "Design Team")
  = Some [(u16 "id", JsString (u16 "b2")); (u16 "name", JsString (u16 "Design"));
          (u16 "planId", JsString (u16 "plan")); (u16 "exactMatch", JsBool false)]
  /\ (1 # 2 < 6 # 11)%Q
  /\ (exists b,
        In b [bucket_named (u16 "b2") (u16 "Design")]
        /\ contained (toLowerCase (u16 "Design Team")) (toLowerCase (Bucket.name b)) = true
        /\ 6 # 11 = length_ratio (length (u16 "Design Team"))
                                 (length (toLowerCase (Bucket.name b)))
        /\ [(u16 "id", JsString (u16 "b2")); (u16 "name", JsString (u16 "Design"));
            (u16 "planId", JsString (u16 "plan")); (u16 "exactMatch", JsBool false)]
           = [(u16 "id", JsString (Bucket.id b)); (u16 "name", JsString (Bucket.name b));
              (u16 "planId", JsString (Bucket.planId b));
              (u16 "exactMatch", JsBool false)])
  /\ (forall b,
        In b [bucket_named (u16 "b2") (u16 "Design")] ->
        contained (toLowerCase (u16 "Design Team")) (toLowerCase (Bucket.name b)) = true ->
        (length_ratio (length (u16 "Design Team"))
                      (length (toLowerCase (Bucket.name b))) <= 6 # 11)%Q).
Proof.
  refine (proj1 (proj2 (proj1 fuzzy_bucket_match
                          [bucket_named (u16 "b2") (u16 "Design")] (u16 "Design Team")
                          _ _ _ _ _)) _ (6 # 11) _).
  - intros b [<-|[]]. vm_compute. discriminate.
  - intros b _. reflexivity.
  - reflexivity.
  - vm_compute. discriminate.
  - refine (proj1 (bool_decide_eq_false (_ ∈ object_prototype_methods)) _).
    vm_compute. reflexivity.
  - vm_compute. reflexivity.
Defined.

(** C4 as stated fails: [ann] is the only member whose display name
    normalizes to [ann lee], but [Lee Ann] carries the bigram key
    [lee ann] of the name, and the outcome is [Ambiguous]. *)
Lemma one_display_name_two_aliases :
  List.filter
    (fun m => str_eqb (normalizeKey (PlannerMember.displayName m)) (u16 "ann lee"))
    [ann; lee_ann] = [ann]
  /\ outcome (evaluateAssignee (buildMemberIndex [ann; lee_ann]) (u16 "Ann Lee"))
     = Ambiguous [as_user (u16 "Ann Lee") ann; as_user (u16 "Ann Lee") lee_ann].
Proof. split; vm_compute; reflexivity. Qed.

Lemma unique_alias_resolves_witness :
  evaluateAssignee (buildMemberIndex [ann]) (u16 "Lee, Ann")
  = {| users := [as_user (u16 "Lee, Ann") ann]; candidates := []; needsReview := false |}.
Proof.
  refine (proj1 (proj1 (unique_alias_resolves [ann] ann _ _ _) (u16 "Lee, Ann") _)).
  - apply list_elem_of_singleton. reflexivity.
  - vm_compute. reflexivity.
  - intros m' Hm' _. apply list_elem_of_singleton in Hm'. exact Hm'.
  - right. reflexivity.
Defined.

Lemma shared_key_is_ambiguous_witness :
  exists cs,
    evaluateAssignee (buildMemberIndex [ann; ann_too]) (u16 "Ann Lee")
    = {| users := []; candidates := cs; needsReview := true |}
    /\ outcome (evaluateAssignee (buildMemberIndex [ann; ann_too]) (u16 "Ann Lee"))
       = Ambiguous cs
    /\ PlannerMember.id ann ∈ List.map (fun u => PlannerMember.id (member u)) cs
    /\ PlannerMember.id ann_too ∈ List.map (fun u => PlannerMember.id (member u)) cs
    /\ (NoDup (member_ids [ann; ann_too]) ->
         as_user (u16 "Ann Lee") ann ∈ cs /\ as_user (u16 "Ann Lee") ann_too ∈ cs).
Proof.
  refine (proj1 shared_key_is_ambiguous [ann; ann_too] ann ann_too (u16 "Ann Lee")
            (u16 "ann lee") _ _ _ _ _ _).
  - left.
  - right. left.
  - vm_compute. discriminate.
  - vm_compute. reflexivity.
  - vm_compute. reflexivity.
  - vm_compute. left.
Defined.

(** The exact case-insensitive sample of the specification, with a
    second bucket of the same name up to case: the last one wins. *)
Lemma exact_bucket_match_witness :
  exists winner,
    last_named (toLowerCase (u16 "PLANNING"))
      [bucket_named (u16 "b1") (u16 "Planning"); bucket_named (u16 "b2") (u16 "planning")]
    = Some winner
    /\ js_get
         (buildBucketLookup
            [bucket_named (u16 "b1") (u16 "Planning");
             bucket_named (u16 "b2") (u16 "planning")])
         (toLowerCase (u16 "PLANNING"))
       = JsObject (bucket_object winner)
    /\ bucketOutcome
         (buildBucketLookup
            [bucket_named (u16 "b1") (u16 "Planning");
             bucket_named (u16 "b2") (u16 "planning")])
         (u16 "PLANNING")
       = ExactMatch (with_exactMatch (JsObject (bucket_object winner)) true)
    /\ forall tasks i t,
         nth_error tasks i = Some t ->
         bucketName (task t) = Some (u16 "PLANNING") -> u16 "PLANNING" <> [] ->
         nth_error
           (lookupBuckets tasks
              [bucket_named (u16 "b1") (u16 "Planning");
               bucket_named (u16 "b2") (u16 "planning")]) i
         = Some (set_bucketInfo
                   {| BucketInfo.id := JsString (Bucket.id winner);
                      BucketInfo.name := JsString (Bucket.name winner);
                      BucketInfo.originalName := u16 "PLANNING";
                      BucketInfo.exactMatch := JsBool true |} t).
Proof.
  refine (exact_bucket_match
            [bucket_named (u16 "b1") (u16 "Planning");
             bucket_named (u16 "b2") (u16 "planning")]
            (bucket_named (u16 "b1") (u16 "Planning")) (u16 "PLANNING") _ _).
  - left. reflexivity.
  - vm_compute. reflexivity.
Defined.

Lemma last_bucket_wins :
  lookupBuckets [spread_task (task_with None None (Some (u16 "PLANNING")))]
    [bucket_named (u16 "b1") (u16 "Planning"); bucket_named (u16 "b2") (u16 "planning")]
  = [set_bucketInfo
       {| BucketInfo.id := JsString (u16 "b2");
          BucketInfo.name := JsString (u16 "planning");
          BucketInfo.originalName := u16 "PLANNING";
          BucketInfo.exactMatch := JsBool true |}
       (spread_task (task_with None None (Some (u16 "PLANNING"))))].
Proof. vm_compute. reflexivity. Qed.

Lemma blank_names_never_match_witness :
  generateAssigneeKeys (u16 "  ") = {| keys := []; tokens := [] |}
  /\ forall idx, evaluateAssignee idx (u16 "  ") = unresolved_result
                 /\ outcome (evaluateAssignee idx (u16 "  ")) = Unresolved.
Proof.
  refine (proj1 blank_names_never_match (u16 "  ") _).
  vm_compute. reflexivity.
Defined.

Lemma empty_snapshots_witness :
  bucketOutcome (buildBucketLookup []) (u16 "Planning") = NoMatch
  /\ nth_error
       (lookupBuckets [spread_task (task_with None None (Some (u16 "Planning")))] []) 0
     = Some (set_bucketLookupFailed true
               (spread_task (task_with None None (Some (u16 "Planning"))))).
Proof.
  refine (proj1 (proj2 empty_snapshots)
            [spread_task (task_with None None (Some (u16 "Planning")))] 0
            (spread_task (task_with None None (Some (u16 "Planning"))))
            (u16 "Planning") _ _ _ _ _ _).
  - reflexivity.
  - reflexivity.
  - discriminate.
  - reflexivity.
  - vm_compute. discriminate.
  - refine (proj1 (bool_decide_eq_false (_ ∈ object_prototype_methods)) _).
    vm_compute. reflexivity.
Defined.

(** C10 as stated fails: [lookupBuckets] replaces the [bucketInfo] that
    an input task already carries. *)
Lemma stale_bucketInfo_replaced :
  bucketInfo stale_task
  = Some {| BucketInfo.id := JsString (u16 "old");
            BucketInfo.name := JsString (u16 "Planning");
            BucketInfo.originalName := u16 "Planning";
            BucketInfo.exactMatch := JsBool true |}
  /\ List.map bucketInfo
       (lookupBuckets [stale_task] [bucket_named (u16 "new") (u16 "Planning")])
     = [Some {| BucketInfo.id := JsString (u16 "new");
                BucketInfo.name := JsString (u16 "Planning");
                BucketInfo.originalName := u16 "Planning";
                BucketInfo.exactMatch := JsBool true |}].
Proof. split; vm_compute; reflexivity. Qed.

Lemma lookups_frame_witness :
  exists st',
    lookupAssignees_in_store [0] [1]
      [ParsedObject (task_with (Some (u16 "Ann Lee")) None None); MemberObject ann]
    = Some (seq 2 1, st')
    /\ st' = [ParsedObject (task_with (Some (u16 "Ann Lee")) None None); MemberObject ann]
             ++ List.map ProcessedObject
                  (lookupAssignees [task_with (Some (u16 "Ann Lee")) None None] [ann])
    /\ forall r o,
         [ParsedObject (task_with (Some (u16 "Ann Lee")) None None); MemberObject ann] !! r
         = Some o -> st' !! r = Some o.
Proof.
  refine (proj1 (proj2 (proj2 lookups_frame))
            [ParsedObject (task_with (Some (u16 "Ann Lee")) None None); MemberObject ann]
            [0] [task_with (Some (u16 "Ann Lee")) None None] [1] [ann] _ _).
  - repeat constructor.
  - repeat constructor.
Defined.

End Samples.

(** * Reading a file *)

(** ** Trimming *)

Lemma trimEnd_idempotent s : trimEnd (trimEnd s) = trimEnd s.
Proof.
  induction s as [|c r IH]; [reflexivity|].
  simpl. destruct (trimEnd r) as [|x t] eqn:Hr.
  - destruct (is_js_space c) eqn:Hc; simpl; [reflexivity|]. rewrite Hc. reflexivity.
  - change (trimEnd (c :: x :: t)) with
      (match trimEnd (x :: t) with
       | [] => if is_js_space c then [] else [c]
       | r' => c :: r'
       end).
    rewrite IH. reflexivity.
Qed.

Lemma trimStart_head s :
  trimStart s = [] \/ exists c r, trimStart s = c :: r /\ is_js_space c = false.
Proof.
  induction s as [|c r IH]; [left; reflexivity|].
  simpl. destruct (is_js_space c) eqn:Hc; [exact IH|].
  right. exists c, r. split; [reflexivity | exact Hc].
Qed.

Lemma trimEnd_head c r :
  is_js_space c = false -> exists r', trimEnd (c :: r) = c :: r'.
Proof.
  intros Hc. simpl. destruct (trimEnd r) as [|x t].
  - rewrite Hc. exists []. reflexivity.
  - exists (x :: t). reflexivity.
Qed.

Lemma trim_idempotent s : trim (trim s) = trim s.
Proof.
  unfold trim. destruct (trimStart_head s) as [-> | (c & r & -> & Hc)]; [reflexivity|].
  destruct (trimEnd_head c r Hc) as [r' Hr]. rewrite Hr at 1.
  simpl trimStart. rewrite Hc. rewrite <- Hr. apply trimEnd_idempotent.
Qed.

Lemma trim_trimmed s : trimmed (trim s).
Proof. apply trim_idempotent. Qed.

(** ** Lines of CSV *)

Lemma parseCSVLine_from_fields line :
  forall result current inQuotes,
    Forall trimmed result ->
    parseCSVLine_from line result current inQuotes <> []
    /\ Forall trimmed (parseCSVLine_from line result current inQuotes).
Proof.
  remember (length line) as n eqn:Hn. revert line Hn.
  induction n as [n IH] using lt_wf_ind. intros line Hn result current inQuotes Hres.
  assert (Hpush : Forall trimmed (result ++ [trim current])).
  { apply Forall_app. split; [exact Hres|]. constructor; [apply trim_trimmed | constructor]. }
  destruct line as [|char rest].
  - simpl. split; [|exact Hpush]. intros H. apply app_eq_nil in H. destruct H; discriminate.
  - simpl in Hn.
    assert (Hrest : forall result current inQuotes,
               Forall trimmed result ->
               parseCSVLine_from rest result current inQuotes <> []
               /\ Forall trimmed (parseCSVLine_from rest result current inQuotes)).
    { intros. apply (IH (length rest)); [lia | reflexivity | assumption]. }
    simpl. destruct (char =? QUOTE)%N.
    + destruct rest as [|nextChar rest']; [apply Hrest; exact Hres|].
      destruct (inQuotes && (nextChar =? QUOTE)%N).
      * apply (IH (length rest')); [simpl in Hn; lia | reflexivity | exact Hres].
      * apply Hrest; exact Hres.
    + destruct ((char =? COMMA)%N && negb inQuotes).
      * apply Hrest; exact Hpush.
      * apply Hrest; exact Hres.
Qed.

(** X1.  [parseCSVLine] returns at least one field for every line, the
    empty line included, and every field it returns is trimmed: [trim]
    leaves it as it is. *)
Theorem parseCSVLine_fields line :
  parseCSVLine line <> [] /\ Forall trimmed (parseCSVLine line).
Proof. apply parseCSVLine_from_fields. constructor. Qed.

Lemma split_on_cons sep s : exists part parts, split_on sep s = part :: parts.
Proof.
  induction s as [|c r (part & parts & IH)]; simpl.
  - exists [], []. reflexivity.
  - destruct (c =? sep)%N; [eexists _, _; reflexivity|].
    rewrite IH. eexists _, _; reflexivity.
Qed.

Lemma parseCSVLine_from_plain line :
  Forall (fun c => c <> QUOTE) line ->
  forall result current,
    parseCSVLine_from line result current false
    = result ++ match split_on COMMA line with
                | part :: parts => trim (current ++ part) :: List.map trim parts
                | [] => []
                end.
Proof.
  induction 1 as [|char rest Hc Hrest IH]; intros result current.
  - simpl. rewrite app_nil_r. reflexivity.
  - simpl. apply N.eqb_neq in Hc. rewrite Hc.
    destruct (split_on_cons COMMA rest) as (part & parts & Hsplit).
    destruct (char =? COMMA)%N eqn:Hcomma; simpl.
    + rewrite IH, Hsplit. rewrite <- app_assoc. simpl. rewrite app_nil_r.
      reflexivity.
    + rewrite IH, Hsplit. rewrite <- app_assoc. reflexivity.
Qed.

(** X2.  On a line without double quotes [parseCSVLine] is
    [line.split(",")] followed by [trim] on every part. *)
Theorem parseCSVLine_plain line :
  Forall (fun c => c <> QUOTE) line ->
  parseCSVLine line = List.map trim (split_on COMMA line).
Proof.
  intros H. unfold parseCSVLine. rewrite (parseCSVLine_from_plain line H).
  destruct (split_on COMMA line); reflexivity.
Qed.

Lemma parseCSVLine_from_open rest result current :
  parseCSVLine_from (QUOTE :: rest) result current false
  = parseCSVLine_from rest result current true.
Proof. destruct rest; reflexivity. Qed.

Lemma parseCSVLine_from_escaped field :
  forall rest result current,
    head rest <> Some QUOTE ->
    parseCSVLine_from (csv_escape field ++ QUOTE :: rest) result current true
    = parseCSVLine_from rest result (current ++ field) false.
Proof.
  induction field as [|c field IH]; intros rest result current Hrest.
  - rewrite app_nil_r. simpl. destruct rest as [|nextChar rest']; [reflexivity|].
    destruct (nextChar =? QUOTE)%N eqn:Hn; [|reflexivity].
    apply N.eqb_eq in Hn. subst. contradiction Hrest. reflexivity.
  - simpl csv_escape. destruct (c =? QUOTE)%N eqn:Hc.
    + apply N.eqb_eq in Hc. subst c. simpl.
      rewrite IH by exact Hrest. rewrite <- app_assoc. reflexivity.
    + simpl. rewrite Hc, andb_false_r.
      rewrite IH by exact Hrest. rewrite <- app_assoc. reflexivity.
Qed.

Lemma parseCSVLine_from_line fields :
  fields <> [] ->
  forall result,
    parseCSVLine_from (csv_line fields) result [] false
    = result ++ List.map trim fields.
Proof.
  induction fields as [|field rest IH]; [contradiction|]. intros _ result.
  destruct rest as [|field' rest].
  - simpl csv_line. unfold csv_quote. rewrite parseCSVLine_from_open.
    rewrite parseCSVLine_from_escaped by discriminate. reflexivity.
  - change (csv_line (field :: field' :: rest))
      with (csv_quote field ++ COMMA :: csv_line (field' :: rest)).
    specialize (IH ltac:(discriminate)).
    remember (csv_line (field' :: rest)) as line eqn:Hline. clear Hline.
    unfold csv_quote. simpl app. rewrite parseCSVLine_from_open.
    rewrite <- app_assoc. simpl app.
    rewrite parseCSVLine_from_escaped by discriminate.
    change (parseCSVLine_from (COMMA :: line) result ([] ++ field) false)
      with (parseCSVLine_from line (result ++ [trim field]) [] false).
    rewrite IH. rewrite <- app_assoc. reflexivity.
Qed.

(** X3.  Round trip through the quoting of CSV: a line written as
    quoted fields, each double quote doubled, is read back as these
    fields, trimmed; commas and double quotes inside a field do not split
    it. *)
Theorem parseCSVLine_quoted fields :
  fields <> [] -> parseCSVLine (csv_line fields) = List.map trim fields.
Proof.
  intros H. unfold parseCSVLine. rewrite (parseCSVLine_from_line fields H). reflexivity.
Qed.

(** ** Records *)

Lemma last_cell_miss headers :
  forall values h,
    (forall j, (j < length values)%nat -> headers !! j <> Some h) ->
    last_cell (combine headers values) h = None.
Proof.
  induction headers as [|k headers IH]; intros [|x values] h Hno; try reflexivity.
  simpl. rewrite IH.
  - rewrite str_eqb_neq; [reflexivity|]. intros ->.
    apply (Hno 0%nat); [simpl; lia | reflexivity].
  - intros j Hj. apply (Hno (S j)). simpl. lia.
Qed.

Lemma last_cell_hit headers :
  forall values j h v,
    headers !! j = Some h -> values !! j = Some v ->
    (forall j', (j < j')%nat -> (j' < length values)%nat -> headers !! j' <> Some h) ->
    last_cell (combine headers values) h = Some v.
Proof.
  induction headers as [|k headers IH]; intros [|x values] [|j] h v Hh Hv Hno;
    try discriminate.
  - simpl in Hh, Hv. injection Hh as ->. injection Hv as ->. simpl.
    rewrite last_cell_miss.
    + rewrite str_eqb_refl. reflexivity.
    + intros j Hj. apply (Hno (S j)); simpl; lia.
  - simpl in Hh, Hv. simpl. rewrite (IH values j h v Hh Hv); [reflexivity|].
    intros j' Hlt Hj'. apply (Hno (S j')); simpl; lia.
Qed.

Lemma set_own_length props k v : (length (set_own props k v) <= S (length props))%nat.
Proof.
  induction props as [|[k' v'] props IH]; simpl; [lia|].
  destruct (str_eqb k' k); simpl; lia.
Qed.

Lemma insert_by_index_length e l : length (insert_by_index e l) = S (length l).
Proof.
  induction l as [|e' l IH]; simpl; [reflexivity|].
  destruct (fst e <=? fst e')%N; simpl; [reflexivity|]. rewrite IH. reflexivity.
Qed.

Lemma object_entries_length o : length (object_entries o) = length (own o).
Proof.
  unfold object_entries. rewrite length_app, length_map.
  induction (own o) as [|kv props IH]; [reflexivity|].
  simpl. destruct (array_index (fst kv)) as [n|]; simpl.
  - rewrite insert_by_index_length. simpl. f_equal. exact IH.
  - rewrite Nat.add_succ_r. f_equal. exact IH.
Qed.

Section RecordProperties.
Context `{JS : JsRuntime}.

Lemma js_set_string_inv o k s :
  record_inv o ->
  record_inv (js_set_string o k s)
  /\ forall h,
       get_own (own (js_set_string o k s)) h
       = if proto_key k then get_own (own o) h
         else if str_eqb k h then Some (JsString s) else get_own (own o) h.
Proof.
  intros [Hp Hown]. destruct (proto_key k) eqn:Hk.
  - destruct (proto_key_true k Hk) as [Hl ->].
    unfold js_set_string, reaches_proto_setter.
    rewrite Hl, str_eqb_refl, (Hown Hl), Hp. simpl.
    split; [split; assumption | reflexivity].
  - unfold js_set_string. rewrite (reaches_proto_setter_key o k Hk). simpl.
    split; [split|].
    + exact Hp.
    + intros Hl. simpl. rewrite get_set_own_ne; [exact (Hown Hl)|].
      exact (proto_key_false k Hk Hl).
    + intros h. destruct (str_eqb k h) eqn:E.
      * apply str_eqb_eq in E as ->. apply get_set_own_eq.
      * apply get_set_own_ne. intros ->. rewrite str_eqb_refl in E. discriminate.
Qed.

Lemma record_fold cells :
  forall o,
    record_inv o ->
    let record :=
      fold_left (fun record hv => js_set_string record (fst hv) (snd hv)) cells o in
    record_inv record
    /\ (forall h, proto_key h = false ->
          get_own (own record) h
          = match last_cell cells h with
            | Some v => Some (JsString v)
            | None => get_own (own o) h
            end)
    /\ (forall kv, In kv (own record) ->
          In kv (own o) \/ exists v, In (fst kv, v) cells)
    /\ (length (own record) <= length (own o) + length cells)%nat.
Proof.
  induction cells as [|[k v] cells IH]; intros o Hinv; simpl.
  - split; [exact Hinv|]. split; [reflexivity|].
    split; [intros kv Hin; left; exact Hin | lia].
  - destruct (js_set_string_inv o k v Hinv) as [Hinv' Hget].
    destruct (IH _ Hinv') as (H1 & H2 & H3 & H4).
    split; [|split; [|split]].
    + exact H1.
    + intros h Hh. rewrite (H2 h Hh). destruct (last_cell cells h); [reflexivity|].
      rewrite Hget. destruct (proto_key k) eqn:Hk.
      * destruct (proto_key_true k Hk) as [Hl ->].
        rewrite str_eqb_neq; [reflexivity|].
        intros <-. rewrite Hk in Hh. discriminate.
      * destruct (str_eqb k h); reflexivity.
    + intros kv Hin. destruct (H3 kv Hin) as [Hin'|[x Hx]].
      * unfold js_set_string in Hin'.
        destruct (reaches_proto_setter o k); [left; exact Hin'|].
        simpl in Hin'. apply set_own_from in Hin' as [Hin'| ->]; [left; exact Hin'|].
        right. exists v. left. reflexivity.
      * right. exists x. right. exact Hx.
    + etransitivity; [exact H4|].
      unfold js_set_string. destruct (reaches_proto_setter o k); simpl; [lia|].
      pose proof (set_own_length (own o) k (JsString v)). lia.
Qed.

Lemma empty_object_inv : record_inv empty_object.
Proof. split; reflexivity. Qed.

Lemma make_record_get headers values h :
  js_get (make_record headers values) h
  = match (if proto_key h then None else last_cell (combine headers values) h) with
    | Some v => JsString v
    | None => object_prototype_get ProtoObjectPrototype h
    end.
Proof.
  destruct (record_fold (combine headers values) empty_object empty_object_inv)
    as ([Hp Hown] & Hget & _).
  unfold js_get, make_record. rewrite Hp.
  destruct (proto_key h) eqn:Hh.
  - destruct (proto_key_true h Hh) as [Hl ->]. rewrite (Hown Hl). reflexivity.
  - rewrite (Hget h Hh). destruct (last_cell (combine headers values) h); reflexivity.
Qed.

(** X4.  A record of [parseCSV] gives back the cell under its header:
    the cell of the last column with that header, among the columns that
    the line has a field for.  Under a header that has no such column the
    record gives what [Object.prototype] holds, so [undefined] for most
    names and a function for [constructor]. *)
Theorem record_cell headers values :
  (forall j h v,
     headers !! j = Some h -> values !! j = Some v ->
     (forall j', (j < j')%nat -> (j' < length values)%nat -> headers !! j' <> Some h) ->
     proto_key h = false ->
     js_get (make_record headers values) h = JsString v)
  /\ (forall h,
        (forall j, (j < length values)%nat -> headers !! j <> Some h) ->
        js_get (make_record headers values) h
        = object_prototype_get ProtoObjectPrototype h).
Proof.
  split.
  - intros j h v Hh Hv Hlast Hk. rewrite make_record_get, Hk.
    rewrite (last_cell_hit headers values j h v Hh Hv Hlast). reflexivity.
  - intros h Hno. rewrite make_record_get.
    rewrite (last_cell_miss headers values h Hno).
    destruct (proto_key h); reflexivity.
Qed.

Lemma make_record_keys headers values kv :
  In kv (own (make_record headers values)) -> In (fst kv) headers.
Proof.
  intros Hin.
  destruct (record_fold (combine headers values) empty_object empty_object_inv)
    as (_ & _ & Hfrom & _).
  destruct (Hfrom kv Hin) as [[]|[v Hv]]. exact (in_combine_l _ _ _ _ Hv).
Qed.

Lemma make_record_length headers values :
  (length (own (make_record headers values)) <= length values)%nat.
Proof.
  destruct (record_fold (combine headers values) empty_object empty_object_inv)
    as (_ & _ & _ & Hlen).
  unfold make_record. etransitivity; [exact Hlen|].
  simpl. rewrite length_combine. lia.
Qed.

Lemma parse_rows_first headers lines :
  match List.find (fun l => nonempty (trim l)) lines with
  | Some line =>
      exists rows,
        parse_rows headers lines
        = make_record headers (parseCSVLine (trim line)) :: rows
  | None => parse_rows headers lines = []
  end.
Proof.
  induction lines as [|l lines IH]; [reflexivity|].
  unfold parse_rows. simpl. destruct (nonempty (trim l)).
  - eexists. reflexivity.
  - exact IH.
Qed.

End RecordProperties.

Section ColumnProperties.
Context `{JS : JsRuntime} `{LIB : JsLibraries}.

(** X5.  The columns offered for a parsed file are headers of the file,
    and they are taken from the first line of data alone: there are no
    more of them than this line has fields, and there is none when the
    file has no line of data. *)
Theorem available_columns content data :
  parseCSV content = Some data ->
  (forall c, In c (getAvailableColumns data) ->
     In c (parseCSVLine (hd [] (split_on LINE_FEED content))))
  /\ match List.find (fun l => nonempty (trim l)) (tl (split_on LINE_FEED content)) with
     | Some line =>
         (length (getAvailableColumns data) <= length (parseCSVLine (trim line)))%nat
     | None => getAvailableColumns data = []
     end.
Proof.
  unfold parseCSV. destruct (std_csv_parses content); [|discriminate].
  intros [= <-].
  set (headers := parseCSVLine (hd [] (split_on LINE_FEED content))).
  pose proof (parse_rows_first headers (tl (split_on LINE_FEED content))) as Hfirst.
  destruct (List.find _ (tl (split_on LINE_FEED content))) as [line|].
  - destruct Hfirst as [rows ->]. simpl. split.
    + intros c Hc. apply in_map_iff in Hc as (kv & <- & Hkv).
      apply object_entries_In in Hkv. exact (make_record_keys _ _ _ Hkv).
    + rewrite length_map, object_entries_length. apply make_record_length.
  - rewrite Hfirst. simpl. split; [intros c []|reflexivity].
Qed.

End ColumnProperties.

(** ** Tasks of a file *)

Lemma trimStart_In c s : In c (trimStart s) -> In c s.
Proof.
  induction s as [|x r IH]; simpl; [tauto|].
  destruct (is_js_space x); [right; auto | auto].
Qed.

Lemma trimEnd_In c s : In c (trimEnd s) -> In c s.
Proof.
  revert c. induction s as [|x r IH]; intros c; simpl; [tauto|].
  destruct (trimEnd r) as [|y t].
  - destruct (is_js_space x); simpl; tauto.
  - intros [->|H]; [left; reflexivity | right; apply IH; exact H].
Qed.

Lemma trim_In c s : In c (trim s) -> In c s.
Proof. intros H. apply trimStart_In, trimEnd_In, H. Qed.

Lemma split_where_parts p s part :
  In part (split_where p s) -> forall c, In c part -> p c = false.
Proof.
  revert part. induction s as [|x r IH]; intros part; simpl.
  - intros [<-|[]] c [].
  - destruct (p x) eqn:Hx.
    + intros [<-|H]; [intros c [] | exact (IH part H)].
    + destruct (split_where p r) as [|q qs].
      * intros [<-|[]] c [<-|[]]. exact Hx.
      * intros [<-|H] c Hc.
        -- destruct Hc as [<-|Hc]; [exact Hx|]. apply (IH q); [left; reflexivity | exact Hc].
        -- apply (IH part); [right; exact H | exact Hc].
Qed.

Lemma validation_errors_cons i t tasks :
  validation_errors i (t :: tasks)
  = (if nonempty (trim (title t)) then []
     else [u16 "Row " ++ decimal (N.of_nat (i + 1)) ++ u16 ": Missing title"])
    ++ validation_errors (S i) tasks.
Proof. reflexivity. Qed.

Lemma validation_errors_none tasks :
  Forall (fun t => nonempty (trim (title t)) = true) tasks ->
  forall i, validation_errors i tasks = [].
Proof.
  induction 1 as [|t tasks Ht _ IH]; intros i; [reflexivity|].
  rewrite validation_errors_cons, Ht. apply IH.
Qed.

Lemma validation_errors_spec tasks :
  forall i,
    length (validation_errors i tasks)
    = length (List.filter (fun t => negb (nonempty (trim (title t)))) tasks)
    /\ forall e,
         In e (validation_errors i tasks)
         <-> exists j t,
               tasks !! j = Some t /\ nonempty (trim (title t)) = false
               /\ e = u16 "Row " ++ decimal (N.of_nat (i + j + 1)) ++ u16 ": Missing title".
Proof.
  induction tasks as [|t tasks IH]; intros i.
  - split; [reflexivity|]. intros e. split; [intros []|].
    intros (j & t & H & _). discriminate H.
  - destruct (IH (S i)) as [Hlen Hin]. rewrite validation_errors_cons. split.
    + unfold str in *. rewrite length_app, Hlen. simpl List.filter.
      destruct (nonempty (trim (title t))); reflexivity.
    + intros e. rewrite in_app_iff, Hin. split.
      * intros [He|(j & t' & Hj & Hb & ->)].
        -- destruct (nonempty (trim (title t))) eqn:Ht; [destruct He|].
           destruct He as [<-|[]]. exists 0%nat, t.
           rewrite Nat.add_0_r. repeat split. exact Ht.
        -- exists (S j), t'. repeat split; [exact Hj | exact Hb|].
           do 4 f_equal. lia.
      * intros ([|j] & t' & Hj & Hb & ->).
        -- left. simpl in Hj. injection Hj as ->. rewrite Hb, Nat.add_0_r.
           left. reflexivity.
        -- right. exists j, t'. repeat split; [exact Hj | exact Hb|].
           do 4 f_equal. lia.
Qed.

Section TaskProperties.
Context `{JS : JsRuntime} `{LIB : JsLibraries}.

(** X6.  [validateTasks] accepts a list exactly when no title is blank;
    it reports one error for each blank title, and the error names the
    position of the task, counted from one. *)
Theorem validateTasks_errors tasks :
  (valid (validateTasks tasks) = true
   <-> Forall (fun t => nonempty (trim (title t)) = true) tasks)
  /\ length (errors (validateTasks tasks))
     = length (List.filter (fun t => negb (nonempty (trim (title t)))) tasks)
  /\ forall e,
       In e (errors (validateTasks tasks))
       <-> exists j t,
             tasks !! j = Some t /\ nonempty (trim (title t)) = false
             /\ e = u16 "Row " ++ decimal (N.of_nat (j + 1)) ++ u16 ": Missing title".
Proof.
  destruct (validation_errors_spec tasks 0) as [Hlen Hin].
  split; [|split; [exact Hlen | exact Hin]].
  unfold validateTasks. simpl. rewrite Nat.eqb_eq, Hlen. split.
  - intros H. apply Forall_forall. intros t Ht. apply list_elem_of_In in Ht.
    destruct (nonempty (trim (title t))) eqn:E; [reflexivity|].
    assert (Hf : In t (List.filter (fun t => negb (nonempty (trim (title t)))) tasks)).
    { apply filter_In. split; [exact Ht | rewrite E; reflexivity]. }
    destruct (List.filter _ tasks); [destruct Hf | discriminate H].
  - intros H. clear Hlen Hin. induction H as [|t tasks Ht _ IH]; [reflexivity|].
    simpl. rewrite Ht. exact IH.
Qed.

Lemma mapped_cell_truthy row column s :
  mapped_cell row column = Some (Some s) -> nonempty s = true.
Proof.
  unfold mapped_cell. destruct (truthy column); [|discriminate].
  destruct (js_get row (or_empty column)) as [| |b|s'|f| |props]; simpl;
    try discriminate.
  - destruct b; discriminate.
  - destruct (nonempty s') eqn:E; [|discriminate]. intros [= <-]. exact E.
Qed.

Lemma task_of_row_fields row columnMapping title_text t :
  task_of_row row columnMapping title_text = Some t ->
  title t = title_text /\ assignee_fields_ok t.
Proof.
  unfold task_of_row.
  destruct (mapped_cell row (ColumnMapping.description columnMapping)); [|discriminate].
  destruct (mapped_cell row (ColumnMapping.startDate columnMapping)); [|discriminate].
  destruct (mapped_cell row (ColumnMapping.dueDate columnMapping)); [|discriminate].
  destruct (mapped_cell row (ColumnMapping.assignee columnMapping)) as [a|]; [|discriminate].
  destruct (mapped_cell row (ColumnMapping.bucketName columnMapping)); [|discriminate].
  destruct (mapped_cell row (ColumnMapping.status columnMapping)); [|discriminate].
  simpl. intros [= <-]. split; [reflexivity|].
  unfold assignee_fields_ok. simpl. destruct a as [a|]; simpl; [|reflexivity].
  destruct (nonempty (trim a)) eqn:E; [|reflexivity].
  split; [exact E|]. split; [apply trim_trimmed | reflexivity].
Qed.

Lemma process_row_task row columnMapping t :
  process_row row columnMapping = Some (Some t) ->
  exists s,
    js_get row (ColumnMapping.title columnMapping) = JsString s
    /\ nonempty (trim s) = true /\ title t = trim s /\ assignee_fields_ok t.
Proof.
  unfold process_row, title_cell.
  destruct (js_get row (ColumnMapping.title columnMapping)) as [| |b|s|f| |props];
    simpl; try discriminate.
  destruct (nonempty (trim s)) eqn:E; [|discriminate].
  destruct (task_of_row row columnMapping (trim s)) as [t'|] eqn:Ht; [|discriminate].
  simpl. intros [= <-]. exists s.
  destruct (task_of_row_fields _ _ _ _ Ht) as [H1 H2]. auto.
Qed.

Lemma processData_tasks data columnMapping :
  forall tasks,
    processData data columnMapping = Some tasks ->
    Forall (fun t => exists row,
                In row data /\ process_row row columnMapping = Some (Some t)) tasks.
Proof.
  induction data as [|row data IH]; intros tasks; simpl.
  - intros [= <-]. constructor.
  - destruct (process_row row columnMapping) as [r|] eqn:Hr; [|discriminate].
    destruct (processData data columnMapping) as [rest|]; [|discriminate].
    simpl. intros [= <-]. apply Forall_app. split.
    + destruct r as [t|]; [|constructor]. constructor; [|constructor].
      exists row. split; [left; reflexivity | exact Hr].
    + specialize (IH rest eq_refl). eapply Forall_impl; [exact IH|].
      intros t (row' & Hin & Hrow). exists row'. split; [right; exact Hin | exact Hrow].
Qed.

(** X7.  Every task that [processData] returns has a title that is not
    empty and is trimmed, so [validateTasks] accepts whatever
    [processData] returns: on this path it never reports an error. *)
Theorem processed_tasks_valid data columnMapping tasks :
  processData data columnMapping = Some tasks ->
  Forall (fun t => nonempty (title t) = true /\ trimmed (title t)) tasks
  /\ validateTasks tasks = {| valid := true; errors := [] |}.
Proof.
  intros H. apply processData_tasks in H.
  assert (Ht : Forall (fun t => nonempty (title t) = true /\ trimmed (title t)) tasks).
  { eapply Forall_impl; [exact H|]. intros t (row & _ & Hrow).
    apply process_row_task in Hrow as (s & _ & Hne & -> & _).
    split; [exact Hne | apply trim_trimmed]. }
  split; [exact Ht|]. unfold validateTasks.
  rewrite validation_errors_none; [reflexivity|].
  eapply Forall_impl; [exact Ht|]. intros t [Hne Htr]. rewrite Htr. exact Hne.
Qed.

Lemma split_assignees_names text name :
  In name (split_assignees text) ->
  nonempty name = true /\ trimmed name
  /\ Forall (fun c => is_name_separator c = false) name.
Proof.
  unfold split_assignees. intros H. apply filter_In in H as [H Hne].
  apply in_map_iff in H as (part & <- & Hpart).
  split; [exact Hne|]. split; [apply trim_trimmed|].
  apply Forall_forall. intros c Hc. apply list_elem_of_In in Hc.
  exact (split_where_parts _ _ _ Hpart c (trim_In _ _ Hc)).
Qed.

(** X8.  A task of [processData] has its list of assignees exactly when
    it has an assignee text; the text is trimmed and not empty, and every
    name of the list is not empty, is trimmed and contains neither a
    comma nor a semicolon.  A cell written [Last, First] thus arrives as
    two names. *)
Theorem processed_assignees data columnMapping tasks :
  processData data columnMapping = Some tasks ->
  Forall (fun t =>
            match assignee t with
            | Some text =>
                nonempty text = true /\ trimmed text
                /\ exists names,
                     assignees t = Some names
                     /\ names = split_assignees text
                     /\ Forall (fun name =>
                                  nonempty name = true /\ trimmed name
                                  /\ Forall (fun c => c <> COMMA /\ c <> SEMICOLON) name)
                          names
            | None => assignees t = None
            end) tasks.
Proof.
  intros H. apply processData_tasks in H. eapply Forall_impl; [exact H|].
  intros t (row & _ & Hrow). apply process_row_task in Hrow as (s & _ & _ & _ & Hok).
  unfold assignee_fields_ok in Hok. destruct (assignee t) as [text|]; [|exact Hok].
  destruct Hok as (Hne & Htr & Has). split; [exact Hne|]. split; [exact Htr|].
  exists (split_assignees text). split; [exact Has|]. split; [reflexivity|].
  apply Forall_forall. intros name Hname. apply list_elem_of_In in Hname.
  destruct (split_assignees_names text name Hname) as (H1 & H2 & H3).
  split; [exact H1|]. split; [exact H2|].
  eapply Forall_impl; [exact H3|]. intros c Hc. unfold is_name_separator in Hc.
  apply orb_false_iff in Hc as [Hs Hco]. split; apply N.eqb_neq; assumption.
Qed.

Lemma parse_rows_In headers lines row :
  In row (parse_rows headers lines) ->
  exists values, row = make_record headers values.
Proof.
  unfold parse_rows. intros H.
  apply list_elem_of_In, list_elem_of_omap in H as (l & _ & Hl).
  destruct (nonempty (trim l)); [|discriminate]. injection Hl as <-.
  eexists. reflexivity.
Qed.

Lemma processData_skips data columnMapping :
  (forall row, In row data ->
     title_cell row (ColumnMapping.title columnMapping) = Some None) ->
  processData data columnMapping = Some [].
Proof.
  induction data as [|row data IH]; intros H; [reflexivity|].
  simpl. unfold process_row. rewrite (H row (or_introl eq_refl)). simpl.
  rewrite IH; [reflexivity|]. intros row' Hin. apply H. right. exact Hin.
Qed.

(** X9.  A title column that the file does not have.  Each record then
    gives what [Object.prototype] holds under the name: for a name that
    it lacks every row is skipped and [processData] returns no task; for
    a name that it has, such as [constructor], [processData] throws on
    the first row. *)
Theorem missing_title_column content data columnMapping :
  parseCSV content = Some data ->
  (forall j, parseCSVLine (hd [] (split_on LINE_FEED content)) !! j
             <> Some (ColumnMapping.title columnMapping)) ->
  processData data columnMapping
  = if js_truthy (object_prototype_get ProtoObjectPrototype
                    (ColumnMapping.title columnMapping))
    then match data with [] => Some [] | _ :: _ => None end
    else Some [].
Proof.
  unfold parseCSV. destruct (std_csv_parses content); [|discriminate].
  intros [= <-] Hno.
  set (headers := parseCSVLine (hd [] (split_on LINE_FEED content))) in *.
  set (lines := tl (split_on LINE_FEED content)).
  assert (Hrow : forall row, In row (parse_rows headers lines) ->
            js_get row (ColumnMapping.title columnMapping)
            = object_prototype_get ProtoObjectPrototype (ColumnMapping.title columnMapping)).
  { intros row Hin. apply parse_rows_In in Hin as [values ->].
    rewrite make_record_get, (last_cell_miss headers values).
    - destruct (proto_key (ColumnMapping.title columnMapping)); reflexivity.
    - intros j _. apply Hno. }
  assert (Hkind :
            object_prototype_get ProtoObjectPrototype (ColumnMapping.title columnMapping)
            = JsUndefined
            \/ object_prototype_get ProtoObjectPrototype (ColumnMapping.title columnMapping)
               = JsObjectPrototype
            \/ exists f,
                 object_prototype_get ProtoObjectPrototype (ColumnMapping.title columnMapping)
                 = JsFunction f).
  { unfold object_prototype_get.
    destruct (legacy_proto && str_eqb (ColumnMapping.title columnMapping) PROTO);
      [right; left; reflexivity|].
    destruct (str_eqb (ColumnMapping.title columnMapping) (u16 "constructor"));
      [right; right; eexists; reflexivity|].
    destruct (bool_decide (ColumnMapping.title columnMapping ∈ object_prototype_methods));
      [right; right; eexists; reflexivity | left; reflexivity]. }
  destruct Hkind as [Hget|[Hget|[f Hget]]]; rewrite Hget in *; simpl js_truthy; cbv iota.
  - apply processData_skips. intros row Hin. unfold title_cell.
    rewrite (Hrow row Hin). reflexivity.
  - destruct (parse_rows headers lines) as [|row rows]; [reflexivity|].
    simpl. unfold process_row, title_cell.
    rewrite (Hrow row (or_introl eq_refl)). reflexivity.
  - destruct (parse_rows headers lines) as [|row rows]; [reflexivity|].
    simpl. unfold process_row, title_cell.
    rewrite (Hrow row (or_introl eq_refl)). reflexivity.
Qed.

End TaskProperties.

(** ** Status and percentage *)

Lemma replace_runs_by_chars p t s :
  forall in_run c, In c (replace_runs_by p t in_run s) -> c = t \/ p c = false.
Proof.
  induction s as [|x r IH]; intros in_run c; simpl; [tauto|].
  destruct (p x) eqn:Hx.
  - destruct in_run; [apply IH|]. intros [<-|H]; [left; reflexivity | exact (IH _ _ H)].
  - intros [<-|H]; [right; exact Hx | exact (IH _ _ H)].
Qed.

Section StatusProperties.
Context `{JS : JsRuntime}.

Lemma status_key_no_space status :
  Forall (fun c => is_js_space c = false) (status_key status).
Proof.
  apply List.Forall_forall. intros c Hc. unfold status_key in Hc.
  apply replace_runs_by_chars in Hc as [->|Hc]; [reflexivity | exact Hc].
Qed.

Lemma object_prototype_get_kind k :
  object_prototype_get ProtoObjectPrototype k = JsUndefined
  \/ object_prototype_get ProtoObjectPrototype k = JsObjectPrototype
  \/ exists f, object_prototype_get ProtoObjectPrototype k = JsFunction f.
Proof.
  unfold object_prototype_get.
  destruct (legacy_proto && str_eqb k PROTO); [right; left; reflexivity|].
  destruct (str_eqb k (u16 "constructor")); [right; right; eexists; reflexivity|].
  destruct (bool_decide (k ∈ object_prototype_methods));
    [right; right; eexists; reflexivity | left; reflexivity].
Qed.

Lemma statusMapping_get k :
  Forall (fun c => is_js_space c = false) k ->
  table_get statusMapping k
  = if bool_decide (k ∈ [u16 "completed"; u16 "complete"; u16 "done"]) then Some 100%N
    else if str_eqb k (u16 "in_progress") then Some 50%N
    else if str_eqb k (u16 "not_started") then Some 0%N
    else None.
Proof.
  intros Hk.
  assert (Hspace : forall t, existsb is_js_space t = true -> str_eqb t k = false).
  { intros t Ht. apply str_eqb_neq. intros ->.
    apply existsb_exists in Ht as (c & Hc & Hs).
    rewrite List.Forall_forall in Hk. rewrite (Hk c Hc) in Hs. discriminate. }
  unfold statusMapping, table_get.
  rewrite (Hspace (u16 "not started")) by reflexivity.
  rewrite (Hspace (u16 "in progress")) by reflexivity.
  destruct (str_eqb (u16 "not_started") k) eqn:E1;
    [apply str_eqb_eq in E1 as <-; reflexivity|].
  destruct (str_eqb (u16 "in_progress") k) eqn:E2;
    [apply str_eqb_eq in E2 as <-; reflexivity|].
  destruct (str_eqb (u16 "completed") k) eqn:E3;
    [apply str_eqb_eq in E3 as <-; reflexivity|].
  destruct (str_eqb (u16 "complete") k) eqn:E4;
    [apply str_eqb_eq in E4 as <-; reflexivity|].
  destruct (str_eqb (u16 "done") k) eqn:E5;
    [apply str_eqb_eq in E5 as <-; reflexivity|].
  assert (Hne : forall t, str_eqb t k = false -> t <> k).
  { intros t Ht ->. rewrite str_eqb_refl in Ht. discriminate. }
  rewrite bool_decide_eq_false_2.
  - rewrite (str_eqb_neq k (u16 "in_progress")) by (intros ->; exact (Hne _ E2 eq_refl)).
    rewrite (str_eqb_neq k (u16 "not_started")) by (intros ->; exact (Hne _ E1 eq_refl)).
    reflexivity.
  - intros Hin. apply list_elem_of_In in Hin.
    destruct Hin as [<-|[<-|[<-|[]]]];
      [exact (Hne _ E3 eq_refl) | exact (Hne _ E4 eq_refl) | exact (Hne _ E5 eq_refl)].
Qed.

(** X10.  The key that [mapStatusToPercentage] looks up never contains
    white space, so the entries [not started] and [in progress] of its
    table are never read.  The result is 100 exactly for the keys
    [completed], [complete] and [done] and 50 exactly for [in_progress];
    it is no number exactly when the key names a property of
    [Object.prototype], as [constructor] does; it is 0 in every other
    case. *)
Theorem status_percentage status :
  Forall (fun c => is_js_space c = false) (status_key status)
  /\ (mapStatusToPercentage status = Percent 100
      <-> nonempty status = true
          /\ In (status_key status) [u16 "completed"; u16 "complete"; u16 "done"])
  /\ (mapStatusToPercentage status = Percent 50
      <-> nonempty status = true /\ status_key status = u16 "in_progress")
  /\ (forall v,
        mapStatusToPercentage status = Inherited v
        <-> nonempty status = true
            /\ ~ In (status_key status)
                 [u16 "completed"; u16 "complete"; u16 "done";
                  u16 "in_progress"; u16 "not_started"]
            /\ v = object_prototype_get ProtoObjectPrototype (status_key status)
            /\ js_truthy v = true)
  /\ (mapStatusToPercentage status = Percent 0
      \/ mapStatusToPercentage status = Percent 50
      \/ mapStatusToPercentage status = Percent 100
      \/ exists v, mapStatusToPercentage status = Inherited v).
Proof.
  pose proof (status_key_no_space status) as Hk.
  split; [exact Hk|].
  unfold mapStatusToPercentage. destruct (nonempty status); simpl negb; cbv iota.
  2: { split; [split; [intros H; discriminate H | intros [H _]; discriminate H]|].
       split; [split; [intros H; discriminate H | intros [H _]; discriminate H]|].
       split; [|left; reflexivity].
       intros v. split; [intros H; discriminate H | intros [H _]; discriminate H]. }
  rewrite (statusMapping_get _ Hk).
  set (k := status_key status) in *. clearbody k.
  match goal with
  | |- context [@bool_decide ?P ?d] => destruct (@bool_decide P d) eqn:E100
  end.
  { apply bool_decide_eq_true in E100. apply list_elem_of_In in E100.
    split; [split; [intros _; split; [reflexivity | exact E100] | reflexivity]|].
    split.
    { split; [intros H; discriminate H|]. intros [_ ->].
      destruct E100 as [H|[H|[H|[]]]]; vm_compute in H; discriminate H. }
    split.
    { intros v. split; [intros H; discriminate H|].
      intros (_ & Hno & _). contradiction Hno.
      destruct E100 as [H|[H|[H|[]]]]; rewrite <- H; simpl; tauto. }
    right. right. left. reflexivity. }
  apply bool_decide_eq_false in E100.
  assert (Hno100 : ~ In k [u16 "completed"; u16 "complete"; u16 "done"]).
  { intros H. apply E100. apply list_elem_of_In. exact H. }
  destruct (str_eqb k (u16 "in_progress")) eqn:E50.
  { apply str_eqb_eq in E50. subst k.
    split; [split; [intros H; discriminate H | intros [_ H]; contradiction]|].
    split; [split; [intros _; split; reflexivity | reflexivity]|].
    split.
    { intros v. split; [intros H; discriminate H|].
      intros (_ & Hno & _). contradiction Hno. simpl. tauto. }
    right. left. reflexivity. }
  assert (Hno50 : k <> u16 "in_progress").
  { intros ->. rewrite str_eqb_refl in E50. discriminate. }
  destruct (str_eqb k (u16 "not_started")) eqn:E0.
  { apply str_eqb_eq in E0. subst k.
    split; [split; [intros H; discriminate H | intros [_ H]; contradiction]|].
    split; [split; [intros H; discriminate H | intros [_ H]; contradiction]|].
    split.
    { intros v. split; [intros H; discriminate H|].
      intros (_ & Hno & _). contradiction Hno. simpl. tauto. }
    left. reflexivity. }
  assert (Hno0 : k <> u16 "not_started").
  { intros ->. rewrite str_eqb_refl in E0. discriminate. }
  assert (Hnone : ~ In k [u16 "completed"; u16 "complete"; u16 "done";
                          u16 "in_progress"; u16 "not_started"]).
  { intros [H|[H|[H|[H|[H|[]]]]]];
      [apply Hno100; left; exact H | apply Hno100; right; left; exact H
       | apply Hno100; right; right; left; exact H
       | apply Hno50; symmetry; exact H | apply Hno0; symmetry; exact H]. }
  destruct (object_prototype_get_kind k) as [Hget|[Hget|[f Hget]]]; rewrite Hget.
  - split; [split; [intros H; discriminate H | intros [_ H]; contradiction]|].
    split; [split; [intros H; discriminate H | intros [_ H]; contradiction]|].
    split.
    { intros v. split; [intros H; discriminate H|].
      intros (_ & _ & -> & H). discriminate H. }
    left. reflexivity.
  - split; [split; [intros H; discriminate H | intros [_ H]; contradiction]|].
    split; [split; [intros H; discriminate H | intros [_ H]; contradiction]|].
    split.
    { intros v. split.
      - intros [= <-]. repeat split. exact Hnone.
      - intros (_ & _ & -> & _). reflexivity. }
    right. right. right. eexists. reflexivity.
  - split; [split; [intros H; discriminate H | intros [_ H]; contradiction]|].
    split; [split; [intros H; discriminate H | intros [_ H]; contradiction]|].
    split.
    { intros v. split.
      - intros [= <-]. repeat split. exact Hnone.
      - intros (_ & _ & -> & _). reflexivity. }
    right. right. right. eexists. reflexivity.
Qed.

End StatusProperties.

(** ** Statistics *)

Lemma stat_set_own_eq stats k v : stat_own (stat_set_own stats k v) k = Some v.
Proof.
  induction stats as [|[k' v'] stats IH]; simpl.
  - rewrite str_eqb_refl. reflexivity.
  - destruct (str_eqb k' k) eqn:E; simpl; rewrite E; [reflexivity | exact IH].
Qed.

Lemma stat_set_own_ne stats k v k' :
  k <> k' -> stat_own (stat_set_own stats k v) k' = stat_own stats k'.
Proof.
  intros Hne. induction stats as [|[k0 v0] stats IH]; simpl.
  - rewrite (str_eqb_neq k k' Hne). reflexivity.
  - destruct (str_eqb k0 k) eqn:E; simpl.
    + apply str_eqb_eq in E. subst k0. rewrite (str_eqb_neq k k' Hne). reflexivity.
    + destruct (str_eqb k0 k'); [reflexivity | exact IH].
Qed.

Lemma tasks_with_hit property a t tasks :
  property t = Some a ->
  tasks_with property a (t :: tasks) = S (tasks_with property a tasks).
Proof.
  intros E. unfold tasks_with. simpl.
  rewrite bool_decide_eq_true_2 by exact E. reflexivity.
Qed.

Lemma tasks_with_miss property a t tasks :
  property t <> Some a ->
  tasks_with property a (t :: tasks) = tasks_with property a tasks.
Proof.
  intros E. unfold tasks_with. simpl.
  rewrite bool_decide_eq_false_2 by exact E. reflexivity.
Qed.

Section StatisticsProperties.
Context `{JS : JsRuntime} `{LIB : JsLibraries}.

Lemma stat_set_other stats k v a :
  k <> a -> stat_own (stat_set stats k v) a = stat_own stats a.
Proof.
  intros Hne. unfold stat_set.
  destruct (legacy_proto && str_eqb k PROTO
            && negb (bool_decide (is_Some (stat_own stats k)))); [reflexivity|].
  apply stat_set_own_ne, Hne.
Qed.

Lemma stat_set_hit stats k v :
  proto_key k = false -> stat_own (stat_set stats k v) k = Some v.
Proof.
  intros Hk. unfold stat_set. unfold proto_key in Hk. rewrite Hk. simpl.
  apply stat_set_own_eq.
Qed.

Lemma inherited_not_proto_key k :
  object_prototype_get ProtoObjectPrototype k <> JsObjectPrototype ->
  proto_key k = false.
Proof.
  unfold object_prototype_get, proto_key.
  destruct (legacy_proto && str_eqb k PROTO); [|reflexivity].
  intros H. exfalso. apply H. reflexivity.
Qed.

Lemma count_step_other property stats t a :
  a <> [] -> property t <> Some a ->
  stat_own (count_step property stats t) a = stat_own stats a.
Proof.
  intros Ha Hne. unfold count_step. destruct (property t) as [k|]; [|reflexivity].
  simpl. destruct (nonempty k); [|reflexivity].
  apply stat_set_other. intros ->. contradiction Hne. reflexivity.
Qed.

Lemma count_fold_plain property a tasks :
  a <> [] -> object_prototype_get ProtoObjectPrototype a = JsUndefined ->
  forall stats n,
    stat_own stats a = count_value n ->
    stat_own (fold_left (count_step property) tasks stats) a
    = count_value (n + tasks_with property a tasks).
Proof.
  intros Ha Hget.
  assert (Hk : proto_key a = false).
  { apply inherited_not_proto_key. rewrite Hget. discriminate. }
  induction tasks as [|t tasks IH]; intros stats n Hn.
  - simpl. unfold tasks_with. simpl. rewrite Nat.add_0_r. exact Hn.
  - simpl fold_left. destruct (decide (property t = Some a)) as [E|E].
    + rewrite (tasks_with_hit property a t tasks E).
      rewrite <- Nat.add_succ_comm. apply IH.
      unfold count_step. rewrite E. simpl.
      destruct a as [|c a]; [contradiction|]. simpl.
      rewrite (stat_set_hit _ _ _ Hk). unfold stat_next. rewrite Hn, Hget.
      destruct n as [|n]; simpl; [reflexivity|].
      do 2 f_equal. lia.
    + rewrite (tasks_with_miss property a t tasks E). apply IH.
      rewrite (count_step_other property stats t a Ha E). exact Hn.
Qed.

Lemma count_fold_text property a f tasks :
  a <> [] -> object_prototype_get ProtoObjectPrototype a = JsFunction f ->
  forall stats n,
    stat_own stats a = text_value (function_source f) n ->
    stat_own (fold_left (count_step property) tasks stats) a
    = text_value (function_source f) (n + tasks_with property a tasks).
Proof.
  intros Ha Hget.
  assert (Hk : proto_key a = false).
  { apply inherited_not_proto_key. rewrite Hget. discriminate. }
  induction tasks as [|t tasks IH]; intros stats n Hn.
  - simpl. unfold tasks_with. simpl. rewrite Nat.add_0_r. exact Hn.
  - simpl fold_left. destruct (decide (property t = Some a)) as [E|E].
    + rewrite (tasks_with_hit property a t tasks E).
      rewrite <- Nat.add_succ_comm. apply IH.
      unfold count_step. rewrite E. simpl.
      destruct a as [|c a]; [contradiction|]. simpl.
      rewrite (stat_set_hit _ _ _ Hk). unfold stat_next. rewrite Hn, Hget.
      destruct n as [|n]; [reflexivity|]. unfold text_value.
      assert (Hne : nonempty (function_source f ++ repeat 49%N (S n)) = true)
        by (destruct (function_source f); reflexivity).
      rewrite Hne. do 2 f_equal. rewrite <- app_assoc. f_equal.
      change (u16 "1") with [49%N]. rewrite <- repeat_cons. reflexivity.
    + rewrite (tasks_with_miss property a t tasks E). apply IH.
      rewrite (count_step_other property stats t a Ha E). exact Hn.
Qed.

Lemma count_by_get property label tasks a :
  a <> label ->
  stat_own (count_by property label tasks) a
  = stat_own (fold_left (count_step property) tasks []) a.
Proof.
  intros Hne. unfold count_by.
  destruct (Nat.ltb 0 _); [|reflexivity].
  apply stat_set_other. congruence.
Qed.

Lemma count_by_label property label tasks :
  label <> PROTO -> tasks_without property tasks <> 0%nat ->
  stat_own (count_by property label tasks) label
  = Some (StatCount (N.of_nat (tasks_without property tasks))).
Proof.
  intros Hl Hm. unfold count_by. fold (tasks_without property tasks).
  destruct (Nat.ltb_spec 0 (tasks_without property tasks)) as [_|H]; [|lia].
  apply stat_set_hit, proto_key_other, Hl.
Qed.

(** X11.  The statistics count the tasks by assignee text and by bucket
    name.  Under a name that [Object.prototype] has no property for, the
    object holds the number of tasks with that name, and nothing when
    there is none; under the label for the tasks without a name it holds
    their number when there is one. *)
Theorem statistics_counts tasks :
  (forall a,
     a <> [] -> a <> u16 "[Unassigned]" ->
     object_prototype_get ProtoObjectPrototype a = JsUndefined ->
     stat_own (getAssigneeStatistics tasks) a
     = count_value (tasks_with assignee a tasks))
  /\ (tasks_without assignee tasks <> 0%nat ->
      stat_own (getAssigneeStatistics tasks) (u16 "[Unassigned]")
      = Some (StatCount (N.of_nat (tasks_without assignee tasks))))
  /\ (forall a,
        a <> [] -> a <> u16 "[No Bucket]" ->
        object_prototype_get ProtoObjectPrototype a = JsUndefined ->
        stat_own (getBucketStatistics tasks) a
        = count_value (tasks_with bucketName a tasks))
  /\ (tasks_without bucketName tasks <> 0%nat ->
      stat_own (getBucketStatistics tasks) (u16 "[No Bucket]")
      = Some (StatCount (N.of_nat (tasks_without bucketName tasks)))).
Proof.
  split; [|split; [|split]].
  - intros a Ha Hl Hget. unfold getAssigneeStatistics.
    rewrite (count_by_get _ _ _ _ Hl).
    exact (count_fold_plain assignee a tasks Ha Hget [] 0 eq_refl).
  - apply count_by_label. vm_compute. discriminate.
  - intros a Ha Hl Hget. unfold getBucketStatistics.
    rewrite (count_by_get _ _ _ _ Hl).
    exact (count_fold_plain bucketName a tasks Ha Hget [] 0 eq_refl).
  - apply count_by_label. vm_compute. discriminate.
Qed.

(** X12.  Under a name that is a function of [Object.prototype], such as
    [constructor] or [toString], the statistics hold no number: the first
    task with the name stores the text of the function followed by [1],
    and each further task appends another [1]. *)
Theorem statistics_of_inherited_names tasks a f :
  a <> [] -> object_prototype_get ProtoObjectPrototype a = JsFunction f ->
  stat_own (getAssigneeStatistics tasks) a
  = text_value (function_source f) (tasks_with assignee a tasks)
  /\ stat_own (getBucketStatistics tasks) a
     = text_value (function_source f) (tasks_with bucketName a tasks).
Proof.
  intros Ha Hget.
  assert (Hl : forall label,
            object_prototype_get ProtoObjectPrototype label = JsUndefined -> a <> label).
  { intros label Hu ->. rewrite Hu in Hget. discriminate. }
  split.
  - unfold getAssigneeStatistics. rewrite count_by_get.
    + exact (count_fold_text assignee a f tasks Ha Hget [] 0 eq_refl).
    + apply Hl. unfold object_prototype_get.
      rewrite (str_eqb_neq (u16 "[Unassigned]") PROTO) by (vm_compute; discriminate).
      rewrite andb_false_r. reflexivity.
  - unfold getBucketStatistics. rewrite count_by_get.
    + exact (count_fold_text bucketName a f tasks Ha Hget [] 0 eq_refl).
    + apply Hl. unfold object_prototype_get.
      rewrite (str_eqb_neq (u16 "[No Bucket]") PROTO) by (vm_compute; discriminate).
      rewrite andb_false_r. reflexivity.
Qed.

End StatisticsProperties.

(** * Running the bucket lookup again, and creating the tasks *)

Lemma uniqueBucketNames_task tasks tasks' :
  List.map task tasks = List.map task tasks' ->
  uniqueBucketNames tasks = uniqueBucketNames tasks'.
Proof.
  unfold uniqueBucketNames. generalize (@nil str).
  revert tasks'. induction tasks as [|t tasks IH]; intros [|t' tasks'] acc H;
    try discriminate H; [reflexivity|].
  simpl in H. injection H as Ht H. simpl. rewrite Ht. apply IH. exact H.
Qed.

Section RerunProperties.
Context `{JS : JsRuntime}.

Lemma enrichBucket_task mapping t p : task (enrichBucket mapping t p) = task p.
Proof.
  unfold enrichBucket. destruct (truthy (bucketName (task t))); [|reflexivity].
  destruct (js_truthy _); reflexivity.
Qed.

Lemma enrichBucket_again mapping t :
  enrichBucket mapping (enrichBucket mapping t t) (enrichBucket mapping t t)
  = enrichBucket mapping t t.
Proof.
  unfold enrichBucket at 1. rewrite enrichBucket_task.
  unfold enrichBucket. destruct (truthy (bucketName (task t))); [|reflexivity].
  destruct (js_truthy _); reflexivity.
Qed.

(** X13.  Running [lookupBuckets] again on its own result, against the
    same snapshot, changes nothing. *)
Theorem lookupBuckets_idempotent tasks buckets :
  lookupBuckets (lookupBuckets tasks buckets) buckets = lookupBuckets tasks buckets.
Proof.
  unfold lookupBuckets at 1.
  assert (Hnames : uniqueBucketNames (lookupBuckets tasks buckets)
                   = uniqueBucketNames tasks).
  { apply uniqueBucketNames_task. unfold lookupBuckets. rewrite List.map_map.
    apply List.map_ext. intros t. apply enrichBucket_task. }
  rewrite Hnames. unfold lookupBuckets. rewrite List.map_map.
  apply List.map_ext. intros t. apply enrichBucket_again.
Qed.

(** X14.  [lookupBuckets] never removes what an earlier run wrote on a
    task: a [bucketInfo] stays where the new run finds no bucket, and a
    failure mark stays where it finds one.  A run that marks a task as
    failed leaves its [bucketInfo] as it was, so the task is still
    created in the bucket of the earlier run and not in the default
    bucket. *)
Theorem rerun_keeps_bucket tasks buckets i t :
  nth_error tasks i = Some t ->
  exists p,
    nth_error (lookupBuckets tasks buckets) i = Some p
    /\ task p = task t
    /\ (is_Some (bucketInfo t) -> is_Some (bucketInfo p))
    /\ (bucketLookupFailed t = Some true -> bucketLookupFailed p = Some true)
    /\ (bucketLookupFailed p <> bucketLookupFailed t ->
        bucketInfo p = bucketInfo t
        /\ forall bucketId, taskBucketId p bucketId = taskBucketId t bucketId).
Proof.
  intros Ht. unfold lookupBuckets. rewrite nth_error_map, Ht. simpl.
  eexists. split; [reflexivity|].
  split; [apply enrichBucket_task|].
  unfold enrichBucket. destruct (truthy (bucketName (task t))).
  - destruct (js_truthy _); simpl.
    + split; [intros _; eexists; reflexivity|]. split; [tauto|].
      intros H. contradiction H. reflexivity.
    + split; [tauto|]. split; [reflexivity|]. intros _. split; reflexivity.
  - split; [tauto|]. split; [tauto|]. intros H. contradiction H. reflexivity.
Qed.

Lemma buildBucketLookup_constructor buckets :
  (forall b, In b buckets -> toLowerCase (Bucket.name b) <> u16 "constructor") ->
  js_get (buildBucketLookup buckets) (u16 "constructor") = JsFunction (u16 "Object").
Proof.
  intros Hno.
  destruct (buildBucketLookup_shape buckets) as (_ & Hown & Hproto & _).
  assert (Hk : proto_key (u16 "constructor") = false).
  { apply proto_key_other. vm_compute. discriminate. }
  unfold js_get. rewrite (Hown _ Hk), (last_named_none _ _ Hno). simpl.
  rewrite Hproto. unfold object_prototype_get.
  rewrite (str_eqb_neq (u16 "constructor") PROTO) by (vm_compute; discriminate).
  rewrite andb_false_r.
  destruct legacy_proto; [|reflexivity].
  destruct (last_named PROTO buckets); reflexivity.
Qed.

(** X15.  A task labelled [constructor], in any case of letters, where
    no bucket of the snapshot has that name: the lookup finds the
    constructor of [Object.prototype], takes it for an exact match, and
    the task is created with the bucket id [undefined], not in the
    default bucket. *)
Theorem constructor_label tasks buckets i t label bucketId :
  nth_error tasks i = Some t ->
  bucketName (task t) = Some label ->
  toLowerCase label = u16 "constructor" ->
  (forall b, In b buckets -> toLowerCase (Bucket.name b) <> u16 "constructor") ->
  nth_error (lookupBuckets tasks buckets) i
  = Some (set_bucketInfo
            {| BucketInfo.id := JsUndefined; BucketInfo.name := JsUndefined;
               BucketInfo.originalName := label;
               BucketInfo.exactMatch := JsBool true |} t)
  /\ taskBucketId
       (set_bucketInfo
          {| BucketInfo.id := JsUndefined; BucketInfo.name := JsUndefined;
             BucketInfo.originalName := label;
             BucketInfo.exactMatch := JsBool true |} t) bucketId
     = JsUndefined.
Proof.
  intros Ht Hb Hlower Hno. split; [|reflexivity].
  assert (Hne : label <> []).
  { intros ->. rewrite (toLowerCase_ascii [] eq_refl) in Hlower. discriminate Hlower. }
  assert (Hres : resolveBucket (buildBucketLookup buckets) label
                 = Some [(u16 "exactMatch", JsBool true)]).
  { unfold resolveBucket. rewrite Hlower, (buildBucketLookup_constructor buckets Hno).
    reflexivity. }
  pose proof (enrichBucket_of_label (buildBucketLookup buckets) tasks t label
                (nth_error_In _ _ Ht) Hb Hne) as Hen.
  rewrite Hres in Hen. specialize (Hen eq_refl).
  unfold lookupBuckets. rewrite nth_error_map, Ht. simpl. f_equal. exact Hen.
Qed.

End RerunProperties.

(** * More on the matcher *)

Section MatcherExtras.
Context `{JS : JsRuntime}.

(** X16.  A normalized key is empty or made of words of lower-case
    letters and digits with one space between two words: it holds no
    other character and neither starts nor ends with a space. *)
Theorem normalized_key_shape s :
  canonical (normalizeKey s)
  /\ (forall c, In c (normalizeKey s) -> c = SPACE \/ is_lower_alnum c = true)
  /\ trimmed (normalizeKey s).
Proof.
  pose proof (normalizeKey_canonical s) as Hc.
  split; [exact Hc|]. split; [exact (canonical_chars _ Hc)|].
  unfold trimmed, trim. destruct Hc as [->|Hc]; [reflexivity|].
  rewrite (loose_true_trimStart _ (canonical_from_loose _ _ Hc)).
  exact (canonical_trimEnd _ _ Hc).
Qed.

(** X17.  The index is exact.  Its key map sends a key to the members
    that carry the key, in the order of the roster, and has no entry for
    a key that no member carries; its entries are the members of the
    roster in order, each with its search text. *)
Theorem member_index_exact roster :
  (forall k,
     keyMap (buildMemberIndex roster) !! k
     = match List.filter (fun m => bool_decide (k ∈ generateMemberKeys m)) roster with
       | [] => None
       | ms => Some ms
       end)
  /\ List.map entry_member (entries (buildMemberIndex roster)) = roster
  /\ List.map searchText (entries (buildMemberIndex roster))
     = List.map memberSearchText roster.
Proof.
  split; [exact (keyMap_lookup roster)|].
  rewrite entries_build, !List.map_map. split; [apply List.map_id | reflexivity].
Qed.

(** X18.  Whatever the name, the members matched against the index of a
    roster are members of that roster, and no member id occurs twice
    among them. *)
Theorem matches_from_roster roster name :
  (forall x, In x (findMemberMatches name (buildMemberIndex roster)) -> In x roster)
  /\ List.NoDup (List.map PlannerMember.id
                   (findMemberMatches name (buildMemberIndex roster))).
Proof.
  split.
  - intros x Hx. apply list_elem_of_In.
    apply (findMemberMatches_from_roster roster name). apply list_elem_of_In, Hx.
  - apply NoDup_ListNoDup. apply findMemberMatches_NoDup.
Qed.

Lemma fold_match_key_source idx ks x :
  forall acc,
    x ∈ fold_left (match_key idx) ks acc ->
    x ∈ acc \/ exists k ms, k ∈ ks /\ keyMap idx !! k = Some ms /\ x ∈ ms.
Proof.
  induction ks as [|k ks IH]; intros acc H; simpl in H; [left; exact H|].
  destruct (IH _ H) as [H'|(k' & ms & Hk & Hms & Hx)].
  - unfold match_key in H'. destruct (keyMap idx !! k) as [ms|] eqn:E.
    + apply fold_push_unique_from in H' as [H'|H']; [left; exact H'|].
      right. exists k, ms. split; [left | split; assumption].
    + left. exact H'.
  - right. exists k', ms. split; [right; exact Hk | split; assumption].
Qed.

Lemma key_hit_matches roster name k :
  k ∈ keys (generateAssigneeKeys name) ->
  keyMap (buildMemberIndex roster) !! k <> None ->
  findMemberMatches name (buildMemberIndex roster)
  = fold_left (match_key (buildMemberIndex roster)) (keys (generateAssigneeKeys name)) []
  /\ forall m, In m roster -> k ∈ generateMemberKeys m ->
       PlannerMember.id m
       ∈ member_ids (findMemberMatches name (buildMemberIndex roster)).
Proof.
  intros Hk Hhit.
  destruct (keyMap (buildMemberIndex roster) !! k) as [ms|] eqn:Hms; [|contradiction].
  pose proof Hms as Hfilter. rewrite keyMap_lookup in Hfilter.
  destruct (List.filter (has_key k) roster) as [|m0 ms0] eqn:E; [discriminate|].
  injection Hfilter as <-.
  assert (Hm0 : m0 ∈ m0 :: ms0) by left.
  pose proof (fold_match_key_adds _ _ k _ m0 Hk Hms Hm0 []) as Hid.
  assert (Heq : findMemberMatches name (buildMemberIndex roster)
                = fold_left (match_key (buildMemberIndex roster))
                    (keys (generateAssigneeKeys name)) []).
  { unfold findMemberMatches.
    destruct (fold_left (match_key (buildMemberIndex roster))
                (keys (generateAssigneeKeys name)) []) as [|y ys]; [inversion Hid|].
    reflexivity. }
  split; [exact Heq|].
  intros m Hin Hkey. rewrite Heq.
  apply (fold_match_key_adds _ _ k (m0 :: ms0) m Hk Hms).
  rewrite <- E. apply list_elem_of_In, filter_In. split; [exact Hin|].
  unfold has_key. apply bool_decide_eq_true_2, Hkey.
Qed.

(** X19.  A key that hits shuts the token fallback out: when some key of
    the name is in the key map, every match carries one of the keys of
    the name, whatever the search texts contain, and every member of the
    roster that carries the key that hit is among the matches. *)
Theorem key_hit_shadows_fallback roster name k :
  k ∈ keys (generateAssigneeKeys name) ->
  keyMap (buildMemberIndex roster) !! k <> None ->
  (forall x, In x (findMemberMatches name (buildMemberIndex roster)) ->
     exists k', k' ∈ keys (generateAssigneeKeys name) /\ k' ∈ generateMemberKeys x)
  /\ (forall m, In m roster -> k ∈ generateMemberKeys m ->
        PlannerMember.id m
        ∈ List.map PlannerMember.id (findMemberMatches name (buildMemberIndex roster))).
Proof.
  intros Hk Hhit. destruct (key_hit_matches roster name k Hk Hhit) as [Heq Hall].
  split; [|exact Hall].
  intros x Hx. rewrite Heq in Hx. apply list_elem_of_In in Hx.
  apply fold_match_key_source in Hx as [Hx|(k' & ms & Hk' & Hms & Hx)]; [inversion Hx|].
  exists k'. split; [exact Hk'|].
  rewrite keyMap_lookup in Hms.
  destruct (List.filter (has_key k') roster) as [|m0 ms0] eqn:E; [discriminate|].
  injection Hms as <-. rewrite <- E in Hx.
  apply list_elem_of_In, filter_In in Hx as [_ Hx].
  unfold has_key in Hx. apply bool_decide_eq_true in Hx. exact Hx.
Qed.

Lemma filter_nonempty_keeps (ks : list str) k :
  k <> [] -> k ∈ ks -> k ∈ List.filter nonempty ks.
Proof.
  intros Hne Hk. apply list_elem_of_In, filter_In.
  split; [apply list_elem_of_In, Hk|]. destruct k; [contradiction | reflexivity].
Qed.

Lemma toLowerCase_nil : toLowerCase [] = [].
Proof. exact (toLowerCase_ascii [] eq_refl). Qed.

Lemma address_key name :
  includes (trim name) (u16 "@") = true ->
  toLowerCase (trim name) <> [] ->
  toLowerCase (trim name) ∈ keys (generateAssigneeKeys name).
Proof.
  intros Hat Hne. unfold generateAssigneeKeys.
  destruct (nonempty (trim name)) eqn:Hn.
  2: { destruct (trim name); [|discriminate Hn].
       contradiction Hne. apply toLowerCase_nil. }
  simpl negb. cbv iota. rewrite Hat. cbn [keys].
  apply filter_nonempty_keeps; [exact Hne|].
  unfold add_bigram_keys.
  assert (Hin : forall ks, toLowerCase (trim name) ∈ set_add ks (toLowerCase (trim name)))
    by (intros ks; apply set_add_adds).
  match goal with
  | |- _ ∈ (if ?c then _ else ?base) =>
      assert (Hbase : toLowerCase (trim name) ∈ base); [|destruct c]
  end.
  - destruct (includes (trim name) [COMMA]).
    + destruct (List.map _ (split_on COMMA (trim name))) as [|a [|b [|c l]]];
        try apply Hin.
      do 2 apply set_add_keeps. apply Hin.
    + apply Hin.
  - do 2 apply set_add_keeps. exact Hbase.
  - exact Hbase.
Qed.

Lemma address_member_key m addr :
  PlannerMember.mail m = Some addr \/ PlannerMember.userPrincipalName m = Some addr ->
  toLowerCase addr <> [] ->
  toLowerCase addr ∈ generateMemberKeys m.
Proof.
  intros Haddr Hne.
  assert (Hnon : nonempty addr = true).
  { destruct addr; [|reflexivity]. contradiction Hne. apply toLowerCase_nil. }
  unfold generateMemberKeys. apply filter_nonempty_keeps; [exact Hne|].
  destruct Haddr as [Hm|Hu].
  - rewrite Hm, Hnon.
    destruct (PlannerMember.userPrincipalName m) as [upn|].
    + destruct (nonempty upn); [apply set_add_keeps|]; apply set_add_adds.
    + apply set_add_adds.
  - rewrite Hu, Hnon. apply set_add_adds.
Qed.

(** X20.  An e-mail address finds its member without regard to case: a
    name that contains [@] and equals, once trimmed and lower-cased, the
    lower-cased mail address or user principal name of a member of the
    roster has that member among its matches. *)
Theorem address_match roster m name addr :
  In m roster ->
  PlannerMember.mail m = Some addr \/ PlannerMember.userPrincipalName m = Some addr ->
  includes (trim name) (u16 "@") = true ->
  toLowerCase (trim name) = toLowerCase addr ->
  toLowerCase addr <> [] ->
  PlannerMember.id m
  ∈ List.map PlannerMember.id (findMemberMatches name (buildMemberIndex roster)).
Proof.
  intros Hin Haddr Hat Heq Hne.
  pose proof (address_member_key m addr Haddr Hne) as Hkey.
  assert (Hk : toLowerCase addr ∈ keys (generateAssigneeKeys name)).
  { rewrite <- Heq. apply address_key; [exact Hat | rewrite Heq; exact Hne]. }
  apply (key_hit_matches roster name (toLowerCase addr) Hk); [|exact Hin | exact Hkey].
  rewrite keyMap_lookup.
  destruct (List.filter (has_key (toLowerCase addr)) roster) as [|m0 ms0] eqn:E;
    [|discriminate].
  assert (Hf : In m (List.filter (has_key (toLowerCase addr)) roster)).
  { apply filter_In. split; [exact Hin|]. unfold has_key.
    apply bool_decide_eq_true_2, Hkey. }
  rewrite E in Hf. destruct Hf.
Qed.

End MatcherExtras.

(** * From the file to the lookup *)

Section PipelineProperties.
Context `{JS : JsRuntime} `{LIB : JsLibraries}.

Lemma default_some_if_any {A} (l : list A) : default [] (some_if_any l) = l.
Proof. destruct l; reflexivity. Qed.

Lemma processAssignees_merged idx t names :
  assignees t = Some names -> names <> [] ->
  processAssignees idx t
  = {| task := t;
       assigneeUsers := some_if_any (matchedUsers (mergeAssignees idx names));
       assigneeLookupFailed := None;
       assigneeLookupFailedList := some_if_any (failed (mergeAssignees idx names));
       assigneeCandidates := some_if_any (mergedCandidates (mergeAssignees idx names));
       assigneeNeedsReview :=
         if mergedNeedsReview (mergeAssignees idx names) then Some true else None;
       bucketInfo := None; bucketLookupFailed := None |}.
Proof.
  intros Ht Hne. unfold processAssignees, enrichAssignees. rewrite Ht.
  destruct names as [|n names]; [contradiction|].
  unfold write_if_any, some_if_any.
  repeat match goal with
  | |- context [(0 <? length ?l)%nat] => destruct (0 <? length l)%nat
  | |- context [if mergedNeedsReview ?m then _ else _] => destruct (mergedNeedsReview m)
  end; reflexivity.
Qed.

Lemma evaluateAssignee_originalName idx n u :
  In u (users (evaluateAssignee idx n) ++ candidates (evaluateAssignee idx n)) ->
  originalName u = n.
Proof.
  rewrite evaluateAssignee_members. intros H.
  apply in_map_iff in H as (m & <- & _). reflexivity.
Qed.

Lemma merged_originalName idx names u :
  In u (matchedUsers (mergeAssignees idx names)
        ++ mergedCandidates (mergeAssignees idx names)) ->
  In (originalName u) names.
Proof.
  unfold mergeAssignees. rewrite merge_fold. simpl. intros H.
  apply in_app_iff in H as [H|H]; apply in_concat in H as (l & Hl & Hu);
    apply in_map_iff in Hl as (n & <- & Hn).
  - rewrite (evaluateAssignee_originalName idx n u); [exact Hn|].
    apply in_app_iff. left. exact Hu.
  - rewrite (evaluateAssignee_originalName idx n u); [exact Hn|].
    apply in_app_iff. right. exact Hu.
Qed.

Lemma merged_failed idx names n :
  In n (failed (mergeAssignees idx names)) -> In n names.
Proof.
  unfold mergeAssignees. rewrite merge_fold. simpl. intros H.
  apply filter_In in H as [H _]. exact H.
Qed.

(** X21.  From the file to the lookup.  For a task of [processData]
    with at least one name in its list of assignees, [lookupAssignees]
    looks the names of the list up one by one and never the text of the
    cell as a whole: every matched user and every candidate is recorded
    under one of these names, every failed name is one of them, and none
    of them contains a comma or a semicolon. *)
Theorem imported_names data columnMapping tasks roster :
  processData data columnMapping = Some tasks ->
  Forall (fun p =>
            forall names,
              assignees (task p) = Some names -> names <> [] ->
              (forall u,
                 In u (default [] (assigneeUsers p) ++ default [] (assigneeCandidates p)) ->
                 In (originalName u) names
                 /\ ~ In COMMA (originalName u) /\ ~ In SEMICOLON (originalName u))
              /\ (forall n, In n (default [] (assigneeLookupFailedList p)) -> In n names)
              /\ assigneeLookupFailed p = None)
         (lookupAssignees tasks roster).
Proof.
  intros Hdata. pose proof (processData_tasks data columnMapping tasks Hdata) as Hok.
  unfold lookupAssignees. apply Forall_map. eapply Forall_impl; [exact Hok|].
  intros t (row & _ & Hrow) names. simpl.
  apply process_row_task in Hrow as (s & _ & _ & _ & Hfields).
  set (idx := buildMemberIndex roster).
  assert (Htask : task (processAssignees idx t) = t).
  { unfold processAssignees, enrichAssignees.
    destruct (assignees t) as [[|n ns]|]; simpl.
    - destruct (truthy (assignee t)); [|reflexivity].
      destruct (0 <? _)%nat; [reflexivity|]. unfold write_if_any.
      destruct (0 <? _)%nat; reflexivity.
    - unfold write_if_any.
      repeat match goal with
      | |- context [(0 <? length ?l)%nat] => destruct (0 <? length l)%nat
      | |- context [if mergedNeedsReview ?m then _ else _] =>
          destruct (mergedNeedsReview m)
      end; reflexivity.
    - destruct (truthy (assignee t)); [|reflexivity].
      destruct (0 <? _)%nat; [reflexivity|]. unfold write_if_any.
      destruct (0 <? _)%nat; reflexivity. }
  rewrite Htask. intros Hnames Hne.
  rewrite (processAssignees_merged idx t names Hnames Hne). simpl.
  rewrite !default_some_if_any.
  assert (Hclean : forall n, In n names -> ~ In COMMA n /\ ~ In SEMICOLON n).
  { intros n Hn. unfold assignee_fields_ok in Hfields.
    destruct (assignee t) as [text|]; [|congruence].
    destruct Hfields as (_ & _ & Has).
    assert (names = split_assignees text) by congruence. subst names.
    destruct (split_assignees_names text n Hn) as (_ & _ & Hc).
    rewrite List.Forall_forall in Hc.
    split; intros Hin; specialize (Hc _ Hin); discriminate Hc. }
  split; [|split; [apply merged_failed | reflexivity]].
  intros u Hu. pose proof (merged_originalName idx names u Hu) as Hin.
  split; [exact Hin | exact (Hclean _ Hin)].
Qed.

End PipelineProperties.

(** * Line ends and dates *)

Lemma trimEnd_snoc_space s c : is_js_space c = true -> trimEnd (s ++ [c]) = trimEnd s.
Proof.
  intros Hc. induction s as [|x r IH]; simpl.
  - rewrite Hc. reflexivity.
  - rewrite IH. reflexivity.
Qed.

Lemma trimStart_snoc_space s c :
  is_js_space c = true ->
  trimStart (s ++ [c]) = match trimStart s with [] => [] | t => t ++ [c] end.
Proof.
  intros Hc. induction s as [|x r IH]; simpl.
  - rewrite Hc. reflexivity.
  - destruct (is_js_space x); [exact IH | reflexivity].
Qed.

Lemma trim_snoc_space s c : is_js_space c = true -> trim (s ++ [c]) = trim s.
Proof.
  intros Hc. unfold trim. rewrite (trimStart_snoc_space s c Hc).
  destruct (trimStart s) as [|x t]; [reflexivity|].
  apply (trimEnd_snoc_space (x :: t) c Hc).
Qed.

Lemma parseCSVLine_from_snoc c :
  is_js_space c = true ->
  forall line result current inQuotes,
    parseCSVLine_from (line ++ [c]) result current inQuotes
    = parseCSVLine_from line result current inQuotes.
Proof.
  intros Hc.
  assert (Hq : (c =? QUOTE)%N = false).
  { destruct (N.eqb_spec c QUOTE) as [->|]; [discriminate Hc | reflexivity]. }
  assert (Hcomma : (c =? COMMA)%N = false).
  { destruct (N.eqb_spec c COMMA) as [->|]; [discriminate Hc | reflexivity]. }
  intros line. remember (length line) as n eqn:Hn. revert line Hn.
  induction n as [n IH] using lt_wf_ind. intros line Hn result current inQuotes.
  destruct line as [|char rest].
  - simpl. rewrite Hq, Hcomma. simpl. rewrite (trim_snoc_space current c Hc). reflexivity.
  - simpl in Hn.
    assert (Hrest : forall result current inQuotes,
               parseCSVLine_from (rest ++ [c]) result current inQuotes
               = parseCSVLine_from rest result current inQuotes).
    { intros. apply (IH (length rest)); [lia | reflexivity]. }
    simpl. destruct (char =? QUOTE)%N.
    + destruct rest as [|nextChar rest'].
      * cbn [app]. rewrite Hq, andb_false_r.
        apply (Hrest result current (negb inQuotes)).
      * cbn [app]. destruct (inQuotes && (nextChar =? QUOTE)%N).
        -- apply (IH (length rest')); [simpl in Hn; lia | reflexivity].
        -- apply (Hrest result current (negb inQuotes)).
    + destruct ((char =? COMMA)%N && negb inQuotes); apply Hrest.
Qed.

Lemma split_on_crlf content :
  split_on LINE_FEED (crlf content) = with_cr (split_on LINE_FEED content).
Proof.
  induction content as [|c r IH]; [reflexivity|].
  destruct (split_on_cons LINE_FEED r) as (part & parts & Hr).
  simpl. destruct (c =? LINE_FEED)%N eqn:E.
  - simpl. fold (crlf r). rewrite IH, Hr. reflexivity.
  - simpl. rewrite E. fold (crlf r). rewrite IH, Hr.
    destruct parts as [|part' parts]; reflexivity.
Qed.

Section LineEndProperties.
Context `{JS : JsRuntime} `{LIB : JsLibraries}.

Lemma carriage_return_space : is_js_space CARRIAGE_RETURN = true.
Proof. reflexivity. Qed.

Lemma parse_rows_with_cr headers lines :
  parse_rows headers (tl (with_cr lines)) = parse_rows headers (tl lines).
Proof.
  destruct lines as [|first lines]; [reflexivity|].
  assert (H : forall lines, parse_rows headers (with_cr lines) = parse_rows headers lines).
  { clear. induction lines as [|l lines IH]; [reflexivity|].
    destruct lines as [|l' lines]; [reflexivity|].
    change (with_cr (l :: l' :: lines))
      with ((l ++ [CARRIAGE_RETURN]) :: with_cr (l' :: lines)).
    unfold parse_rows in *. simpl omap.
    rewrite (trim_snoc_space l _ carriage_return_space).
    destruct (nonempty (trim l)); simpl.
    - f_equal. exact IH.
    - exact IH. }
  destruct lines as [|l lines]; [reflexivity|]. exact (H (l :: lines)).
Qed.

(** X22.  Line ends do not matter: a text whose lines end with a
    carriage return and a line feed gives the same records as the text
    with line feeds alone, where [parse] accepts one as it does the
    other. *)
Theorem carriage_returns_ignored content :
  std_csv_parses (crlf content) = std_csv_parses content ->
  parseCSV (crlf content) = parseCSV content.
Proof.
  intros Hparse. unfold parseCSV. rewrite Hparse, split_on_crlf.
  destruct (std_csv_parses content); [|reflexivity].
  rewrite parse_rows_with_cr. do 2 f_equal.
  destruct (split_on LINE_FEED content) as [|first [|second lines]]; try reflexivity.
  exact (parseCSVLine_from_snoc _ carriage_return_space first [] [] false).
Qed.

(** X23.  [normalizeDate] gives nothing for a text that is empty or
    blank, and white space around a date does not change its result. *)
Theorem normalizeDate_trim dateStr :
  normalizeDate (trim dateStr) = normalizeDate dateStr
  /\ (forallb is_js_space dateStr = true -> normalizeDate dateStr = None).
Proof.
  unfold normalizeDate. rewrite trim_idempotent. split.
  - destruct dateStr as [|c r]; [reflexivity|].
    destruct (nonempty (trim (c :: r))) eqn:E.
    + destruct (trim (c :: r)); [discriminate E | reflexivity].
    + rewrite orb_true_r. destruct (nonempty (trim (trim (c :: r)))); reflexivity.
  - intros Hblank. unfold trim. rewrite (trimStart_blank _ Hblank). simpl.
    rewrite orb_true_r. reflexivity.
Qed.

End LineEndProperties.

(** * Samples for the reading of files *)

Section ImporterSamples.
#[local] Existing Instance deno_runtime.
#[local] Existing Instance sample_libraries.

Lemma parseCSVLine_plain_witness :
  parseCSVLine (u16 "Plan, Lee Ann ,Done")
  = List.map trim (split_on COMMA (u16 "Plan, Lee Ann ,Done")).
Proof.
  apply (parseCSVLine_plain (u16 "Plan, Lee Ann ,Done")).
  repeat constructor; vm_compute; discriminate.
Defined.

Lemma parseCSVLine_quoted_witness :
  parseCSVLine (csv_line [u16 "Plan"; u16 "Lee, Ann"; [QUOTE]])
  = List.map trim [u16 "Plan"; u16 "Lee, Ann"; [QUOTE]].
Proof.
  apply (parseCSVLine_quoted [u16 "Plan"; u16 "Lee, Ann"; [QUOTE]]). discriminate.
Defined.

Lemma carriage_returns_ignored_witness :
  parseCSV (crlf sample_csv) = parseCSV sample_csv.
Proof. apply (carriage_returns_ignored sample_csv). reflexivity. Defined.

Lemma record_cell_witness :
  js_get (make_record [u16 "Title"; u16 "Owner"] [u16 "Plan"; u16 "Ann"]) (u16 "Owner")
  = JsString (u16 "Ann")
  /\ js_get (make_record [u16 "Title"; u16 "Owner"] [u16 "Plan"]) (u16 "Owner")
     = object_prototype_get ProtoObjectPrototype (u16 "Owner").
Proof.
  split.
  - refine (proj1 (record_cell [u16 "Title"; u16 "Owner"] [u16 "Plan"; u16 "Ann"])
              1%nat (u16 "Owner") (u16 "Ann") _ _ _ _).
    + reflexivity.
    + reflexivity.
    + intros j' H1 H2. simpl in H2. lia.
    + reflexivity.
  - refine (proj2 (record_cell [u16 "Title"; u16 "Owner"] [u16 "Plan"])
              (u16 "Owner") _).
    intros [|j] Hj; [vm_compute; discriminate | simpl in Hj; lia].
Defined.

Lemma available_columns_witness :
  (forall c, In c (getAvailableColumns sample_rows) ->
     In c (parseCSVLine (hd [] (split_on LINE_FEED sample_csv))))
  /\ match List.find (fun l => nonempty (trim l)) (tl (split_on LINE_FEED sample_csv)) with
     | Some line =>
         (length (getAvailableColumns sample_rows) <= length (parseCSVLine (trim line)))%nat
     | None => getAvailableColumns sample_rows = []
     end.
Proof.
  apply (available_columns sample_csv sample_rows). vm_compute. reflexivity.
Defined.

Lemma processed_tasks_valid_witness :
  Forall (fun t => nonempty (title t) = true /\ trimmed (title t)) sample_tasks
  /\ validateTasks sample_tasks = {| valid := true; errors := [] |}.
Proof.
  apply (processed_tasks_valid sample_rows sample_mapping sample_tasks).
  vm_compute. reflexivity.
Defined.

Lemma processed_assignees_witness :
  Forall (fun t =>
            match assignee t with
            | Some text =>
                nonempty text = true /\ trimmed text
                /\ exists names,
                     assignees t = Some names
                     /\ names = split_assignees text
                     /\ Forall (fun name =>
                                  nonempty name = true /\ trimmed name
                                  /\ Forall (fun c => c <> COMMA /\ c <> SEMICOLON) name)
                          names
            | None => assignees t = None
            end) sample_tasks.
Proof.
  apply (processed_assignees sample_rows sample_mapping sample_tasks).
  vm_compute. reflexivity.
Defined.

Lemma missing_title_column_witness :
  processData sample_rows
    {| ColumnMapping.title := u16 "constructor";
       ColumnMapping.description := None; ColumnMapping.startDate := None;
       ColumnMapping.dueDate := None; ColumnMapping.assignee := None;
       ColumnMapping.bucketName := None; ColumnMapping.status := None |}
  = None.
Proof.
  refine (missing_title_column sample_csv sample_rows
            {| ColumnMapping.title := u16 "constructor";
               ColumnMapping.description := None; ColumnMapping.startDate := None;
               ColumnMapping.dueDate := None; ColumnMapping.assignee := None;
               ColumnMapping.bucketName := None; ColumnMapping.status := None |} _ _).
  - vm_compute. reflexivity.
  - intros [|[|[|j]]]; vm_compute; discriminate.
Defined.

Lemma statistics_counts_witness :
  stat_own (getAssigneeStatistics (sample_tasks ++ sample_tasks)) (u16 "Lee, Ann")
  = count_value (tasks_with assignee (u16 "Lee, Ann") (sample_tasks ++ sample_tasks))
  /\ stat_own (getBucketStatistics sample_tasks) (u16 "[No Bucket]")
     = Some (StatCount (N.of_nat (tasks_without bucketName sample_tasks))).
Proof.
  split.
  - refine (proj1 (statistics_counts (sample_tasks ++ sample_tasks))
              (u16 "Lee, Ann") _ _ _).
    + discriminate.
    + vm_compute. discriminate.
    + vm_compute. reflexivity.
  - refine (proj2 (proj2 (proj2 (statistics_counts sample_tasks))) _).
    vm_compute. discriminate.
Defined.

Lemma statistics_of_inherited_names_witness :
  stat_own
    (getAssigneeStatistics
       [task_with (Some (u16 "constructor")) None None;
        task_with (Some (u16 "constructor")) None None])
    (u16 "constructor")
  = text_value (function_source (u16 "Object"))
      (tasks_with assignee (u16 "constructor")
         [task_with (Some (u16 "constructor")) None None;
          task_with (Some (u16 "constructor")) None None])
  /\ stat_own
       (getBucketStatistics
          [task_with (Some (u16 "constructor")) None None;
           task_with (Some (u16 "constructor")) None None])
       (u16 "constructor")
     = text_value (function_source (u16 "Object"))
         (tasks_with bucketName (u16 "constructor")
            [task_with (Some (u16 "constructor")) None None;
             task_with (Some (u16 "constructor")) None None]).
Proof.
  apply (statistics_of_inherited_names
           [task_with (Some (u16 "constructor")) None None;
            task_with (Some (u16 "constructor")) None None]
           (u16 "constructor") (u16 "Object")).
  - discriminate.
  - vm_compute. reflexivity.
Defined.

Lemma rerun_keeps_bucket_witness :
  exists p,
    nth_error (lookupBuckets [stale_task] []) 0 = Some p
    /\ task p = task stale_task
    /\ (is_Some (bucketInfo stale_task) -> is_Some (bucketInfo p))
    /\ (bucketLookupFailed stale_task = Some true -> bucketLookupFailed p = Some true)
    /\ (bucketLookupFailed p <> bucketLookupFailed stale_task ->
        bucketInfo p = bucketInfo stale_task
        /\ forall bucketId, taskBucketId p bucketId = taskBucketId stale_task bucketId).
Proof. apply (rerun_keeps_bucket [stale_task] [] 0 stale_task). reflexivity. Defined.

Lemma constructor_label_witness :
  nth_error
    (lookupBuckets [spread_task (task_with None None (Some (u16 "Constructor")))]
       [bucket_named (u16 "b1") (u16 "Planning")]) 0
  = Some (set_bucketInfo
            {| BucketInfo.id := JsUndefined; BucketInfo.name := JsUndefined;
               BucketInfo.originalName := u16 "Constructor";
               BucketInfo.exactMatch := JsBool true |}
            (spread_task (task_with None None (Some (u16 "Constructor")))))
  /\ taskBucketId
       (set_bucketInfo
          {| BucketInfo.id := JsUndefined; BucketInfo.name := JsUndefined;
             BucketInfo.originalName := u16 "Constructor";
             BucketInfo.exactMatch := JsBool true |}
          (spread_task (task_with None None (Some (u16 "Constructor")))))
       (JsString (u16 "default"))
     = JsUndefined.
Proof.
  apply (constructor_label
           [spread_task (task_with None None (Some (u16 "Constructor")))]
           [bucket_named (u16 "b1") (u16 "Planning")] 0
           (spread_task (task_with None None (Some (u16 "Constructor"))))
           (u16 "Constructor") (JsString (u16 "default"))).
  - reflexivity.
  - reflexivity.
  - vm_compute. reflexivity.
  - intros b [<-|[]]. vm_compute. discriminate.
Defined.

Lemma matches_from_roster_witness :
  (forall x, In x (findMemberMatches (u16 "Ann") (buildMemberIndex [ann; lee_ann])) ->
     In x [ann; lee_ann])
  /\ List.NoDup (List.map PlannerMember.id
                   (findMemberMatches (u16 "Ann") (buildMemberIndex [ann; lee_ann]))).
Proof. exact (matches_from_roster [ann; lee_ann] (u16 "Ann")). Defined.

Lemma key_hit_shadows_fallback_witness :
  (forall x, In x (findMemberMatches (u16 "Ann Lee") (buildMemberIndex [ann; lee_ann])) ->
     exists k', k' ∈ keys (generateAssigneeKeys (u16 "Ann Lee"))
                /\ k' ∈ generateMemberKeys x)
  /\ (forall m, In m [ann; lee_ann] -> u16 "ann lee" ∈ generateMemberKeys m ->
        PlannerMember.id m
        ∈ List.map PlannerMember.id
            (findMemberMatches (u16 "Ann Lee") (buildMemberIndex [ann; lee_ann]))).
Proof.
  apply (key_hit_shadows_fallback [ann; lee_ann] (u16 "Ann Lee") (u16 "ann lee")).
  - vm_compute. left.
  - vm_compute. discriminate.
Defined.

Lemma address_match_witness :
  PlannerMember.id ann_with_mail
  ∈ List.map PlannerMember.id
      (findMemberMatches (u16 " ann.lee@example.COM ") (buildMemberIndex [ann_with_mail])).
Proof.
  refine (address_match [ann_with_mail] ann_with_mail (u16 " ann.lee@example.COM ")
            (u16 "Ann.Lee@Example.com") (or_introl eq_refl) (or_introl eq_refl) _ _ _).
  - vm_compute. reflexivity.
  - vm_compute. reflexivity.
  - vm_compute. discriminate.
Defined.

Lemma imported_names_witness :
  Forall (fun p =>
            forall names,
              assignees (task p) = Some names -> names <> [] ->
              (forall u,
                 In u (default [] (assigneeUsers p) ++ default [] (assigneeCandidates p)) ->
                 In (originalName u) names
                 /\ ~ In COMMA (originalName u) /\ ~ In SEMICOLON (originalName u))
              /\ (forall n, In n (default [] (assigneeLookupFailedList p)) -> In n names)
              /\ assigneeLookupFailed p = None)
         (lookupAssignees sample_tasks [ann; lee_ann]).
Proof.
  apply (imported_names sample_rows sample_mapping sample_tasks [ann; lee_ann]).
  vm_compute. reflexivity.
Defined.

End ImporterSamples.
